(** * Canon EOS studio remote: the camera device session coordinator

    A shallow embedding of the device-facing core of [server.py]: the
    capture primitive with its retry loop, the manual capture handler with
    its cooldown, the intervalometer worker, the card import worker, the
    preview card-sync transfer and the MJPEG demuxer of the live stream.

    Conventions of the embedding.
    - Python code that mutates module globals is written in a state monad
      [M] over a record [World] holding those globals.
    - Every [subprocess.check_output(["gphoto2", ...])] asks an oracle
      carried by the world for the outcome of the k-th subprocess, so that
      theorems quantify over every behaviour of the camera.
    - Wall-clock time is a rational number of seconds; [time.sleep d]
      advances the clock by [d], and raises when [d] is beyond what it
      accepts.
    - Every acquisition and release of [cam_lock], every subprocess start
      and exit, every sleep and every wait for the live-view hold process
      to end is appended to a time-stamped log. *)

From Stdlib Require Import ZArith QArith List String Ascii Bool Arith Lia Lqa.
From Stdlib Require Import Strings.Byte.
From Equations Require Import Equations.
Import ListNotations.

Set Implicit Arguments.

(** ** Text helpers: [str.lower()] and the [in] operator *)

Module Text.

Local Open Scope string_scope.

(** [c.lower()] on an ASCII character. *)
Definition lower_ascii (c : ascii) : ascii :=
  let n := nat_of_ascii c in
  if ((65 <=? n) && (n <=? 90))%nat then ascii_of_nat (n + 32) else c.

(** [s.lower()] *)
Fixpoint lower (s : string) : string :=
  match s with
  | EmptyString => EmptyString
  | String c s' => String (lower_ascii c) (lower s')
  end.

(** [kw in s] *)
Fixpoint contains (kw s : string) : bool :=
  if String.prefix kw s then true
  else match s with
       | EmptyString => false
       | String _ s' => contains kw s'
       end.

(** Truthiness of a Python string. *)
Definition truthy (s : string) : bool :=
  match s with EmptyString => false | _ => true end.

(** [os.path.join(a, b)] for a relative [b]. *)
Definition path_join (a b : string) : string := a ++ "/" ++ b.

End Text.

(** ** The camera as an oracle *)

(** How [--get-file] treats a file already on disk. *)
Inductive transfer_flag : Type :=
| skip_existing
| force_overwrite.

(** The gphoto2 command lines the server builds. *)
Inductive gp_cmd : Type :=
| capture_image_and_download
| get_file (idx : Z) (flag : transfer_flag) (filename : string)
| set_config (key value : string)
| get_config (key : string)
| list_files
| storage_info
| capture_preview
| capture_movie.

(** What one [subprocess.check_output] call does: it returns the output,
    raises [CalledProcessError] carrying the output (non-zero exit), or
    raises some other exception (the program could not be started). *)
Inductive completed : Type :=
| Returned (out : string)
| CalledProcessError (output : string)
| Raised (msg : string).

(** One entry of [_list_camera_files()]. *)
Record CameraFile : Type := {
  index : Z;
  name : string;
  ts : option Z
}.

(** Everything the code reads from outside the process. *)
Record Env : Type := {
  (** outcome of the k-th gphoto2 subprocess started (k counts from 0) *)
  gphoto : nat -> completed;
  (** base name of the newest file matching the capture pattern once k
      subprocesses have run; the empty string when [glob] finds none *)
  saved_as : nat -> string;
  (** [os.path.exists(dest)] once k subprocesses have run *)
  dest_exists : nat -> bool;
  (** the line parser of [_list_camera_files] applied to gphoto2 output *)
  parse_listing : string -> list CameraFile;
  (** [_photos_dir()] *)
  photos_dir : string;
  (** [time.strftime("%Y%m%d")] *)
  today : string;
  (** whether [IMPORT_CONF] can be written *)
  conf_writable : bool;
  (** seconds the live-view hold process takes to end once it is sent
      [terminate()] *)
  hold_exit_delay : Q;
  (** the longest duration that [time.sleep] accepts: beyond it (some
      9.2e9 s in CPython on Linux, depending on the monotonic clock) the
      call raises [OverflowError] or [OSError] and does not sleep *)
  sleep_limit : Q
}.

(** ** Events *)

Inductive event : Type :=
| EvAcquire                 (* cam_lock acquired *)
| EvRelease                 (* cam_lock released *)
| EvSpawn (c : gp_cmd)      (* a gphoto2 subprocess starts *)
| EvExit                    (* the subprocess started last by this thread ends *)
| EvSleep (d : Q)           (* time.sleep(d) *)
| EvStopHold (d : Q).       (* terminate() of the live-view hold, its
                               wait(timeout=5) that blocks for d, and the
                               kill() when the wait times out *)

(** ** Module globals *)

Inductive import_mode : Type := mode_new | mode_all.
Inductive import_target : Type := target_session | target_root.

(** [interval_state] (the [thread] entry is not modelled). *)
Record IntervalState : Type := {
  iv_running : bool;
  iv_interval : Q;
  iv_remaining : Z;
  iv_total : Z;
  iv_last_error : option string
}.

(** [import_state] *)
Record ImportState : Type := {
  im_running : bool;
  im_mode : option import_mode;
  im_target : option import_target;
  im_total : Z;
  im_done : Z;
  im_imported : Z;
  im_skipped : Z;
  im_errors : Z;
  im_current : option string;
  im_started_at : option Q;
  im_finished_at : option Q;
  im_last_error : option string;
  im_auraface_sent : Z;
  im_auraface_failed : Z
}.

(** State of the process behind [_liveview_proc]: [poll()] is [None] for
    [Alive]. *)
Inductive proc_state : Type := Alive | Finished.

Record World : Type := {
  env : Env;
  clock : Q;                           (* time.time() *)
  LAST_CAPTURE_TS : Q;
  cam_lock : bool;                     (* held? *)
  interval_state : IntervalState;
  import_state : ImportState;
  import_cancel : bool;                (* threading.Event *)
  IMPORT_CONF : option Z;              (* persisted "last_index", if any *)
  _liveview_proc : option proc_state;
  liveview_running : bool;             (* liveview_state["running"] *)
  spawned : nat;                       (* gphoto2 subprocesses so far *)
  log : list (Q * event)               (* newest first *)
}.

(** Field updates. *)
Definition set_clock (t : Q) (w : World) : World :=
  Build_World (env w) t (LAST_CAPTURE_TS w) (cam_lock w) (interval_state w)
    (import_state w) (import_cancel w) (IMPORT_CONF w) (_liveview_proc w)
    (liveview_running w) (spawned w) (log w).
Definition set_LAST_CAPTURE_TS (t : Q) (w : World) : World :=
  Build_World (env w) (clock w) t (cam_lock w) (interval_state w)
    (import_state w) (import_cancel w) (IMPORT_CONF w) (_liveview_proc w)
    (liveview_running w) (spawned w) (log w).
Definition set_cam_lock (b : bool) (w : World) : World :=
  Build_World (env w) (clock w) (LAST_CAPTURE_TS w) b (interval_state w)
    (import_state w) (import_cancel w) (IMPORT_CONF w) (_liveview_proc w)
    (liveview_running w) (spawned w) (log w).
Definition set_interval_state (s : IntervalState) (w : World) : World :=
  Build_World (env w) (clock w) (LAST_CAPTURE_TS w) (cam_lock w) s
    (import_state w) (import_cancel w) (IMPORT_CONF w) (_liveview_proc w)
    (liveview_running w) (spawned w) (log w).
Definition set_import_state (s : ImportState) (w : World) : World :=
  Build_World (env w) (clock w) (LAST_CAPTURE_TS w) (cam_lock w)
    (interval_state w) s (import_cancel w) (IMPORT_CONF w) (_liveview_proc w)
    (liveview_running w) (spawned w) (log w).
Definition set_import_cancel (b : bool) (w : World) : World :=
  Build_World (env w) (clock w) (LAST_CAPTURE_TS w) (cam_lock w)
    (interval_state w) (import_state w) b (IMPORT_CONF w) (_liveview_proc w)
    (liveview_running w) (spawned w) (log w).
Definition set_IMPORT_CONF (c : option Z) (w : World) : World :=
  Build_World (env w) (clock w) (LAST_CAPTURE_TS w) (cam_lock w)
    (interval_state w) (import_state w) (import_cancel w) c (_liveview_proc w)
    (liveview_running w) (spawned w) (log w).
Definition set_liveview (p : option proc_state) (r : bool) (w : World) : World :=
  Build_World (env w) (clock w) (LAST_CAPTURE_TS w) (cam_lock w)
    (interval_state w) (import_state w) (import_cancel w) (IMPORT_CONF w) p
    r (spawned w) (log w).
Definition set_spawned (n : nat) (w : World) : World :=
  Build_World (env w) (clock w) (LAST_CAPTURE_TS w) (cam_lock w)
    (interval_state w) (import_state w) (import_cancel w) (IMPORT_CONF w)
    (_liveview_proc w) (liveview_running w) n (log w).
Definition emit (e : event) (w : World) : World :=
  Build_World (env w) (clock w) (LAST_CAPTURE_TS w) (cam_lock w)
    (interval_state w) (import_state w) (import_cancel w) (IMPORT_CONF w)
    (_liveview_proc w) (liveview_running w) (spawned w)
    ((clock w, e) :: log w).

(** ** The state monad *)

Definition M (A : Type) : Type := World -> A * World.

Definition ret {A : Type} (a : A) : M A := fun w => (a, w).

Definition bind {A B : Type} (m : M A) (k : A -> M B) : M B :=
  fun w => let (a, w') := m w in k a w'.

Declare Scope monad_scope.
Delimit Scope monad_scope with monad.
Notation "x <- m ;; k" := (bind m (fun x => k))
  (at level 61, m at next level, right associativity) : monad_scope.
Notation "m ;; k" := (bind m (fun _ => k))
  (at level 61, right associativity) : monad_scope.
Local Open Scope monad_scope.

Definition get {A : Type} (f : World -> A) : M A := fun w => (f w, w).
Definition modify (f : World -> World) : M unit := fun w => (tt, f w).
Definition when (b : bool) (m : M unit) : M unit := if b then m else ret tt.

(** The final world and the result of running a computation. *)
Definition exec {A : Type} (m : M A) (w : World) : World := snd (m w).
Definition eval {A : Type} (m : M A) (w : World) : A := fst (m w).

(** ** Primitives *)

(** [time.time()] *)
Definition time_time : M Q := get clock.

(** [time.sleep(d)] for a positive duration that it accepts, see
    [sleepable].  Three of its four callers sleep for a retry delay or for
    what is missing of the capture gap; the fourth, the intervalometer,
    sleeps for the interval of the request, and [interval_pass] has the
    exit by which [time.sleep] raises on an interval that it refuses. *)
Definition time_sleep (d : Q) : M unit :=
  modify (fun w => set_clock (clock w + d) (emit (EvSleep d) w)).

(** Whether [time.sleep] accepts the positive duration [d]: beyond
    [sleep_limit] it raises [OverflowError] or [OSError]. *)
Definition sleepable (e : Env) (d : Q) : bool := Qle_bool d (sleep_limit e).

(** [subprocess.check_output(["gphoto2", ...])]: start the subprocess, wait
    for it, and hand its outcome to the caller. *)
Definition check_output (c : gp_cmd) : M completed :=
  fun w =>
    (gphoto (env w) (spawned w),
     emit EvExit (set_spawned (S (spawned w)) (emit (EvSpawn c) w))).

(** [with cam_lock: body].  The release runs on every exit path; exceptions
    of [body] are carried in its result. *)
Definition with_cam_lock {A : Type} (body : M A) : M A :=
  modify (fun w => set_cam_lock true (emit EvAcquire w));;
  r <- body;;
  modify (fun w => set_cam_lock false (emit EvRelease w));;
  ret r.

(** Updates of the two job dictionaries. *)
Definition set_iv_last_error (e : option string) : M unit :=
  modify (fun w =>
    let s := interval_state w in
    set_interval_state
      (Build_IntervalState (iv_running s) (iv_interval s) (iv_remaining s)
         (iv_total s) e) w).

Definition set_iv_running (b : bool) : M unit :=
  modify (fun w =>
    let s := interval_state w in
    set_interval_state
      (Build_IntervalState b (iv_interval s) (iv_remaining s)
         (iv_total s) (iv_last_error s)) w).

Definition set_iv_remaining (n : Z) : M unit :=
  modify (fun w =>
    let s := interval_state w in
    set_interval_state
      (Build_IntervalState (iv_running s) (iv_interval s) n
         (iv_total s) (iv_last_error s)) w).

(** ** Live-view helpers used by the capture handler *)

Definition LIVEVIEW_KEYS : list string :=
  ["/main/actions/viewfinder"; "/main/actions/eosviewfinder"]%string.

(** The loop of [_set_liveview]: the first key that gphoto2 accepts wins.
    [None] stands for an exception other than [CalledProcessError], which
    leaves the function. *)
Fixpoint _set_liveview_keys (val : string) (keys : list string)
  : M (option bool) :=
  match keys with
  | [] => ret (Some false)
  | k :: ks =>
      r <- check_output (set_config k val);;
      match r with
      | Returned _ => ret (Some true)
      | CalledProcessError _ => _set_liveview_keys val ks
      | Raised _ => ret None
      end
  end.

Definition _set_liveview (on : bool) : M (option bool) :=
  _set_liveview_keys (if on then "1" else "0")%string LIVEVIEW_KEYS.

(** [_liveview_proc_running()] reaps a finished hold process lazily. *)
Definition _liveview_proc_running : M bool :=
  p <- get _liveview_proc;;
  match p with
  | None => ret false
  | Some Alive => ret true
  | Some Finished => modify (set_liveview None false);; ret false
  end.

(** The timeout of [_liveview_proc.wait(timeout=5)]. *)
Definition HOLD_WAIT_TIMEOUT : Q := 5.

(** How long [_liveview_proc.wait(timeout=5)] blocks once the hold process
    was sent [terminate()]: until the process ends, and no longer than the
    timeout, after which the process is killed. *)
Definition hold_wait (e : Env) : Q :=
  if Qle_bool (hold_exit_delay e) 0 then 0
  else if Qle_bool (hold_exit_delay e) HOLD_WAIT_TIMEOUT
       then hold_exit_delay e
       else HOLD_WAIT_TIMEOUT.

(** [terminate()], [wait(timeout=5)] and, on [TimeoutExpired], [kill()]:
    the caller is blocked for [d]. *)
Definition stop_hold (d : Q) : M unit :=
  modify (fun w => set_clock (clock w + d) (emit (EvStopHold d) w)).

(** [_liveview_proc_stop()].  A process that has ended already is waited
    for in no time. *)
Definition _liveview_proc_stop : M unit :=
  p <- get _liveview_proc;;
  match p with
  | None => modify (fun w => set_liveview None false w)
  | Some st =>
      e <- get env;;
      match st with
      | Alive => stop_hold (hold_wait e)
      | Finished => modify (emit (EvStopHold 0))
      end;;
      modify (set_liveview None false);;
      _ <- _set_liveview false;;
      ret tt
  end.

(** ** The capture primitive *)

Definition attempts : nat := 2.
Definition delay : Q := 0.6.

Definition transient_keywords : list string :=
  [ "could not claim the usb device";
    "device or resource busy";
    "device busy";
    "ptp i/o error";
    "i/o error";
    "busy" ]%string.

(** The classification made inside the [except] clause of [_capture_one]. *)
Definition transient (output : string) : bool :=
  let err_txt := Text.lower output in
  existsb (fun kw => Text.contains kw err_txt) transient_keywords.

(** [for i in range(attempts): ...] of [_capture_one], over the remaining
    values of [i].  The result is what leaves the loop: [Some (Returned _)]
    for the [break], [Some] of an exception for the re-raise, [None] when
    the range is exhausted. *)
Fixpoint capture_attempts (range : list nat) : M (option completed) :=
  match range with
  | [] => ret None
  | i :: rest =>
      r <- check_output capture_image_and_download;;
      match r with
      | Returned out => ret (Some (Returned out))
      | CalledProcessError output =>
          if transient output && (i <? attempts - 1)%nat
          then time_sleep delay;; capture_attempts rest
          else ret (Some r)
      | Raised msg => ret (Some r)
      end
  end.

(** [_capture_one()] returns [(ok, fname, gps_details, auraface_info)]; the
    last two come from the tagging and notification collaborators and are
    left out. *)
Definition _capture_one : M (bool * option string) :=
  r <- capture_attempts (seq 0 attempts);;
  match r with
  | Some (CalledProcessError output) =>
      set_iv_last_error (Some output);;
      ret (false, None)
  | Some (Raised msg) =>
      set_iv_last_error (Some msg);;
      ret (false, None)
  | _ =>
      n <- get spawned;;
      e <- get env;;
      ret (true, Some (saved_as e n))
  end.

(** ** The manual capture handler *)

Definition MIN_CAPTURE_GAP : Q := 1.2.

Definition Qltb (x y : Q) : bool := negb (Qle_bool y x).

Inductive capture_response : Type :=
| capture_OK (file : string)
| capture_Error (error : string).

(** The cooldown at the head of [capture()]. *)
Definition cooldown : M unit :=
  now <- time_time;;
  last <- get LAST_CAPTURE_TS;;
  let delta := now - last in
  when (Qltb delta MIN_CAPTURE_GAP) (time_sleep (MIN_CAPTURE_GAP - delta));;
  t <- time_time;;
  modify (set_LAST_CAPTURE_TS t).

(** [x or "capture failed"] on the stored error. *)
Definition error_or (e : option string) (default : string) : string :=
  match e with
  | Some s => if Text.truthy s then s else default
  | None => default
  end.

Definition falsy_name (fname : option string) : bool :=
  match fname with
  | Some s => negb (Text.truthy s)
  | None => true
  end.

(** What [capture()] does under the lock before it captures: the cooldown,
    and the end of a live-view hold that is still running. *)
Definition capture_prelude : M unit :=
  cooldown;;
  lv <- _liveview_proc_running;;
  when lv _liveview_proc_stop.

(** [capture()], the handler of [GET /capture]. *)
Definition capture : M capture_response :=
  r <- with_cam_lock (capture_prelude;; _capture_one);;
  let (ok, fname) := r in
  if negb ok || falsy_name fname
  then
    s <- get interval_state;;
    ret (capture_Error (error_or (iv_last_error s) "capture failed"))
  else
    ret (capture_OK (match fname with Some s => s | None => ""%string end)).

(** [interval_status()], the handler of [GET /api/interval/status]. *)
Definition interval_status : M IntervalState := get interval_state.

(** ** The intervalometer worker *)

(** One pass through the body of the [while True] loop of
    [_interval_worker], for a finite [interval_s]; the result is
    [Some false] when the pass ends in a [break], [Some true] when the loop
    goes on, and [None] when [time.sleep(interval_s)] raises, which ends
    the thread. *)
Definition interval_pass (interval_s : Q) : M (option bool) :=
  s <- get interval_state;;
  if negb (iv_running s) then ret (Some false)
  else if (iv_remaining s <=? 0)%Z
       then set_iv_running false;; ret (Some false)
  else
    r <- with_cam_lock _capture_one;;
    if negb (fst r) then set_iv_running false;; ret (Some false)
    else
      s' <- get interval_state;;
      set_iv_remaining (iv_remaining s' - 1);;
      if Qle_bool interval_s 0 then ret (Some true)
      else
        e <- get env;;
        if sleepable e interval_s
        then time_sleep interval_s;; ret (Some true)
        else ret None.

(** The [while True] loop.  Every pass that does not leave the loop
    decrements [remaining], so the loop is unrolled [fuel] times; the
    result is [Some true] when the loop was left by one of its [break]s,
    [Some false] when the fuel ran out first, and [None] when the
    exception of [time.sleep] left it. *)
Fixpoint interval_loop (fuel : nat) (interval_s : Q) : M (option bool) :=
  match fuel with
  | O => ret (Some false)
  | S fuel' =>
      go <- interval_pass interval_s;;
      match go with
      | Some true => interval_loop fuel' interval_s
      | Some false => ret (Some true)
      | None => ret None
      end
  end.

(** [_interval_worker(interval_s, count)], for a finite [interval_s].
    The result tells whether the function returns, having left its loop by
    a [break]: it does unless [time.sleep] raises, see
    [interval_worker_terminates]; the exception ends the thread before the
    last write to [running]. *)
Definition _interval_worker (interval_s : Q) (count : Z) : M bool :=
  modify (set_interval_state
            (Build_IntervalState true interval_s count count None));;
  left <- interval_loop (S (Z.to_nat count)) interval_s;;
  match left with
  | Some b => set_iv_running false;; ret b
  | None => ret false
  end.

(** [interval_stop()] *)
Definition interval_stop : M unit := set_iv_running false.

(** ** The import worker *)

Definition upd_import (f : ImportState -> ImportState) : M unit :=
  modify (fun w => set_import_state (f (import_state w)) w).

Definition with_running (b : bool) (s : ImportState) : ImportState :=
  Build_ImportState b (im_mode s) (im_target s) (im_total s) (im_done s)
    (im_imported s) (im_skipped s) (im_errors s) (im_current s)
    (im_started_at s) (im_finished_at s) (im_last_error s)
    (im_auraface_sent s) (im_auraface_failed s).
Definition with_total (n : Z) (s : ImportState) : ImportState :=
  Build_ImportState (im_running s) (im_mode s) (im_target s) n (im_done s)
    (im_imported s) (im_skipped s) (im_errors s) (im_current s)
    (im_started_at s) (im_finished_at s) (im_last_error s)
    (im_auraface_sent s) (im_auraface_failed s).
Definition with_done (n : Z) (s : ImportState) : ImportState :=
  Build_ImportState (im_running s) (im_mode s) (im_target s) (im_total s) n
    (im_imported s) (im_skipped s) (im_errors s) (im_current s)
    (im_started_at s) (im_finished_at s) (im_last_error s)
    (im_auraface_sent s) (im_auraface_failed s).
Definition with_imported (n : Z) (s : ImportState) : ImportState :=
  Build_ImportState (im_running s) (im_mode s) (im_target s) (im_total s)
    (im_done s) n (im_skipped s) (im_errors s) (im_current s)
    (im_started_at s) (im_finished_at s) (im_last_error s)
    (im_auraface_sent s) (im_auraface_failed s).
Definition with_skipped (n : Z) (s : ImportState) : ImportState :=
  Build_ImportState (im_running s) (im_mode s) (im_target s) (im_total s)
    (im_done s) (im_imported s) n (im_errors s) (im_current s)
    (im_started_at s) (im_finished_at s) (im_last_error s)
    (im_auraface_sent s) (im_auraface_failed s).
Definition with_errors (n : Z) (s : ImportState) : ImportState :=
  Build_ImportState (im_running s) (im_mode s) (im_target s) (im_total s)
    (im_done s) (im_imported s) (im_skipped s) n (im_current s)
    (im_started_at s) (im_finished_at s) (im_last_error s)
    (im_auraface_sent s) (im_auraface_failed s).
Definition with_current (c : option string) (s : ImportState) : ImportState :=
  Build_ImportState (im_running s) (im_mode s) (im_target s) (im_total s)
    (im_done s) (im_imported s) (im_skipped s) (im_errors s) c
    (im_started_at s) (im_finished_at s) (im_last_error s)
    (im_auraface_sent s) (im_auraface_failed s).
Definition with_finished_at (t : option Q) (s : ImportState) : ImportState :=
  Build_ImportState (im_running s) (im_mode s) (im_target s) (im_total s)
    (im_done s) (im_imported s) (im_skipped s) (im_errors s) (im_current s)
    (im_started_at s) t (im_last_error s)
    (im_auraface_sent s) (im_auraface_failed s).
Definition with_last_error (e : option string) (s : ImportState) : ImportState :=
  Build_ImportState (im_running s) (im_mode s) (im_target s) (im_total s)
    (im_done s) (im_imported s) (im_skipped s) (im_errors s) (im_current s)
    (im_started_at s) (im_finished_at s) e
    (im_auraface_sent s) (im_auraface_failed s).

(** [_load_import_conf()] followed by
    [int(cfg.get("last_index", 0) or 0)]. *)
Definition _load_import_conf : M Z :=
  c <- get IMPORT_CONF;;
  ret (match c with Some i => i | None => 0%Z end).

(** [cfg["last_index"] = i; _save_import_conf(cfg)]: a failed write is
    swallowed and reported as [False]. *)
Definition _save_import_conf (i : Z) : M bool :=
  e <- get env;;
  if conf_writable e
  then modify (set_IMPORT_CONF (Some i));; ret true
  else ret false.

(** [_list_camera_files()]: [inl] carries an exception other than
    [CalledProcessError], which the function does not catch. *)
Definition _list_camera_files : M (string + list CameraFile) :=
  r <- with_cam_lock (check_output list_files);;
  match r with
  | Returned out => e <- get env;; ret (inr (parse_listing e out))
  | CalledProcessError _ => ret (inr [])
  | Raised msg => ret (inl msg)
  end.

(** [import_start()], up to the start of the worker thread.  The result is
    [false] for the 400 answer. *)
Definition import_start (mode : import_mode) (session_flag : bool) : M bool :=
  s <- get import_state;;
  if im_running s then ret false
  else
    t <- time_time;;
    upd_import (fun _ =>
      Build_ImportState true (Some mode)
        (Some (if session_flag then target_session else target_root))
        0 0 0 0 0 None (Some t) None None 0 0);;
    modify (set_import_cancel false);;
    ret true.

(** [import_stop()] *)
Definition import_stop : M unit :=
  s <- get import_state;;
  if negb (im_running s) then ret tt
  else
    modify (set_import_cancel true);;
    upd_import (with_last_error (Some "cancel requested"%string)).

(** How the [for item in selected] loop ended. *)
Inductive loop_exit : Type :=
| Exhausted                 (* every selected file was visited *)
| Cancelled                 (* one of the two cancel checks fired *)
| Crashed (msg : string).   (* an exception left the loop *)

(** The body of the [for item in selected] loop for one [item].
    [stop_request] says that a [POST /api/import/stop] is served just before
    the cancel checks of this iteration: this is the only interference by
    other requests that the loop can observe.  The result is [None] when the
    loop goes on to the next file and the way the loop ends otherwise; it
    carries the local [max_idx]. *)
Definition import_item (stop_request : bool) (target_dir : string)
    (item : CameraFile) (max_idx : Z) : M (option loop_exit * Z) :=
  when stop_request import_stop;;
  c <- get import_cancel;;
  if c then ret (Some Cancelled, max_idx)
  else
    s <- get import_state;;
    if negb (im_running s) then ret (Some Cancelled, max_idx)
    else
      upd_import (with_current (Some (name item)));;
      let idx := index item in
      let dest := Text.path_join target_dir (name item) in
      r <- check_output (get_file idx skip_existing dest);;
      match r with
      | Returned out =>
          let existed_msg :=
            Text.contains "File exists" out
            || Text.contains "already exists" out in
          n <- get spawned;;
          e <- get env;;
          (if dest_exists e n && negb existed_msg
           then upd_import (fun s => with_imported (im_imported s + 1) s)
           else upd_import (fun s => with_skipped (im_skipped s + 1) s));;
          let max_idx' := if (idx >? max_idx)%Z then idx else max_idx in
          upd_import (fun s => with_done (im_done s + 1) s);;
          ret (None, max_idx')
      | CalledProcessError output =>
          upd_import (fun s =>
            with_last_error (Some output) (with_errors (im_errors s + 1) s));;
          upd_import (fun s => with_done (im_done s + 1) s);;
          ret (None, max_idx)
      | Raised msg =>
          upd_import (fun s => with_done (im_done s + 1) s);;
          ret (Some (Crashed msg), max_idx)
      end.

(** The [for item in selected] loop; [k] numbers the iteration and
    [stop_before k] is the stop request of iteration [k]. *)
Fixpoint import_loop (stop_before : nat -> bool) (target_dir : string)
    (k : nat) (selected : list CameraFile) (max_idx : Z)
  : M (loop_exit * Z) :=
  match selected with
  | [] => ret (Exhausted, max_idx)
  | item :: rest =>
      r <- import_item (stop_before k) target_dir item max_idx;;
      match r with
      | (Some ex, m) => ret (ex, m)
      | (None, m) => import_loop stop_before target_dir (S k) rest m
      end
  end.

(** The selection made by [_import_worker]. *)
Definition select (mode : import_mode) (last_idx : Z)
    (files : list CameraFile) : list CameraFile :=
  match mode with
  | mode_new => filter (fun f => (index f >? last_idx)%Z) files
  | mode_all => files
  end.

(** The outermost [finally] of [_import_worker]. *)
Definition import_finally (cancelled : bool) : M unit :=
  t <- time_time;;
  upd_import (fun s =>
    with_finished_at (Some t) (with_current None (with_running false s)));;
  s <- get import_state;;
  when (cancelled && negb (Text.truthy
                             (match im_last_error s with
                              | Some e => e
                              | None => ""%string
                              end)))
       (upd_import (with_last_error (Some "cancelled by user"%string))).

(** How [_import_worker] ended (not a value of the Python function, which
    returns [None]; it names the path taken). *)
Inductive import_exit : Type :=
| NoFilesListed
| NothingSelected
| RanToEnd
| CancelledMidRun
| WorkerCrashed.

(** [_import_worker(mode, session)] *)
Definition _import_worker (stop_before : nat -> bool)
    (mode : import_mode) (session : bool) : M import_exit :=
  last_idx <- _load_import_conf;;
  listed <- _list_camera_files;;
  match listed with
  | inl msg =>
      upd_import (with_last_error (Some ("worker crashed: " ++ msg)%string));;
      import_finally false;;
      ret WorkerCrashed
  | inr [] =>
      t <- time_time;;
      upd_import (fun s =>
        with_finished_at (Some t)
          (with_last_error (Some "No files listed by gphoto2"%string)
             (with_total 0 (with_running false s))));;
      import_finally false;;
      ret NoFilesListed
  | inr files =>
      let selected := select mode last_idx files in
      upd_import (fun s =>
        Build_ImportState (im_running s) (im_mode s) (im_target s)
          (Z.of_nat (List.length selected)) 0 0 0 0 None
          (im_started_at s) (im_finished_at s) None 0 0);;
      match selected with
      | [] =>
          t <- time_time;;
          upd_import (fun s =>
            with_finished_at (Some t) (with_running false s));;
          import_finally false;;
          ret NothingSelected
      | _ =>
          e <- get env;;
          let root_dir := photos_dir e in
          let target_dir :=
            if session
            then Text.path_join root_dir ("session_" ++ today e)
            else root_dir in
          r <- import_loop stop_before target_dir 0 selected last_idx;;
          match r with
          | (Crashed msg, _) =>
              upd_import
                (with_last_error (Some ("worker crashed: " ++ msg)%string));;
              import_finally false;;
              ret WorkerCrashed
          | (Cancelled, _) =>
              import_finally true;;
              ret CancelledMidRun
          | (Exhausted, max_idx) =>
              when (max_idx >? last_idx)%Z
                   (_ <- _save_import_conf max_idx;; ret tt);;
              import_finally false;;
              ret RanToEnd
          end
      end
  end.

(** A whole import: the start request followed by the worker it starts.
    [None] when the request is refused because an import is running. *)
Definition import_job (stop_before : nat -> bool)
    (mode : import_mode) (session : bool) : M (option import_exit) :=
  started <- import_start mode session;;
  if started
  then r <- _import_worker stop_before mode session;; ret (Some r)
  else ret None.

(** ** The preview card-sync transfer *)

Definition sync_attempts : nat := 3.
Definition sync_delay : Q := 0.8.

Definition sync_transient_keywords : list string :=
  [ "could not claim the usb device";
    "device or resource busy";
    "device busy";
    "ptp i/o error" ]%string.

Definition sync_transient (output : string) : bool :=
  let msg := Text.lower output in
  existsb (fun kw => Text.contains kw msg) sync_transient_keywords.

(** The [for i in range(attempts)] loop that ends
    [_pull_latest_from_camera_for_preview], for the target file it has
    chosen.  The result is [true] when the file was fetched (the function
    then records it in preview.json and returns). *)
Fixpoint preview_fetch_attempts (target_idx : Z) (pattern : string)
    (range : list nat) : M bool :=
  match range with
  | [] => ret false
  | i :: rest =>
      r <- with_cam_lock
             (check_output (get_file target_idx force_overwrite pattern));;
      match r with
      | Returned _ => ret true
      | CalledProcessError output =>
          if sync_transient output && (i <? sync_attempts - 1)%nat
          then time_sleep sync_delay;;
               preview_fetch_attempts target_idx pattern rest
          else ret false
      | Raised _ => ret false
      end
  end.

Definition preview_fetch (target_idx : Z) (pattern : string) : M bool :=
  preview_fetch_attempts target_idx pattern (seq 0 sync_attempts).

(** ** The other handlers that start gphoto2 *)

(** [_capture_testshot()] returns [(ok, full_path)]. *)
Definition _capture_testshot : M (bool * option string) :=
  r <- check_output capture_image_and_download;;
  match r with
  | Returned _ =>
      n <- get spawned;;
      e <- get env;;
      let full := saved_as e n in
      ret (Text.truthy full, if Text.truthy full then Some full else None)
  | CalledProcessError output =>
      set_iv_last_error (Some output);;
      ret (false, None)
  | Raised msg =>
      set_iv_last_error (Some msg);;
      ret (false, None)
  end.

(** The device part of [testshot_jpg()]. *)
Definition testshot_jpg : M (bool * option string) :=
  with_cam_lock _capture_testshot.

(** The device part of [_gp_get_config_safe(key)]. *)
Definition _gp_get_config_safe (key : string) : M completed :=
  with_cam_lock (check_output (get_config key)).

(** The device part of [_storage_info()]. *)
Definition _storage_info : M completed :=
  with_cam_lock (check_output storage_info).

(** [live_frame()]: [None] is the 409 answer given while the live-view hold
    runs. *)
Definition live_frame : M (option completed) :=
  lv <- _liveview_proc_running;;
  if lv then ret None
  else r <- with_cam_lock (check_output capture_preview);; ret (Some r).

(** [subprocess.Popen(["gphoto2", ...])]: the subprocess starts and the
    caller goes on. *)
Definition popen (c : gp_cmd) : M unit :=
  modify (fun w => set_spawned (S (spawned w)) (emit (EvSpawn c) w)).

(** [proc.terminate()] with the bounded wait and the kill that follow it. *)
Definition terminate : M unit := modify (emit EvExit).

(** ** The MJPEG demuxer of [live_stream] *)

Module Mjpeg.

Local Open Scope nat_scope.

Definition bytes : Type := list byte.

(** [buf.find(bytes([a, b]))]; [None] stands for -1. *)
Fixpoint find (a b : byte) (buf : bytes) : option nat :=
  match buf with
  | x :: ((y :: _) as tl) =>
      if Byte.eqb x a && Byte.eqb y b then Some 0%nat
      else option_map S (find a b tl)
  | _ => None
  end.

(** [buf.find(bytes([a, b]), start)] *)
Definition find_from (a b : byte) (buf : bytes) (start : nat)
  : option nat :=
  option_map (Nat.add start) (find a b (skipn start buf)).

(** A match lies inside the buffer (used for the termination of the
    inner loop). *)
Lemma find_bound (a b : byte) (buf : bytes) (i : nat) :
  find a b buf = Some i -> i + 2 <= List.length buf.
Proof.
  revert i. induction buf as [|x tl IH]; intros i; simpl; [discriminate|].
  destruct tl as [|y tl']; [discriminate|].
  destruct (Byte.eqb x a && Byte.eqb y b).
  - intros [= <-]. simpl. lia.
  - destruct (find a b (y :: tl')) eqn:E; simpl; [|discriminate].
    intros [= <-]. specialize (IH _ eq_refl). simpl in *. lia.
Qed.

Lemma find_from_bound (a b : byte) (buf : bytes) (s i : nat) :
  find_from a b buf s = Some i -> s <= i /\ i + 2 <= List.length buf.
Proof.
  unfold find_from.
  destruct (find a b (skipn s buf)) eqn:E; simpl; [|discriminate].
  intros [= <-]. apply find_bound in E. rewrite length_skipn in E. lia.
Qed.

Definition inspect {A : Type} (a : A) : {b : A | a = b} :=
  exist _ a eq_refl.

(** The inner [while True] of [generate()]: emit every complete frame of
    the buffer and return what is kept for the next read. *)
Equations? drain (buf : bytes) : list bytes * bytes
  by wf (List.length buf) lt :=
  drain buf with inspect (find xff xd8 buf) := {
    | exist _ None _ => ([], skipn (List.length buf - 3) buf)
    | exist _ (Some start) _
        with inspect (find_from xff xd9 buf (start + 2)) := {
        | exist _ None _ => ([], skipn start buf)
        | exist _ (Some end_) He =>
            let r := drain (skipn (end_ + 2) buf) in
            (firstn (end_ + 2 - start) (skipn start buf) :: fst r, snd r)
      }
  }.
Proof.
  apply find_from_bound in He. rewrite length_skipn. lia.
Qed.

(** The outer loop of [generate()] over the chunks returned by
    [proc.stdout.read(4096)]: the list holds the reads in order, and both
    its end and an empty chunk stand for the read that returns [b""]. *)
Fixpoint generate_from (buf : bytes) (chunks : list bytes) : list bytes :=
  match chunks with
  | [] => []
  | [] :: _ => []
  | chunk :: rest =>
      let r := drain (buf ++ chunk) in
      fst r ++ generate_from (snd r) rest
  end.

(** The frames yielded by [generate()]. *)
Definition generate (chunks : list bytes) : list bytes :=
  generate_from [] chunks.

Definition crlf : bytes := [x0d; x0a].

(** One multipart part as yielded to the HTTP response. *)
Definition part (frame : bytes) : bytes :=
  list_byte_of_string "--frame" ++ crlf
    ++ list_byte_of_string "Content-Type: image/jpeg" ++ crlf ++ crlf
    ++ frame ++ crlf.

(** What a frame looks like: it starts with the SOI marker and the first
    EOI marker found from offset 2 is its last two bytes. *)
Definition well_framed (f : bytes) : Prop :=
  firstn 2 f = [xff; xd8]
  /\ find_from xff xd9 f 2 = Some (List.length f - 2)%nat.

(** An unfinished frame: it starts with SOI and holds no EOI. *)
Definition incomplete (t : bytes) : Prop :=
  firstn 2 t = [xff; xd8] /\ find xff xd9 t = None.

End Mjpeg.

(** [live_stream()]: the generator run to the end of the movie subprocess's
    output, given the chunks read from its stdout.  The result is the list
    of parts yielded. *)
Definition live_stream (chunks : list Mjpeg.bytes) : M (list Mjpeg.bytes) :=
  popen capture_movie;;
  let parts := map Mjpeg.part (Mjpeg.generate chunks) in
  terminate;;
  _ <- _set_liveview false;;
  ret parts.

(** ** Traces *)

(** The entries of [new] that were pushed on top of [old]. *)
Definition added {X : Type} (old new : list X) : list X :=
  firstn (List.length new - List.length old) new.

(** What a computation appends to the log, oldest first. *)
Definition trace {A : Type} (m : M A) (w : World) : list (Q * event) :=
  rev (added (log w) (log (exec m w))).

Definition events {A : Type} (m : M A) (w : World) : list event :=
  map snd (trace m w).

Definition is_capture_spawn (e : event) : bool :=
  match e with
  | EvSpawn capture_image_and_download => true
  | _ => false
  end.

Definition is_get_file_spawn (e : event) : bool :=
  match e with
  | EvSpawn (get_file _ _ _) => true
  | _ => false
  end.

Definition sleep_of (e : event) : option Q :=
  match e with
  | EvSleep d => Some d
  | _ => None
  end.

(** The durations slept, in order. *)
Fixpoint sleeps (tr : list event) : list Q :=
  match tr with
  | [] => []
  | e :: tr' =>
      match sleep_of e with
      | Some d => d :: sleeps tr'
      | None => sleeps tr'
      end
  end.

(** The durations slept while [cam_lock] is held, [held] telling whether it
    is held at the start of the trace. *)
Fixpoint sleeps_under_lock (held : bool) (tr : list event) : list Q :=
  match tr with
  | [] => []
  | EvAcquire :: tr' => sleeps_under_lock true tr'
  | EvRelease :: tr' => sleeps_under_lock false tr'
  | EvSleep d :: tr' =>
      if held then d :: sleeps_under_lock held tr'
      else sleeps_under_lock held tr'
  | _ :: tr' => sleeps_under_lock held tr'
  end.

(** The events at which a thread blocks without running a subprocess: a
    sleep, and the wait for the live-view hold process to end. *)
Definition blocking (e : event) : bool :=
  match e with
  | EvSleep _ | EvStopHold _ => true
  | _ => false
  end.

(** The blocking events performed while [cam_lock] is held, [held] telling
    whether it is held at the start of the trace. *)
Fixpoint blocking_under_lock (held : bool) (tr : list event) : list event :=
  match tr with
  | [] => []
  | EvAcquire :: tr' => blocking_under_lock true tr'
  | EvRelease :: tr' => blocking_under_lock false tr'
  | e :: tr' =>
      if held && blocking e then e :: blocking_under_lock held tr'
      else blocking_under_lock held tr'
  end.

(** ** Threads sharing the camera *)

Module Pool.

Local Open Scope nat_scope.

(** A thread is the list of events it has still to perform, with two
    tallies kept by the instrumentation: whether it holds [cam_lock] and
    how many subprocesses it has started that have not ended. *)
Record thread : Type := {
  holds : bool;
  running : nat;
  todo : list event
}.

Record pool : Type := {
  owner : option nat;            (* the thread holding cam_lock *)
  inflight : nat;                (* gphoto2 subprocesses alive *)
  threads : list thread
}.

Definition start (programs : list (list event)) : pool :=
  {| owner := None;
     inflight := 0;
     threads := map (fun p => Build_thread false 0 p) programs |}.

Fixpoint update {A : Type} (i : nat) (x : A) (l : list A) : list A :=
  match l, i with
  | [], _ => []
  | _ :: t, O => x :: t
  | y :: t, S j => y :: update j x t
  end.

(** Thread [i] performs its next event.  [None]: it has finished, or it
    waits for [cam_lock]. *)
Definition fire (i : nat) (p : pool) : option pool :=
  match nth_error (threads p) i with
  | Some (Build_thread h r (e :: rest)) =>
      match e with
      | EvAcquire =>
          match owner p with
          | None =>
              Some {| owner := Some i;
                      inflight := inflight p;
                      threads := update i (Build_thread true r rest)
                                   (threads p) |}
          | Some _ => None
          end
      | EvRelease =>
          Some {| owner := None;
                  inflight := inflight p;
                  threads := update i (Build_thread false r rest)
                               (threads p) |}
      | EvSpawn _ =>
          Some {| owner := owner p;
                  inflight := S (inflight p);
                  threads := update i (Build_thread h (S r) rest)
                               (threads p) |}
      | EvExit =>
          Some {| owner := owner p;
                  inflight := pred (inflight p);
                  threads := update i (Build_thread h (pred r) rest)
                               (threads p) |}
      | EvSleep _ | EvStopHold _ =>
          Some {| owner := owner p;
                  inflight := inflight p;
                  threads := update i (Build_thread h r rest)
                               (threads p) |}
      end
  | _ => None
  end.

(** Run a schedule: the list names the thread that moves at each step. *)
Fixpoint run (schedule : list nat) (p : pool) : option pool :=
  match schedule with
  | [] => Some p
  | i :: rest =>
      match fire i p with
      | Some p' => run rest p'
      | None => None
      end
  end.

Definition reachable (programs : list (list event)) (p : pool) : Prop :=
  exists schedule, run schedule (start programs) = Some p.

(** A program takes the lock before every subprocess it starts: follow it
    from the state (lock held?, subprocess running?) and give the state it
    ends in, [None] when it starts a subprocess without the lock, starts a
    second one, or handles the lock out of turn. *)
Fixpoint track (st : bool * bool) (tr : list event)
  : option (bool * bool) :=
  match tr with
  | [] => Some st
  | e :: tr' =>
      let (h, r) := st in
      match e with
      | EvAcquire => if h then None else track (true, r) tr'
      | EvRelease => if h && negb r then track (false, r) tr' else None
      | EvSpawn _ => if h && negb r then track (h, true) tr' else None
      | EvExit => if r then track (h, false) tr' else None
      | EvSleep _ | EvStopHold _ => track (h, r) tr'
      end
  end.

Definition guarded (tr : list event) : Prop :=
  track (false, false) tr = Some (false, false).

(** Subprocesses alive according to the tallies of the threads. *)
Definition total (l : list thread) : nat := list_sum (map running l).

(** The invariant of one thread: its tallies are those of a program that
    takes the lock before it starts a subprocess. *)
Definition thread_ok (own : option nat) (i : nat) (t : thread) : Prop :=
  running t <= 1
  /\ track (holds t, running t =? 1) (todo t) = Some (false, false)
  /\ (holds t = true -> own = Some i)
  /\ (running t = 1 -> holds t = true).

Definition inv (p : pool) : Prop :=
  (forall i t, nth_error (threads p) i = Some t -> thread_ok (owner p) i t)
  /\ inflight p = total (threads p).

End Pool.

(** ** Scripted cameras for the examples *)

Definition initial_interval_state : IntervalState :=
  Build_IntervalState false 0 0 0 None.

Definition initial_import_state : ImportState :=
  Build_ImportState false None None 0 0 0 0 0 None None None None 0 0.

(** The globals as the module initialises them, on a clock that reads [t]. *)
Definition boot (e : Env) (t : Q) : World :=
  Build_World e t 0 false initial_interval_state initial_import_state
    false None None false 0 [].

(** A camera whose k-th subprocess ends as the k-th entry of [outcomes]
    says (and succeeds silently past the end of the list), and whose card
    listing parses to [files]. *)
Definition scripted (outcomes : list completed) (files : list CameraFile)
  : Env :=
  {| gphoto := fun k => nth k outcomes (Returned "");
     saved_as := fun _ => "20250101-120000.jpg"%string;
     dest_exists := fun _ => true;
     parse_listing := fun _ => files;
     photos_dir := "/home/pi/canon/photos"%string;
     today := "20250101"%string;
     conf_writable := true;
     hold_exit_delay := 0.3;
     sleep_limit := 9000000000 |}.

Definition busy : completed :=
  CalledProcessError "*** Error: Could not claim the USB device ***".

Definition bad_usage : completed :=
  CalledProcessError "gphoto2: unrecognized option".

(** The camera [e], except that no file matching the capture pattern is
    ever found in the photo directory: [glob] returns the empty list. *)
Definition without_file (e : Env) : Env :=
  {| gphoto := gphoto e;
     saved_as := fun _ => ""%string;
     dest_exists := dest_exists e;
     parse_listing := parse_listing e;
     photos_dir := photos_dir e;
     today := today e;
     conf_writable := conf_writable e;
     hold_exit_delay := hold_exit_delay e;
     sleep_limit := sleep_limit e |}.

(** Number of capture subprocesses a computation starts. *)
Definition capture_invocations {A : Type} (m : M A) (w : World) : nat :=
  List.length (filter is_capture_spawn (events m w)).

(** Number of [--get-file] subprocesses a computation starts. *)
Definition get_file_invocations {A : Type} (m : M A) (w : World) : nat :=
  List.length (filter is_get_file_spawn (events m w)).


(** Whether a subprocess ended with a status other than zero, which
    [check_output] turns into a [CalledProcessError]. *)
Definition rejected (c : completed) : bool :=
  match c with
  | CalledProcessError _ => true
  | _ => false
  end.

(** Number of the [--get-file] subprocesses started in a trace that end
    with a status other than zero; [n] numbers the first subprocess of the
    trace. *)
Fixpoint failed_transfers (e : Env) (n : nat) (tr : list event) : nat :=
  match tr with
  | [] => 0
  | EvSpawn c :: tr' =>
      ((if is_get_file_spawn (EvSpawn c) && rejected (gphoto e n)
        then 1 else 0)
       + failed_transfers e (S n) tr')%nat
  | _ :: tr' => failed_transfers e n tr'
  end.

(** Number of subprocesses started in a trace. *)
Fixpoint spawns (tr : list event) : nat :=
  match tr with
  | [] => 0
  | EvSpawn _ :: tr' => S (spawns tr')
  | _ :: tr' => spawns tr'
  end.

(** What a part of the import worker does to the error counter: it adds
    the transfers that failed, and it never blocks. *)
Record tally_effect (w w' : World) (new : list event) : Prop := {
  te_env : env w' = env w;
  te_log : map snd (log w') = rev new ++ map snd (log w);
  te_spawned : spawned w' = (spawned w + spawns new)%nat;
  te_errors :
    im_errors (import_state w')
    = (im_errors (import_state w)
       + Z.of_nat (failed_transfers (env w) (spawned w) new))%Z;
  te_blocking : filter blocking new = []
}.

(** ** Premises about the camera *)

(** The next [N] subprocesses fail with a transient error and the one after
    them succeeds. *)
Definition fails_then_succeeds (w : World) (N : nat) : Prop :=
  (forall k, (k < N)%nat ->
     exists o, gphoto (env w) (spawned w + k) = CalledProcessError o
               /\ transient o = true)
  /\ exists out, gphoto (env w) (spawned w + N) = Returned out.

(** The next [n] subprocesses all fail with an output that [classify]
    takes for transient. *)
Definition keeps_failing (classify : string -> bool) (w : World) (n : nat)
  : Prop :=
  forall k, (k < n)%nat ->
    exists o, gphoto (env w) (spawned w + k) = CalledProcessError o
              /\ classify o = true.

(** ** Observations on import runs *)

(** [last_idx] as the import worker reads it. *)
Definition last_index (w : World) : Z :=
  match IMPORT_CONF w with Some i => i | None => 0%Z end.

(** The indices of the files fetched, in order. *)
Fixpoint fetched (tr : list event) : list Z :=
  match tr with
  | [] => []
  | EvSpawn (get_file idx _ _) :: tr' => idx :: fetched tr'
  | _ :: tr' => fetched tr'
  end.

(** The indices of the files among [selected] whose transfer succeeds, the
    first transfer being subprocess number [n]. *)
Fixpoint transferred (e : Env) (n : nat) (selected : list CameraFile)
  : list Z :=
  match selected with
  | [] => []
  | f :: rest =>
      match gphoto e n with
      | Returned _ => index f :: transferred e (S n) rest
      | _ => transferred e (S n) rest
      end
  end.

(** [max_idx] after the indices [l] were seen. *)
Definition high_water (mark : Z) (l : list Z) : Z := fold_left Z.max l mark.

(** What a stretch of the import loop does to the world: [new] are the
    events it logs and [d] the files it counts as done. *)
Record item_effect (w w' : World) (new : list event) (d : Z) : Prop := {
  ie_env : env w' = env w;
  ie_conf : IMPORT_CONF w' = IMPORT_CONF w;
  ie_last : LAST_CAPTURE_TS w' = LAST_CAPTURE_TS w;
  ie_log : map snd (log w') = rev new ++ map snd (log w);
  ie_done : im_done (import_state w') = (im_done (import_state w) + d)%Z;
  ie_spawned : spawned w' = (spawned w + Z.to_nat d)%nat
}.

(** A card for the examples: four files, and a persisted high-water mark
    of 5 with an import in New mode just started. *)
Definition img (i : Z) (n : string) : CameraFile := Build_CameraFile i n None.

Definition card : list CameraFile :=
  [ img 3 "IMG_0003.JPG"; img 6 "IMG_0006.JPG";
    img 7 "IMG_0007.JPG"; img 9 "IMG_0009.JPG" ]%string.

Definition import_started (outcomes : list completed) : World :=
  exec (import_start mode_new true)
    (set_IMPORT_CONF (Some 5%Z) (boot (scripted outcomes card) 100)).

Definition never : nat -> bool := fun _ => false.

(** The events of one locked [--get-file --force-overwrite]. *)
Definition fetch_once (idx : Z) (pattern : string) : list event :=
  [EvAcquire; EvSpawn (get_file idx force_overwrite pattern); EvExit;
   EvRelease].

(** ** Observations on captures *)

(** What the camera makes of a capture started once [n] subprocesses have
    run: the number of subprocesses the capture uses, and the error text it
    ends with ([None] when it succeeds). *)
Definition capture_outcome (e : Env) (n : nat) : nat * option string :=
  match gphoto e n with
  | Returned _ => (1%nat, None)
  | Raised msg => (1%nat, Some msg)
  | CalledProcessError o =>
      if transient o
      then match gphoto e (S n) with
           | Returned _ => (2%nat, None)
           | CalledProcessError o' => (2%nat, Some o')
           | Raised msg => (2%nat, Some msg)
           end
      else (1%nat, Some o)
  end.

(** The events of a capture that uses one subprocess, or two. *)
Definition capture_events (n : nat) : list event :=
  match n with
  | 1%nat => [EvSpawn capture_image_and_download; EvExit]
  | _ => [EvSpawn capture_image_and_download; EvExit; EvSleep delay;
          EvSpawn capture_image_and_download; EvExit]
  end.

Definition locked (tr : list event) : list event :=
  [EvAcquire] ++ tr ++ [EvRelease].

Definition is_acquire (e : event) : bool :=
  match e with EvAcquire => true | _ => false end.

(** Number of times a trace takes [cam_lock]. *)
Definition acquisitions (tr : list event) : nat :=
  List.length (filter is_acquire tr).

(** What a capture under the lock does to the world. *)
Record capture_effect (w w' : World) : Prop := {
  ce_env : env w' = env w;
  ce_last : LAST_CAPTURE_TS w' = LAST_CAPTURE_TS w;
  ce_import : import_state w' = import_state w;
  ce_conf : IMPORT_CONF w' = IMPORT_CONF w;
  ce_running : iv_running (interval_state w') = iv_running (interval_state w);
  ce_remaining :
    iv_remaining (interval_state w') = iv_remaining (interval_state w);
  ce_spawned :
    spawned w' = (spawned w + fst (capture_outcome (env w) (spawned w)))%nat;
  ce_log :
    map snd (log w')
    = rev (locked (capture_events
                     (fst (capture_outcome (env w) (spawned w)))))
      ++ map snd (log w);
  ce_error :
    iv_last_error (interval_state w')
    = match snd (capture_outcome (env w) (spawned w)) with
      | Some e => Some e
      | None => iv_last_error (interval_state w)
      end
}.

(** The events of a capture under the lock that succeeds at once. *)
Definition shot : list event :=
  locked [EvSpawn capture_image_and_download; EvExit].

(** The end of a pass of the intervalometer whose capture succeeded, when
    the interval can be slept. *)
Definition after_capture (interval_s : Q) : M unit :=
  s' <- get interval_state;;
  set_iv_remaining (iv_remaining s' - 1);;
  (if Qle_bool interval_s 0 then ret tt else time_sleep interval_s).

(** The interval is one that the worker can sleep for: nothing, or a
    duration that [time.sleep] accepts. *)
Definition interval_ok (e : Env) (interval_s : Q) : bool :=
  Qle_bool interval_s 0 || sleepable e interval_s.

(** ** Observations on the manual capture *)

(** Time elapsed since the last recorded capture. *)
Definition delta (w : World) : Q := clock w - LAST_CAPTURE_TS w.

(** The cooldown sleep of a capture requested in world [w], if any. *)
Definition cooldown_sleep (w : World) : list event :=
  if Qltb (delta w) MIN_CAPTURE_GAP
  then [EvSleep (MIN_CAPTURE_GAP - delta w)]
  else [].

(** The time at which the capture goes on after the cooldown. *)
Definition start_time (w : World) : Q :=
  if Qltb (delta w) MIN_CAPTURE_GAP
  then clock w + (MIN_CAPTURE_GAP - delta w)
  else clock w.

Definition set_config_off (key : string) : list event :=
  [EvSpawn (set_config key "0"); EvExit].

(** The end of a live-view hold that is running: the handler waits for
    the process. *)
Definition hold_end_events (w : World) : list event :=
  match _liveview_proc w with
  | Some Alive => [EvStopHold (hold_wait (env w))]
  | _ => []
  end.

(** Live view is then switched off, on the second key when the camera
    rejects the first. *)
Definition hold_off_events (w : World) : list event :=
  match _liveview_proc w with
  | Some Alive =>
      set_config_off "/main/actions/viewfinder"
      ++ match gphoto (env w) (spawned w) with
         | CalledProcessError _ =>
             set_config_off "/main/actions/eosviewfinder"
         | _ => []
         end
  | _ => []
  end.

(** The events of stopping a live-view hold that is running. *)
Definition hold_stop_events (w : World) : list event :=
  hold_end_events w ++ hold_off_events w.

(** The time at which the capture goes on after the hold was stopped. *)
Definition resume_time (w : World) : Q :=
  match _liveview_proc w with
  | Some Alive => start_time w + hold_wait (env w)
  | _ => start_time w
  end.

(** Subprocesses used by the prelude of a capture. *)
Definition prelude_calls (w : World) : nat :=
  match _liveview_proc w with
  | Some Alive =>
      match gphoto (env w) (spawned w) with
      | CalledProcessError _ => 2%nat
      | _ => 1%nat
      end
  | _ => 0%nat
  end.

(** Time passing between two requests. *)
Definition elapse (d : Q) (w : World) : World := set_clock (clock w + d) w.

(** What the prelude of a capture does to the world. *)
Record prelude_effect (w w' : World) : Prop := {
  pe_env : env w' = env w;
  pe_clock : clock w' = resume_time w;
  pe_last : LAST_CAPTURE_TS w' = start_time w;
  pe_interval : interval_state w' = interval_state w;
  pe_import : import_state w' = import_state w;
  pe_lock : cam_lock w' = cam_lock w;
  pe_spawned : spawned w' = (spawned w + prelude_calls w)%nat;
  pe_log :
    log w'
    = map (fun e => (resume_time w, e)) (rev (hold_off_events w))
      ++ map (fun e => (start_time w, e)) (rev (hold_end_events w))
      ++ map (fun e => (clock w, e)) (rev (cooldown_sleep w))
      ++ log w
}.

(** What the capture primitive does to the world. *)
Record shot_effect (w w' : World) : Prop := {
  se_env : env w' = env w;
  se_last : LAST_CAPTURE_TS w' = LAST_CAPTURE_TS w;
  se_import : import_state w' = import_state w;
  se_running : iv_running (interval_state w') = iv_running (interval_state w);
  se_spawned :
    spawned w' = (spawned w + fst (capture_outcome (env w) (spawned w)))%nat;
  se_log :
    exists l,
      log w' = l ++ log w
      /\ map snd l
         = rev (capture_events (fst (capture_outcome (env w) (spawned w))))
      /\ Forall (fun te => clock w <= fst te) l;
  se_error :
    iv_last_error (interval_state w')
    = match snd (capture_outcome (env w) (spawned w)) with
      | Some e => Some e
      | None => iv_last_error (interval_state w)
      end;
  se_interval :
    snd (capture_outcome (env w) (spawned w)) = None ->
    interval_state w' = interval_state w
}.

(** The events of a manual capture that uses [n] capture subprocesses. *)
Definition capture_log (w : World) (n : nat) : list event :=
  [EvAcquire] ++ cooldown_sleep w ++ hold_stop_events w
  ++ capture_events n ++ [EvRelease].

(** The answer of [capture()], from what the camera makes of the capture. *)
Definition capture_answer (w : World) (n_cap : nat)
    (outcome : nat * option string) : capture_response :=
  match snd outcome with
  | Some e => capture_Error (error_or (Some e) "capture failed")
  | None =>
      let f := saved_as (env w) (n_cap + fst outcome) in
      if Text.truthy f then capture_OK f
      else capture_Error
             (error_or (iv_last_error (interval_state w)) "capture failed")
  end.

(** Whether [cam_lock] is held after a trace. *)
Fixpoint lock_after (held : bool) (tr : list event) : bool :=
  match tr with
  | [] => held
  | EvAcquire :: tr' => lock_after true tr'
  | EvRelease :: tr' => lock_after false tr'
  | _ :: tr' => lock_after held tr'
  end.

(** ** Example streams *)

Definition frame_A : Mjpeg.bytes := [xff; xd8; x41; x41; x41; xff; xd9].
Definition frame_B : Mjpeg.bytes := [xff; xd8; x42; x42; x42; xff; xd9].

(** One byte per read. *)
Definition bytewise (s : Mjpeg.bytes) : list Mjpeg.bytes :=
  map (fun x => [x]) s.

(** ** The intervalometer among other requests *)

(** The [while True] loop of [_interval_worker] with the requests of other
    threads: [stop_before k] says that a [POST /api/interval/stop] is served
    just before pass number [k] takes [interval_lock].  (A stop served later
    in the pass, during the capture or the sleep, is seen at the same place,
    the head of the next pass.)  The result is that of [interval_loop]. *)
Fixpoint interval_loop_among (stop_before : nat -> bool) (fuel k : nat)
    (interval_s : Q) : M (option bool) :=
  match fuel with
  | O => ret (Some false)
  | S fuel' =>
      when (stop_before k) interval_stop;;
      go <- interval_pass interval_s;;
      match go with
      | Some true => interval_loop_among stop_before fuel' (S k) interval_s
      | Some false => ret (Some true)
      | None => ret None
      end
  end.

(** [_interval_worker(interval_s, count)] among those requests. *)
Definition _interval_worker_among (stop_before : nat -> bool)
    (interval_s : Q) (count : Z) : M bool :=
  modify (set_interval_state
            (Build_IntervalState true interval_s count count None));;
  left <- interval_loop_among stop_before (S (Z.to_nat count)) 0 interval_s;;
  match left with
  | Some b => set_iv_running false;; ret b
  | None => ret false
  end.

(** What follows a capture in a pass: the sleep, when the interval is
    positive. *)
Definition pause (interval_s : Q) : list event :=
  if Qle_bool interval_s 0 then [] else [EvSleep interval_s].

(** Whether each of the next [j] captures succeeds, at its first attempt
    or at the retry; [n] numbers the first subprocess. *)
Fixpoint captures_succeed (e : Env) (n j : nat) : bool :=
  match j with
  | O => true
  | S j' =>
      match snd (capture_outcome e n) with
      | None => captures_succeed e (n + fst (capture_outcome e n)) j'
      | Some _ => false
      end
  end.

(** The events of [j] passes of the loop whose captures succeed: each
    capture under the lock, followed by the pause. *)
Fixpoint passes (e : Env) (interval_s : Q) (n j : nat) : list event :=
  match j with
  | O => []
  | S j' =>
      locked (capture_events (fst (capture_outcome e n)))
      ++ pause interval_s
      ++ passes e interval_s (n + fst (capture_outcome e n)) j'
  end.

(** ** The preview card sync *)

Module Preview.

(** preview.json as the code reads it, every key present (absent keys are
    filled in by [setdefault]). *)
Record Conf : Type := {
  last_index : Z;
  last_ts : Z;
  enabled : bool
}.

(** The file [PREVIEW_CONF]: what it holds ([None] when it is missing or
    cannot be parsed) and whether it can be written. *)
Record Store : Type := {
  content : option Conf;
  writable : bool
}.

Definition default : Conf :=
  {| last_index := 0; last_ts := 0; enabled := true |}.

(** [_load_preview_conf()] *)
Definition _load_preview_conf (s : Store) : Conf :=
  match content s with
  | Some cfg => cfg
  | None => default
  end.

(** [_save_preview_conf(cfg)]: a failed write is swallowed and reported as
    [False]. *)
Definition _save_preview_conf (cfg : Conf) (s : Store) : bool * Store :=
  if writable s
  then (true, {| content := Some cfg; writable := writable s |})
  else (false, s).

(** [preview_get_config()] *)
Definition preview_get_config (s : Store) : bool :=
  enabled (_load_preview_conf s).

(** [preview_set_config()]: the result is [false] for the 500 answer. *)
Definition preview_set_config (on : bool) (s : Store) : bool * Store :=
  let cfg := _load_preview_conf s in
  _save_preview_conf
    {| last_index := last_index cfg; last_ts := last_ts cfg; enabled := on |}
    s.

(** [s.endswith(suffix)] *)
Definition endswith (suffix s : string) : bool :=
  (String.length suffix <=? String.length s)%nat
  && String.eqb
       (substring (String.length s - String.length suffix)
          (String.length suffix) s)
       suffix.

Definition STILL_SUFFIXES : list string :=
  [".jpg"; ".jpeg"; ".cr2"; ".nef"; ".dng"]%string.

(** The test of the comprehension that builds [stills]. *)
Definition is_still (f : CameraFile) : bool :=
  existsb (fun suffix => endswith suffix (Text.lower (name f)))
    STILL_SUFFIXES.

(** Truthiness of [f.get("ts")]: [None] and [0] are false. *)
Definition has_ts (f : CameraFile) : bool :=
  match ts f with
  | Some t => negb (t =? 0)%Z
  | None => false
  end.

(** [f["ts"]], read only where [has_ts] holds. *)
Definition ts_of (f : CameraFile) : Z :=
  match ts f with
  | Some t => t
  | None => 0%Z
  end.

(** [max(first :: rest, key=key)]: the first element whose key is largest. *)
Fixpoint max_by (key : CameraFile -> Z) (best : CameraFile)
    (rest : list CameraFile) : CameraFile :=
  match rest with
  | [] => best
  | f :: rest' =>
      max_by key (if (key f >? key best)%Z then f else best) rest'
  end.

(** The files that count as new, by timestamp when a still carries one and
    by index otherwise. *)
Definition newer (cfg : Conf) (stills : list CameraFile)
  : list CameraFile :=
  if existsb has_ts stills
  then filter (fun f => has_ts f && (ts_of f >? last_ts cfg)%Z) stills
  else filter (fun f => (index f >? last_index cfg)%Z) stills.

(** The choice of [target]; [None] when nothing on the card is new. *)
Definition target (cfg : Conf) (stills : list CameraFile)
  : option CameraFile :=
  match newer cfg stills with
  | [] => None
  | f :: rest =>
      Some (max_by (if existsb has_ts stills then ts_of else index) f rest)
  end.

(** The configuration written after [f] was mirrored. *)
Definition mirrored (cfg : Conf) (f : CameraFile) : Conf :=
  {| last_index := index f;
     last_ts := if has_ts f then ts_of f else last_ts cfg;
     enabled := enabled cfg |}.

(** The way [_pull_latest_from_camera_for_preview] ends (the Python
    function returns [None] on every path). *)
Inductive sync_exit : Type :=
| Disabled
| NoFiles
| NoStills
| NothingNewer
| Mirrored (f : CameraFile)
| GaveUp (f : CameraFile)
| ListingRaised (msg : string).

(** [_pull_latest_from_camera_for_preview()].  The touch of the local copy
    ([os.utime]) after a transfer is not modelled; it cannot change the
    path taken, its exceptions being caught on the spot. *)
Definition _pull_latest_from_camera_for_preview (s : Store)
  : M (sync_exit * Store) :=
  let cfg := _load_preview_conf s in
  if negb (enabled cfg) then ret (Disabled, s)
  else
    e <- get env;;
    let pattern := Text.path_join (photos_dir e) "%f.%C" in
    listed <- _list_camera_files;;
    match listed with
    | inl msg => ret (ListingRaised msg, s)
    | inr [] => ret (NoFiles, s)
    | inr files =>
        match filter is_still files with
        | [] => ret (NoStills, s)
        | stills =>
            match target cfg stills with
            | None => ret (NothingNewer, s)
            | Some f =>
                ok <- preview_fetch (index f) pattern;;
                if ok
                then ret (Mirrored f,
                          snd (_save_preview_conf (mirrored cfg f) s))
                else ret (GaveUp f, s)
            end
        end
    end.

End Preview.

(** The events of a locked [--list-files]. *)
Definition listing : list event :=
  [EvAcquire; EvSpawn list_files; EvExit; EvRelease].

(** ** Observations on the import counters *)

(** The files accounted for by the three outcome counters. *)
Definition accounted (s : ImportState) : Z :=
  (im_imported s + im_skipped s + im_errors s)%Z.

(** What one file does to the counters and to the flags. *)
Record item_counts (w w' : World) (d : Z) : Prop := {
  ic_env : env w' = env w;
  ic_clock : clock w' = clock w;
  ic_total : im_total (import_state w') = im_total (import_state w);
  ic_done : im_done (import_state w') = (im_done (import_state w) + d)%Z;
  ic_accounted :
    accounted (import_state w') = (accounted (import_state w) + d)%Z
}.

(** ** Examples for the preview sync *)

(** A card with three stills and a film, timestamps on the stills. *)
Definition stamped (i : Z) (n : string) (t : Z) : CameraFile :=
  Build_CameraFile i n (Some t).

Definition dated_card : list CameraFile :=
  [ stamped 4 "IMG_0004.JPG" 1700000050;
    stamped 5 "IMG_0005.CR2" 1700000200;
    stamped 6 "MVI_0006.MOV" 1700000300;
    stamped 7 "IMG_0007.JPG" 1700000150 ]%string.

Definition seen_100 : Preview.Conf :=
  {| Preview.last_index := 4; Preview.last_ts := 1700000100;
     Preview.enabled := true |}.

(** preview.json holding [seen_100], on the card of the example. *)
Definition seen_store : Preview.Store :=
  {| Preview.content := Some seen_100; Preview.writable := true |}.

From Stdlib Require Import DecimalString DecimalN.

(** ** Python's string methods

    The methods of [str] that the parsers of gphoto2 output use, on
    strings whose characters have code points below 256. *)

Module Str.

Local Open Scope string_scope.
Local Open Scope nat_scope.

(** [c.isspace()] *)
Definition isspace (c : ascii) : bool :=
  let n := nat_of_ascii c in
  ((9 <=? n) && (n <=? 13)) || ((28 <=? n) && (n <=? 32))
  || (n =? 133) || (n =? 160).

(** [s.lstrip()] *)
Fixpoint lstrip (s : string) : string :=
  match s with
  | EmptyString => EmptyString
  | String c s' => if isspace c then lstrip s' else s
  end.

(** [s.rstrip()] *)
Fixpoint rstrip (s : string) : string :=
  match s with
  | EmptyString => EmptyString
  | String c s' =>
      match rstrip s' with
      | EmptyString => if isspace c then EmptyString else String c EmptyString
      | r => String c r
      end
  end.

(** [s.strip()] *)
Definition strip (s : string) : string := rstrip (lstrip s).

(** [s.lstrip(c)] for a single character [c] *)
Fixpoint lstrip_char (c : ascii) (s : string) : string :=
  match s with
  | EmptyString => EmptyString
  | String x s' => if Ascii.eqb x c then lstrip_char c s' else s
  end.

(** The characters at which [splitlines] breaks a line; a carriage return
    followed by a line feed is one break. *)
Definition is_linebreak (c : ascii) : bool :=
  let n := nat_of_ascii c in
  ((10 <=? n) && (n <=? 13)) || ((28 <=? n) && (n <=? 30)) || (n =? 133).

Definition CR : ascii := ascii_of_nat 13.
Definition LF : ascii := ascii_of_nat 10.

(** [s.splitlines()] *)
Fixpoint splitlines (s : string) : list string :=
  match s with
  | EmptyString => []
  | String c s' =>
      if is_linebreak c
      then EmptyString ::
           match s' with
           | String c' s'' =>
               if Ascii.eqb c CR && Ascii.eqb c' LF
               then splitlines s''
               else splitlines s'
           | EmptyString => []
           end
      else match splitlines s' with
           | [] => [String c EmptyString]
           | line :: lines => String c line :: lines
           end
  end.

(** [s.startswith(prefix)] *)
Definition startswith (prefix s : string) : bool := String.prefix prefix s.

(** [s.endswith(suffix)] *)
Definition endswith (suffix s : string) : bool := Preview.endswith suffix s.

(** [s[n:]] *)
Fixpoint drop (n : nat) (s : string) : string :=
  match n, s with
  | S n', String _ s' => drop n' s'
  | _, _ => s
  end.

(** [s.split(sep, 1)[1]] for a [sep] that is not empty: what follows the
    first occurrence of [sep]; [None] stands for the [IndexError] raised
    when [sep] does not occur. *)
Fixpoint after (sep s : string) : option string :=
  if String.prefix sep s then Some (drop (String.length sep) s)
  else match s with
       | EmptyString => None
       | String _ s' => after sep s'
       end.

(** [s.split(sep, maxsplit)] for a single character [sep] *)
Fixpoint split_char (sep : ascii) (maxsplit : nat) (s : string)
  : list string :=
  match maxsplit with
  | O => [s]
  | S m =>
      match s with
      | EmptyString => [EmptyString]
      | String c s' =>
          if Ascii.eqb c sep then EmptyString :: split_char sep m s'
          else match split_char sep maxsplit s' with
               | [] => [String c EmptyString]
               | part :: parts => String c part :: parts
               end
      end
  end.

(** [s.split()]: the maximal runs of characters that are not white
    space. *)
Fixpoint split (s : string) : list string :=
  match s with
  | EmptyString => []
  | String c s' =>
      if isspace c then split s'
      else match s' with
           | EmptyString => [String c EmptyString]
           | String c' _ =>
               if isspace c' then String c EmptyString :: split s'
               else match split s' with
                    | [] => [String c EmptyString]
                    | word :: words => String c word :: words
                    end
           end
  end.

(** [l.index(x)]; [None] stands for the [ValueError]. *)
Fixpoint index_of (x : string) (l : list string) : option nat :=
  match l with
  | [] => None
  | y :: l' => if String.eqb y x then Some 0 else option_map S (index_of x l')
  end.

(** The decimal digits 0 to 9 *)
Definition is_decimal (c : ascii) : bool :=
  let n := nat_of_ascii c in (48 <=? n) && (n <=? 57).

(** [c.isdigit()]: the decimal digits and the superscripts 1, 2 and 3 *)
Definition isdigit_char (c : ascii) : bool :=
  let n := nat_of_ascii c in
  is_decimal c || (n =? 178) || (n =? 179) || (n =? 185).

Fixpoint forallb_string (p : ascii -> bool) (s : string) : bool :=
  match s with
  | EmptyString => true
  | String c s' => p c && forallb_string p s'
  end.

(** [s.isdigit()] *)
Definition isdigit (s : string) : bool :=
  match s with
  | EmptyString => false
  | _ => forallb_string isdigit_char s
  end.

(** *** [int(s)] *)

(** The white space that [int] skips at both ends. *)
Definition int_space (c : ascii) : bool :=
  let n := nat_of_ascii c in
  ((9 <=? n) && (n <=? 13)) || (n =? 32) || (n =? 133) || (n =? 160).

Fixpoint int_lstrip (s : string) : string :=
  match s with
  | EmptyString => EmptyString
  | String c s' => if int_space c then int_lstrip s' else s
  end.

Fixpoint int_rstrip (s : string) : string :=
  match s with
  | EmptyString => EmptyString
  | String c s' =>
      match int_rstrip s' with
      | EmptyString => if int_space c then EmptyString else String c EmptyString
      | r => String c r
      end
  end.

Definition underscore : ascii := ascii_of_nat 95.

(** The digits of a literal in which single underscores separate digits;
    [None] when the text is not of this form.  [prev] tells whether the
    character before was a digit. *)
Fixpoint grouped_digits (prev : bool) (s : string) : option string :=
  match s with
  | EmptyString => if prev then Some EmptyString else None
  | String c s' =>
      if is_decimal c
      then option_map (String c) (grouped_digits true s')
      else if Ascii.eqb c underscore && prev
           then grouped_digits false s'
           else None
  end.

(** [sys.int_info.default_max_str_digits] *)
Definition MAX_STR_DIGITS : nat := 4300.

(** The value of a text of decimal digits, as [int] reads it: [None]
    stands for the [ValueError] raised on an empty text and on more digits
    than [MAX_STR_DIGITS]. *)
Definition decimal_value (digits : string) : option Z :=
  match digits with
  | EmptyString => None
  | _ =>
      if String.length digits <=? MAX_STR_DIGITS
      then option_map (fun d => Z.of_N (N.of_uint d))
             (NilEmpty.uint_of_string digits)
      else None
  end.

(** The literal after the white space is removed: an optional sign and
    the digits. *)
Definition signed_value (s : string) : option Z :=
  match s with
  | String "+" s' =>
      match grouped_digits false s' with
      | Some d => decimal_value d
      | None => None
      end
  | String "-" s' =>
      match grouped_digits false s' with
      | Some d => option_map Z.opp (decimal_value d)
      | None => None
      end
  | _ =>
      match grouped_digits false s with
      | Some d => decimal_value d
      | None => None
      end
  end.

(** [int(s)]; [None] stands for the [ValueError]. *)
Definition int (s : string) : option Z :=
  signed_value (int_rstrip (int_lstrip s)).

End Str.

(** ** The parsers of gphoto2 output *)

Module Parse.

Local Open Scope string_scope.

(** The dictionary returned by [_parse_get_config]. *)
Record ConfigInfo : Type := {
  value : option string;
  choices : list string
}.

(** The body of the loop of [_parse_get_config] for one line. *)
Definition config_line (info : ConfigInfo) (line : string) : ConfigInfo :=
  let s := Str.strip line in
  if Str.startswith "Current:" s then
    match Str.after "Current:" s with
    | Some rest =>
        {| value := Some (Str.strip rest); choices := choices info |}
    | None => info
    end
  else if Str.startswith "Choice:" s then
    match nth_error (Str.split_char " " 2 s) 2 with
    | Some label =>
        {| value := value info;
           choices := choices info ++ [Str.strip label] |}
    | None => info
    end
  else info.

(** [_parse_get_config(out)] *)
Definition _parse_get_config (out : string) : ConfigInfo :=
  fold_left config_line (Str.splitlines out)
    {| value := None; choices := [] |}.

(** The body of the loop of [_list_camera_files] for one line: the entry
    appended to [files], [None] for a line that is passed over. *)
Definition listing_line (line : string) : option CameraFile :=
  let line := Str.strip line in
  if negb (Str.startswith "#" line) then None
  else
    let parts := Str.split line in
    if (List.length parts <? 3)%nat then None
    else
      match Str.int (Str.lstrip_char "#" (nth 0 parts "")) with
      | None => None
      | Some idx =>
          let last := List.last parts "" in
          Some {| index := idx;
                  name := nth 1 parts "";
                  ts := if Str.isdigit last then Str.int last else None |}
      end.

(** The loop of [_list_camera_files] over the output of [--list-files]. *)
Fixpoint list_files_of (lines : list string) : list CameraFile :=
  match lines with
  | [] => []
  | line :: lines' =>
      match listing_line line with
      | Some f => f :: list_files_of lines'
      | None => list_files_of lines'
      end
  end.

Definition parse_list_files (out : string) : list CameraFile :=
  list_files_of (Str.splitlines out).

End Parse.

(** ** Quick settings, presets and status values *)

Module Settings.

Local Open Scope string_scope.

(** The gphoto2 command lines of the configuration handlers. *)
Inductive command : Type :=
| get_config (key : string)
| set_config (key value : string)
| set_config_index (key : string) (idx : nat).

(** What a request does, in order. *)
Inductive step : Type :=
| Acquire                   (* cam_lock acquired *)
| Release                   (* cam_lock released *)
| Wait                      (* blocked on cam_lock, which is held *)
| Run (c : command).        (* a gphoto2 subprocess, run to its end *)

(** A dictionary with string keys, in insertion order. *)
Definition dict (V : Type) : Type := list (string * V).

Fixpoint lookup {V : Type} (k : string) (d : dict V) : option V :=
  match d with
  | [] => None
  | (k', v) :: d' => if String.eqb k' k then Some v else lookup k d'
  end.

(** [d[k] = v] *)
Fixpoint assign {V : Type} (k : string) (v : V) (d : dict V) : dict V :=
  match d with
  | [] => [(k, v)]
  | (k', v') :: d' =>
      if String.eqb k' k then (k', v) :: d' else (k', v') :: assign k v d'
  end.

(** The globals these handlers use, with the camera. *)
Record Session : Type := {
  camera : nat -> completed;  (* outcome of the k-th gphoto2 subprocess *)
  started : nat;              (* subprocesses so far *)
  cam_lock : bool;            (* held? *)
  QUICK_ACTIVE_KEY : dict string;
  _last_status_cache : dict (option string);
  journal : list step         (* newest first *)
}.

Definition record (e : step) (s : Session) : Session :=
  {| camera := camera s; started := started s; cam_lock := cam_lock s;
     QUICK_ACTIVE_KEY := QUICK_ACTIVE_KEY s;
     _last_status_cache := _last_status_cache s;
     journal := e :: journal s |}.

Definition set_lock (b : bool) (s : Session) : Session :=
  {| camera := camera s; started := started s; cam_lock := b;
     QUICK_ACTIVE_KEY := QUICK_ACTIVE_KEY s;
     _last_status_cache := _last_status_cache s;
     journal := journal s |}.

Definition set_started (n : nat) (s : Session) : Session :=
  {| camera := camera s; started := n; cam_lock := cam_lock s;
     QUICK_ACTIVE_KEY := QUICK_ACTIVE_KEY s;
     _last_status_cache := _last_status_cache s;
     journal := journal s |}.

Definition set_active (d : dict string) (s : Session) : Session :=
  {| camera := camera s; started := started s; cam_lock := cam_lock s;
     QUICK_ACTIVE_KEY := d;
     _last_status_cache := _last_status_cache s;
     journal := journal s |}.

Definition set_cache (d : dict (option string)) (s : Session) : Session :=
  {| camera := camera s; started := started s; cam_lock := cam_lock s;
     QUICK_ACTIVE_KEY := QUICK_ACTIVE_KEY s;
     _last_status_cache := d;
     journal := journal s |}.

(** How a piece of a request ends: with a value, with an exception that
    the code does not catch, or never, the thread waiting for a lock that
    is not released. *)
Inductive result (A : Type) : Type :=
| Value (a : A)
| Exception (msg : string)
| Blocked.

Arguments Value {A} a.
Arguments Exception {A} msg.
Arguments Blocked {A}.

Definition R (A : Type) : Type := Session -> result A * Session.

Definition pure {A : Type} (a : A) : R A := fun s => (Value a, s).

Definition raise {A : Type} (msg : string) : R A :=
  fun s => (Exception msg, s).

Definition andthen {A B : Type} (m : R A) (k : A -> R B) : R B :=
  fun s =>
    match m s with
    | (Value a, s') => k a s'
    | (Exception msg, s') => (Exception msg, s')
    | (Blocked, s') => (Blocked, s')
    end.

Declare Scope request_scope.
Delimit Scope request_scope with request.
Notation "x <- m ;; k" := (andthen m (fun x => k))
  (at level 61, m at next level, right associativity) : request_scope.
Notation "m ;; k" := (andthen m (fun _ => k))
  (at level 61, right associativity) : request_scope.
Local Open Scope request_scope.

Definition read {A : Type} (f : Session -> A) : R A :=
  fun s => (Value (f s), s).

Definition update (f : Session -> Session) : R unit :=
  fun s => (Value tt, f s).

(** [subprocess.check_output(["gphoto2", ...])] *)
Definition check_output (c : command) : R completed :=
  fun s =>
    (Value (camera s (started s)),
     set_started (S (started s)) (record (Run c) s)).

(** [with cam_lock: body].  [threading.Lock] is not reentrant: taking it
    while it is held waits, for ever when the holder is the thread
    itself.  The lock is released when [body] returns or raises. *)
Definition with_cam_lock {A : Type} (body : R A) : R A :=
  fun s =>
    if cam_lock s then (Blocked, record Wait s)
    else
      match body (set_lock true (record Acquire s)) with
      | (Blocked, s') => (Blocked, s')
      | (r, s') => (r, set_lock false (record Release s'))
      end.

(** [_gp_get_config_safe(key)] *)
Definition _gp_get_config_safe (key : string)
  : R (option Parse.ConfigInfo) :=
  r <- with_cam_lock (check_output (get_config key));;
  match r with
  | Returned out => pure (Some (Parse._parse_get_config out))
  | CalledProcessError _ => pure None
  | Raised msg => raise msg
  end.

(** [_gp_set_value_or_index(key, val)] *)
Definition _gp_set_value_or_index (key val : string) : R bool :=
  r <- check_output (set_config key val);;
  match r with
  | Returned _ => pure true
  | Raised msg => raise msg
  | CalledProcessError _ =>
      info <- _gp_get_config_safe key;;
      match info with
      | None => pure false
      | Some i =>
          match Parse.choices i with
          | [] => pure false
          | _ =>
              match Str.index_of val (Parse.choices i) with
              | None => pure false
              | Some idx =>
                  r' <- check_output (set_config_index key idx);;
                  match r' with
                  | Returned _ => pure true
                  | CalledProcessError output => raise output
                  | Raised msg => raise msg
                  end
              end
          end
      end
  end.

(** [v not in (None, "", "N/A")] *)
Definition usable (v : option string) : bool :=
  match v with
  | None => false
  | Some s => negb (String.eqb s "" || String.eqb s "N/A")
  end.

(** The loop of [_gp_first_value]: the first usable value, with the
    update of the cache. *)
Fixpoint first_value_loop (keys : list string) (cache_key : string)
  : R (option string) :=
  match keys with
  | [] => pure None
  | k :: keys' =>
      info <- _gp_get_config_safe k;;
      let v := match info with
               | Some i => Parse.value i
               | None => None
               end in
      if usable v
      then
        (if Text.truthy cache_key
         then update (fun s =>
                set_cache (assign cache_key v (_last_status_cache s)) s)
         else pure tt);;
        pure v
      else first_value_loop keys' cache_key
  end.

(** [_last_status_cache.get(cache_key)] *)
Definition cached (cache_key : string) (s : Session) : option string :=
  match lookup cache_key (_last_status_cache s) with
  | Some v => v
  | None => None
  end.

(** [_gp_first_value(keys, cache_key)]; the empty [cache_key] stands for
    [None]. *)
Definition _gp_first_value (keys : list string) (cache_key : string)
  : R (option string) :=
  v <- first_value_loop keys cache_key;;
  match v with
  | Some _ => pure v
  | None =>
      if Text.truthy cache_key
      then read (cached cache_key)
      else pure None
  end.

Definition QUICK_KEYS : dict (list string) :=
  [ ("iso", [ "/main/imgsettings/iso";
              "/main/capturesettings/iso";
              "/main/imgsettings/sensitivity" ]);
    ("ss", [ "/main/capturesettings/shutterspeed" ]);
    ("ap", [ "/main/capturesettings/aperture";
             "/main/capturesettings/f-number" ]);
    ("dm", [ "/main/capturesettings/drivemode" ]);
    ("fm", [ "/main/capturesettings/focusmode" ]);
    ("afm", [ "/main/capturesettings/afmethod";
              "/main/capturesettings/afmode" ]) ].

Definition PRESETS : dict (dict string) :=
  [ ("Portrait",
     [ ("/main/imgsettings/iso", "400");
       ("/main/capturesettings/drivemode", "Single");
       ("/main/capturesettings/focusmode", "AI Focus");
       ("/main/capturesettings/afmethod", "Auto") ]);
    ("Low Light",
     [ ("/main/imgsettings/iso", "1600");
       ("/main/capturesettings/drivemode", "Single");
       ("/main/capturesettings/focusmode", "One Shot") ]);
    ("Action",
     [ ("/main/imgsettings/iso", "800");
       ("/main/capturesettings/drivemode", "Continuous");
       ("/main/capturesettings/focusmode", "AI Servo") ]);
    ("Studio",
     [ ("/main/imgsettings/iso", "100");
       ("/main/capturesettings/drivemode", "Single");
       ("/main/capturesettings/focusmode", "One Shot") ]) ].

(** The answers of [cfg_set]. *)
Inductive set_response : Type :=
| set_OK (key : string) (value : option string)       (* 200 *)
| set_missing                                         (* 400 *)
| set_failed (key val : string).                      (* 500 *)

(** [x or y] on strings *)
Definition or_else (x : option string) (y : string) : string :=
  match x with
  | Some s => if Text.truthy s then s else y
  | None => y
  end.

(** The gphoto2 key that [cfg_set] writes for [key_id]: a logical id is
    mapped to the key that answered last, or to the first of its keys. *)
Definition target_key (key_id : string) (active : dict string) : string :=
  match lookup key_id QUICK_KEYS with
  | Some keys => or_else (lookup key_id active) (hd "" keys)
  | None => key_id
  end.

(** [cfg_set()], for a request body whose [key] and [value] are the
    strings [key_raw] and [val_raw]. *)
Definition cfg_set (key_raw val_raw : string) : R set_response :=
  let key_id := Str.strip key_raw in
  let val := Str.strip val_raw in
  if negb (Text.truthy key_id) || String.eqb val ""
  then pure set_missing
  else
    active <- read QUICK_ACTIVE_KEY;;
    let key := target_key key_id active in
    ok <- with_cam_lock (_gp_set_value_or_index key val);;
    if negb ok then pure (set_failed key val)
    else
      info <- _gp_get_config_safe key;;
      pure (set_OK key
              (match info with
               | Some i => Parse.value i
               | None => Some val
               end)).

(** The test of [cfg_quick] on what a key answers: it offers choices or
    has a usable value. *)
Definition informative (info : option Parse.ConfigInfo) : bool :=
  match info with
  | Some i =>
      match Parse.choices i with
      | [] => usable (Parse.value i)
      | _ => true
      end
  | None => false
  end.

(** The loop of [cfg_quick] over [first_try_keys]: the first key with an
    informative answer, and the answer. *)
Fixpoint probe (keys : list string)
  : R (option (string * Parse.ConfigInfo)) :=
  match keys with
  | [] => pure None
  | key :: keys' =>
      info <- _gp_get_config_safe key;;
      match info with
      | Some i => if informative info then pure (Some (key, i))
                  else probe keys'
      | None => probe keys'
      end
  end.

(** The keys tried for a field: the one that answered last, then the
    others of the field. *)
Definition first_try_keys (field_id : string) (key_list : list string)
    (active : dict string) : list string :=
  let first :=
    match lookup field_id active with
    | Some k => [k]
    | None => []
    end in
  first ++ filter (fun k => negb (existsb (String.eqb k) first)) key_list.

Definition info (v : string) (cs : list string) : Parse.ConfigInfo :=
  {| Parse.value := Some v; Parse.choices := cs |}.

(** The entries that [cfg_quick] answers for a field no key of which
    answers. *)
Definition defaults : dict Parse.ConfigInfo :=
  [ ("iso", info "Auto" ["Auto"]);
    ("ss", info "Auto" ["Auto"]);
    ("ap", info "Auto" ["Auto"]);
    ("dm", info "Single" ["Single"]);
    ("fm", info "AI Focus" ["AI Focus"; "One Shot"; "AI Servo"]);
    ("afm", info "Auto" ["Auto"]) ].

Definition default_of (field_id : string) : Parse.ConfigInfo :=
  match lookup field_id defaults with
  | Some i => i
  | None => {| Parse.value := None; Parse.choices := [] |}
  end.

(** The body of the loop of [cfg_quick] for one field: the entry of the
    answer. *)
Definition quick_field (field_id : string) (key_list : list string)
  : R Parse.ConfigInfo :=
  active <- read QUICK_ACTIVE_KEY;;
  found <- probe (first_try_keys field_id key_list active);;
  match found with
  | Some (chosen_key, parsed) =>
      if Text.truthy chosen_key
      then
        update (fun s =>
          set_active (assign field_id chosen_key (QUICK_ACTIVE_KEY s)) s);;
        pure parsed
      else pure (default_of field_id)
  | None => pure (default_of field_id)
  end.

(** The loop of [cfg_quick] over the fields. *)
Fixpoint quick_fields (fields : dict (list string))
    (result : dict Parse.ConfigInfo) : R (dict Parse.ConfigInfo) :=
  match fields with
  | [] => pure result
  | (field_id, key_list) :: fields' =>
      entry <- quick_field field_id key_list;;
      quick_fields fields' (assign field_id entry result)
  end.

(** [cfg_quick()] *)
Definition cfg_quick : R (dict Parse.ConfigInfo) :=
  quick_fields QUICK_KEYS [].

(** [cfg_quick_force()] *)
Definition cfg_quick_force : R (dict Parse.ConfigInfo) :=
  update (set_active []);; cfg_quick.

(** The loop of [api_presets_apply] over the items of the preset; it
    returns [(applied, failed)]. *)
Fixpoint apply_items (items : dict string)
    (applied failed : list (string * string))
  : R (list (string * string) * list (string * string)) :=
  match items with
  | [] => pure (applied, failed)
  | (key, val) :: items' =>
      ok <- _gp_set_value_or_index key val;;
      if ok
      then apply_items items' (applied ++ [(key, val)]) failed
      else apply_items items' applied (failed ++ [(key, val)])
  end.

(** The answers of [api_presets_apply]. *)
Inductive preset_response : Type :=
| preset_unknown                                      (* 400 *)
| preset_OK (name : string)
    (applied failed : list (string * string)).        (* 200 *)

(** [api_presets_apply()], for a request body whose [name] is the string
    [name_raw]. *)
Definition api_presets_apply (name_raw : string) : R preset_response :=
  let name := Str.strip name_raw in
  match lookup name PRESETS with
  | None | Some [] => pure preset_unknown
  | Some preset =>
      r <- with_cam_lock (apply_items preset [] []);;
      pure (preset_OK name (fst r) (snd r))
  end.

(** The command that sets one item of a preset. *)
Definition set_item (item : string * string) : command :=
  set_config (fst item) (snd item).

(** The session after the subprocesses [cmds] have run, one after the
    other. *)
Fixpoint ran (cmds : list command) (s : Session) : Session :=
  match cmds with
  | [] => s
  | c :: cmds' => ran cmds' (set_started (S (started s)) (record (Run c) s))
  end.

(** How many of the next subprocesses return, up to [n] of them, before
    one fails. *)
Fixpoint accepted (camera : nat -> completed) (k n : nat) : nat :=
  match n with
  | O => O
  | S n' =>
      match camera k with
      | Returned _ => S (accepted camera (S k) n')
      | _ => O
      end
  end.

(** The session after [key] was read while the lock was free. *)
Definition queried (key : string) (s : Session) : Session :=
  set_lock false
    (record Release
       (set_started (S (started s))
          (record (Run (get_config key))
             (set_lock true (record Acquire s))))).

(** The session after the [keys] were read, one after the other. *)
Fixpoint polled (keys : list string) (s : Session) : Session :=
  match keys with
  | [] => s
  | k :: keys' => polled keys' (queried k s)
  end.

(** The steps of reading one key, and several. *)
Definition query (key : string) : list step :=
  [Acquire; Run (get_config key); Release].

Definition queries (keys : list string) : list step :=
  List.concat (map query keys).

(** The value that [_gp_first_value] reads off what a [--get-config]
    subprocess did. *)
Definition reading (r : completed) : option string :=
  match r with
  | Returned out => Parse.value (Parse._parse_get_config out)
  | _ => None
  end.

(** The session after a usable value [v] was read. *)
Definition remembered (cache_key : string) (v : option string)
    (s : Session) : Session :=
  if Text.truthy cache_key
  then set_cache (assign cache_key v (_last_status_cache s)) s
  else s.

(** The keys held in [QUICK_ACTIVE_KEY] are keys of their fields. *)
Definition well_kept (active : dict string) : Prop :=
  forall field_id k,
    lookup field_id active = Some k ->
    exists key_list,
      lookup field_id QUICK_KEYS = Some key_list /\ In k key_list.

(** A camera none of whose subprocesses raises anything but
    [CalledProcessError]. *)
Definition quiet (s : Session) : Prop :=
  forall i msg, camera s i <> Raised msg.

(** What was run, oldest first. *)
Definition steps {A : Type} (m : R A) (s : Session) : list step :=
  rev (added (journal s) (journal (snd (m s)))).

Definition answer {A : Type} (m : R A) (s : Session) : result A :=
  fst (m s).

Definition after {A : Type} (m : R A) (s : Session) : Session :=
  snd (m s).

Definition by_index (e : step) : bool :=
  match e with
  | Run (set_config_index _ _) => true
  | _ => false
  end.

(** A session on a camera whose k-th subprocess ends as the k-th entry of
    [outcomes] says (and succeeds silently past the end of the list). *)
Definition session (outcomes : list completed) : Session :=
  {| camera := fun k => nth k outcomes (Returned "");
     started := 0;
     cam_lock := false;
     QUICK_ACTIVE_KEY := [];
     _last_status_cache := [("battery", None); ("shooting_mode", None)];
     journal := [] |}.

End Settings.

(** What [--get-config /main/status/battery] prints. *)
Definition battery_report : string :=
  "Label: Battery Level
Readonly: 1
Type: TEXT
Current: 87%
END
".

(** ** The text that gphoto2 prints

    The inputs of the parsers, built from what they stand for. *)

Module Output.

Local Open Scope string_scope.

Definition NL : string := String Str.LF "".

(** A text from its lines, each ended by a line feed. *)
Fixpoint unlines (lines : list string) : string :=
  match lines with
  | [] => ""
  | line :: lines' => line ++ NL ++ unlines lines'
  end.

(** No character at which [splitlines] breaks. *)
Definition no_break (s : string) : bool :=
  Str.forallb_string (fun c => negb (Str.is_linebreak c)) s.

(** No white space. *)
Definition unspaced (s : string) : bool :=
  Str.forallb_string (fun c => negb (Str.isspace c)) s.

(** White space only. *)
Definition blank (s : string) : bool := Str.forallb_string Str.isspace s.

(** No character [sep]. *)
Definition nosep (sep : ascii) (s : string) : bool :=
  Str.forallb_string (fun c => negb (Ascii.eqb c sep)) s.

(** A cell of a row: some characters, none of them white space. *)
Definition token (s : string) : bool := Text.truthy s && unspaced s.

(** What separates the cells of a row: some white space that does not
    break the line. *)
Definition padding (s : string) : bool :=
  Text.truthy s
  && Str.forallb_string
       (fun c => Str.isspace c && negb (Str.is_linebreak c)) s.

(** *** [--get-config] *)

Inductive widget_line : Type :=
| Current (v : string)
| Choice (idx label : string)
| Other (text : string).

Definition widget_text (l : widget_line) : string :=
  match l with
  | Current v => "Current: " ++ v
  | Choice idx label => "Choice: " ++ idx ++ " " ++ label
  | Other text => text
  end.

(** The lines that the theorem on [_parse_get_config] speaks of: no line
    breaks inside a line, no white space in the number of a choice, and
    no other line that looks like a [Current:] or [Choice:] line. *)
Definition widget_ok (l : widget_line) : bool :=
  match l with
  | Current v => no_break v
  | Choice idx label => unspaced idx && no_break label
  | Other text =>
      no_break text
      && negb (Str.startswith "Current:" (Str.strip text))
      && negb (Str.startswith "Choice:" (Str.strip text))
  end.

(** The value of the last [Current:] line. *)
Definition current_of (ls : list widget_line) : option string :=
  fold_left
    (fun acc l =>
       match l with
       | Current v => Some (Str.strip v)
       | _ => acc
       end)
    ls None.

(** The labels of the [Choice:] lines, but for the empty ones. *)
Definition labels_of (ls : list widget_line) : list string :=
  flat_map
    (fun l =>
       match l with
       | Choice _ label =>
           if Text.truthy (Str.strip label) then [Str.strip label] else []
       | _ => []
       end)
    ls.

(** *** [--list-files] *)

(** [str(n)] *)
Definition dec (n : N) : string := NilEmpty.string_of_uint (N.to_uint n).

(** The cells of a row, [pad] between them. *)
Fixpoint spaced (pad : string) (cells : list string) : string :=
  match cells with
  | [] => ""
  | [c] => c
  | c :: cells' => c ++ pad ++ spaced pad cells'
  end.

(** A line of the listing: the heading of a folder, or the row of a file
    with its number, its name, further cells (access, size, type) and
    possibly its time in the last cell. *)
Inductive listing_row : Type :=
| Heading (text : string)
| File (n : N) (name : string) (details : list string) (stamp : option N).

Definition cells_of (n : N) (name : string) (details : list string)
    (stamp : option N) : list string :=
  (("#" ++ dec n) :: name :: details)
  ++ match stamp with
     | Some t => [dec t]
     | None => []
     end.

Definition row_text (pad : string) (r : listing_row) : string :=
  match r with
  | Heading text => text
  | File n name details stamp => spaced pad (cells_of n name details stamp)
  end.

(** The rows that the theorem on [_list_camera_files] speaks of: a
    heading does not begin with [#]; the cells of a file are tokens, its
    numbers have at most [MAX_STR_DIGITS] digits, and without a time the
    last cell is not a number. *)
Definition row_ok (r : listing_row) : bool :=
  match r with
  | Heading text =>
      no_break text && negb (Str.startswith "#" (Str.strip text))
  | File n name details stamp =>
      token name
      && forallb token details
      && (String.length (dec n) <=? Str.MAX_STR_DIGITS)%nat
      && match stamp with
         | Some t => (String.length (dec t) <=? Str.MAX_STR_DIGITS)%nat
         | None => negb (Str.isdigit (List.last details ""))
         end
  end.

(** The entry of a row in the list of files: none for a heading, and none
    for a row of two cells only. *)
Definition files_of (r : listing_row) : list CameraFile :=
  match r with
  | Heading _ => []
  | File _ _ [] None => []
  | File n name _ stamp =>
      [ {| index := Z.of_N n; name := name; ts := option_map Z.of_N stamp |} ]
  end.

(** Decimal digits only. *)
Definition digits (s : string) : bool := Str.forallb_string Str.is_decimal s.

End Output.

(** What [--get-config /main/capturesettings/focusmode] prints, with a
    choice that has no label. *)
Definition focus_widget : list Output.widget_line :=
  [ Output.Other "Label: Focus Mode";
    Output.Other "Readonly: 0";
    Output.Other "Type: RADIO";
    Output.Current "One Shot";
    Output.Choice "0" "One Shot";
    Output.Choice "1" "AI Focus";
    Output.Choice "2" "";
    Output.Other "END" ]%string.

(** A listing of two files under the heading of their folder; the film
    carries no time. *)
Definition card_listing : list Output.listing_row :=
  [ Output.Heading
      "There are 2 files in folder '/store_00010001/DCIM/100CANON'.";
    Output.File 1 "IMG_0001.JPG" ["rd"; "5542"; "KB"; "image/jpeg"]
      (Some 1634567890%N);
    Output.File 2 "MVI_0002.MOV" ["rd"; "90112"; "KB"; "video/quicktime"]
      None ]%string.

(** ** The photos on disk *)

Module Files.

Local Open Scope string_scope.

(** [s[s.rfind("."):]], [None] when [s] has no dot. *)
Fixpoint from_last_dot (s : string) : option string :=
  match s with
  | EmptyString => None
  | String c s' =>
      match from_last_dot s' with
      | Some e => Some e
      | None => if Ascii.eqb c "." then Some s else None
      end
  end.

(** [os.path.splitext(name)[1]] for a [name] without [/]: the text from
    the last dot on, the dots that begin the name not counting. *)
Definition splitext_ext (name : string) : string :=
  match from_last_dot (Str.lstrip_char "." name) with
  | Some e => e
  | None => ""
  end.

(** [x in exts] *)
Definition member (x : string) (exts : list string) : bool :=
  existsb (String.eqb x) exts.

(** [os.path.join(a, b)] for a [b] that does not begin with [/]. *)
Definition join (a b : string) : string :=
  if negb (Text.truthy a) || Str.endswith "/" a then a ++ b
  else a ++ "/" ++ b.

(** A file that [os.walk] comes by: its directory, its name, and its
    modification time, [None] when [os.path.getmtime] raises [OSError]. *)
Record Entry : Type := {
  base : string;
  fname : string;
  mtime : option Q
}.

Definition path (e : Entry) : string := join (base e) (fname e).

(** The two loops of [_latest_image_path] over the files that [os.walk]
    comes by, in its order. *)
Fixpoint latest_loop (exts : list string) (walk : list Entry)
    (newest_path : option string) (newest_mtime : Q) : option string :=
  match walk with
  | [] => newest_path
  | e :: walk' =>
      if negb (member (splitext_ext (fname e)) exts)
      then latest_loop exts walk' newest_path newest_mtime
      else
        match mtime e with
        | None => latest_loop exts walk' newest_path newest_mtime
        | Some t =>
            if Qltb newest_mtime t
            then latest_loop exts walk' (Some (path e)) t
            else latest_loop exts walk' newest_path newest_mtime
        end
  end.

(** [_latest_image_path(root, exts)], from what [os.walk(root)] comes
    by. *)
Definition _latest_image_path (exts : list string) (walk : list Entry)
  : option string :=
  latest_loop exts walk None 0.

(** A file that counts: an image whose time can be read and lies after
    the epoch. *)
Definition counts (exts : list string) (e : Entry) (t : Q) : Prop :=
  member (splitext_ext (fname e)) exts = true
  /\ mtime e = Some t
  /\ 0 < t.

(** The navigation of [photo_view]: [(prev_name, next_name)] for the page
    of [name], from the [names] of the photos, newest first. *)
Definition neighbours (names : list string) (name : string)
  : option string * option string :=
  match Str.index_of name names with
  | Some idx =>
      (if (idx + 1 <? List.length names)%nat
       then nth_error names (idx + 1) else None,
       if (0 <? idx)%nat then nth_error names (idx - 1) else None)
  | None => (None, None)
  end.

End Files.

(** ** The choice of the photos folder *)

Module Folders.

Local Open Scope string_scope.

Section WithBase.

(** [BASE_DIR] *)
Variable BASE_DIR : string.

Definition DEFAULT_photos_dir : string := Files.join BASE_DIR "photos".

(** The paths of [PHOTO_CHOICES]. *)
Definition PHOTO_CHOICES : Settings.dict string :=
  [ ("canon", DEFAULT_photos_dir);
    ("auraface", "/photopipeline/fotos") ].

(** The globals and the disk: the ["active_key"] held by [PATHS_CONF]
    ([None] when the file is missing or cannot be parsed, or holds no
    string there), whether the file can be written, and the directories
    that [os.makedirs] can make or finds. *)
Record State : Type := {
  ACTIVE_PHOTO_KEY : option string;
  ACTIVE_PHOTO_PATH : option string;
  PATHS_CONF : option string;
  conf_writable : bool;
  can_make : string -> bool
}.

(** [_load_paths_conf()] *)
Definition _load_paths_conf (st : State) : string :=
  match PATHS_CONF st with
  | Some key =>
      match Settings.lookup key PHOTO_CHOICES with
      | Some _ => key
      | None => "canon"
      end
  | None => "canon"
  end.

(** [_save_paths_conf(key)]: a failed write is swallowed. *)
Definition _save_paths_conf (key : string) (st : State) : State :=
  if conf_writable st
  then {| ACTIVE_PHOTO_KEY := ACTIVE_PHOTO_KEY st;
          ACTIVE_PHOTO_PATH := ACTIVE_PHOTO_PATH st;
          PATHS_CONF := Some key;
          conf_writable := conf_writable st;
          can_make := can_make st |}
  else st.

(** [_set_active_photos(key)]; the result is [false] when [os.makedirs]
    raises, which it does after the globals are written. *)
Definition _set_active_photos (key : string) (st : State) : bool * State :=
  let key :=
    match Settings.lookup key PHOTO_CHOICES with
    | Some _ => key
    | None => "canon"
    end in
  let path :=
    match Settings.lookup key PHOTO_CHOICES with
    | Some p => p
    | None => ""
    end in
  (can_make st path,
   {| ACTIVE_PHOTO_KEY := Some key;
      ACTIVE_PHOTO_PATH := Some path;
      PATHS_CONF := PATHS_CONF st;
      conf_writable := conf_writable st;
      can_make := can_make st |}).

(** [_photos_dir()]; [None] when [_set_active_photos] raises. *)
Definition _photos_dir (st : State) : option string * State :=
  match ACTIVE_PHOTO_PATH st with
  | Some p =>
      if Text.truthy p then (Some p, st)
      else
        let r := _set_active_photos (_load_paths_conf st) st in
        ((if fst r then ACTIVE_PHOTO_PATH (snd r) else None), snd r)
  | None =>
      let r := _set_active_photos (_load_paths_conf st) st in
      ((if fst r then ACTIVE_PHOTO_PATH (snd r) else None), snd r)
  end.

(** The answers of [api_folders_set]. *)
Inductive set_response : Type :=
| folder_OK (active path : string)      (* 200 *)
| folder_unknown                        (* 400 *)
| folder_raised.                        (* an exception, 500 *)

(** [api_folders_set()], for a request body whose [key] is the string
    [key_raw]. *)
Definition api_folders_set (key_raw : string) (st : State)
  : set_response * State :=
  let key := Str.strip key_raw in
  match Settings.lookup key PHOTO_CHOICES with
  | None => (folder_unknown, st)
  | Some _ =>
      let r := _set_active_photos key st in
      if fst r
      then
        let st2 := _save_paths_conf key (snd r) in
        match _photos_dir st2 with
        | (Some p, st3) => (folder_OK key p, st3)
        | (None, st3) => (folder_raised, st3)
        end
      else (folder_raised, snd r)
  end.

(** The process started anew on the same disk. *)
Definition restarted (st : State) : State :=
  {| ACTIVE_PHOTO_KEY := None;
     ACTIVE_PHOTO_PATH := None;
     PATHS_CONF := PATHS_CONF st;
     conf_writable := conf_writable st;
     can_make := can_make st |}.

End WithBase.

End Folders.

(** * Properties *)

Arguments transient : simpl never.
Arguments sync_transient : simpl never.
Arguments Qplus : simpl never.
Arguments Qminus : simpl never.
Arguments Qle_bool : simpl never.
Arguments Qltb : simpl never.
Arguments Text.contains : simpl never.
Arguments Text.path_join : simpl never.
Arguments added : simpl never.

(** Symbolic execution of a monadic computation on a world. *)
Ltac mrun :=
  repeat (unfold bind, ret, get, modify, when, check_output, time_sleep,
            time_time, with_cam_lock, set_iv_last_error, set_iv_running,
            set_iv_remaining, popen, terminate, upd_import;
          cbn).

(** ** Reading the log *)

Lemma added_same (X : Type) (l : list X) : added l l = [].
Proof. unfold added. rewrite Nat.sub_diag. reflexivity. Qed.

Lemma added_cons (X : Type) (x : X) (old new : list X) :
  (List.length old <= List.length new)%nat ->
  added old (x :: new) = x :: added old new.
Proof.
  intros H. unfold added. cbn [List.length].
  replace (S (List.length new) - List.length old)%nat
    with (S (List.length new - List.length old)) by lia.
  reflexivity.
Qed.

Lemma added_app (X : Type) (l old : list X) : added old (l ++ old) = l.
Proof.
  unfold added. rewrite length_app, Nat.add_sub.
  rewrite firstn_app, Nat.sub_diag, firstn_all. cbn. apply app_nil_r.
Qed.

Lemma trace_of_log (A : Type) (m : M A) (w : World) (l : list (Q * event)) :
  log (snd (m w)) = l ++ log w -> trace m w = rev l.
Proof.
  intros H. unfold trace, exec. rewrite H, added_app. reflexivity.
Qed.

Lemma events_of_log (A : Type) (m : M A) (w : World) (new : list event) :
  map snd (log (snd (m w))) = rev new ++ map snd (log w) ->
  events m w = new.
Proof.
  intros H. unfold events, trace, exec, added.
  rewrite map_rev, <- firstn_map, H.
  assert (L : List.length (log (snd (m w)))
              = (List.length (rev new) + List.length (log w))%nat).
  { rewrite <- (length_map snd (log (snd (m w)))), H, length_app, length_map.
    reflexivity. }
  rewrite L, Nat.add_sub, firstn_app, Nat.sub_diag, firstn_all. cbn.
  rewrite app_nil_r. apply rev_involutive.
Qed.

(** Read off what a symbolically executed computation has logged. *)
Ltac newlog :=
  repeat (rewrite added_cons by (cbn [List.length]; lia));
  rewrite added_same; cbn.

(** ** The capture retry loop *)

Section CaptureRetry.

Variable w : World.

(** C7.  When the capture subprocess fails transiently [N] times and then
    succeeds, [_capture_one] reports success exactly when [N] is below the
    two attempts it makes, and starts the subprocess [min (N+1) 2] times;
    a failure that is not transient is not retried: one subprocess, and
    the capture fails. *)
Theorem capture_retry_policy :
  (forall N, fails_then_succeeds w N ->
     (fst (eval _capture_one w) = true <-> (N < attempts)%nat)
     /\ capture_invocations _capture_one w = Nat.min (N + 1) attempts)
  /\ (forall o,
        gphoto (env w) (spawned w) = CalledProcessError o ->
        transient o = false ->
        fst (eval _capture_one w) = false
        /\ capture_invocations _capture_one w = 1%nat).
Proof.
  split.
  - intros N [Hfail [out Hok]].
    unfold capture_invocations, events, trace, eval, exec, _capture_one,
      attempts.
    destruct N as [|[|N]].
    + rewrite Nat.add_0_r in Hok. mrun. rewrite Hok. mrun. newlog.
      split; [split|]; auto.
    + destruct (Hfail 0%nat) as [o [H0 Ht]]; [lia|].
      rewrite Nat.add_0_r in H0. rewrite Nat.add_1_r in Hok.
      mrun. rewrite H0. mrun. rewrite Ht. mrun. rewrite Hok. mrun. newlog.
      split; [split|]; auto.
    + destruct (Hfail 0%nat) as [o [H0 Ht]]; [lia|].
      destruct (Hfail 1%nat) as [o1 [H1 Ht1]]; [lia|].
      rewrite Nat.add_0_r in H0. rewrite Nat.add_1_r in H1.
      mrun. rewrite H0. mrun. rewrite Ht. mrun. rewrite H1. mrun.
      rewrite andb_false_r. mrun. newlog.
      split; [split|]; try discriminate; try lia.
  - intros o H0 Ht.
    unfold capture_invocations, events, trace, eval, exec, _capture_one,
      attempts.
    mrun. rewrite H0. mrun. rewrite Ht. mrun. newlog. auto.
Qed.

End CaptureRetry.

(** A camera that is busy once, and one that rejects the command. *)
Lemma capture_retry_policy_witness :
  ((fst (eval _capture_one (boot (scripted [busy] []) 100)) = true
    <-> (1 < attempts)%nat)
   /\ capture_invocations _capture_one (boot (scripted [busy] []) 100)
      = Nat.min (1 + 1) attempts)
  /\ (fst (eval _capture_one (boot (scripted [bad_usage] []) 100)) = false
      /\ capture_invocations _capture_one (boot (scripted [bad_usage] []) 100)
         = 1%nat).
Proof.
  split.
  - apply (proj1 (capture_retry_policy (boot (scripted [busy] []) 100)) 1%nat).
    split.
    + intros k Hk. exists "*** Error: Could not claim the USB device ***"%string.
      destruct k as [|k]; [split; reflexivity | lia].
    + exists ""%string. reflexivity.
  - apply (proj2 (capture_retry_policy (boot (scripted [bad_usage] []) 100))
             "gphoto2: unrecognized option"%string); reflexivity.
Defined.

Ltac fin :=
  repeat split; intros; cbn; auto; try discriminate; try congruence; try lia.

(** ** The import worker *)

Section ImportItem.
Variables (sr : bool) (dir : string) (item : CameraFile) (m : Z) (w : World).

Let r := import_item sr dir item m w.
Let cmd := get_file (index item) skip_existing (Text.path_join dir (name item)).

Lemma import_item_cases :
  (fst (fst r) = Some Cancelled /\ snd (fst r) = m /\ item_effect w (snd r) [] 0
    /\ (sr = false -> import_cancel w = false -> im_running (import_state w) = true -> False))
  \/ (item_effect w (snd r) [EvSpawn cmd; EvExit] 1
      /\ import_cancel (snd r) = false /\ im_running (import_state (snd r)) = true
      /\ (sr = true -> im_running (import_state w) = true -> False)
      /\ match gphoto (env w) (spawned w) with
         | Returned _ => fst r = (None, if (index item >? m)%Z then index item else m)
         | CalledProcessError _ => fst r = (None, m)
         | Raised msg => fst r = (Some (Crashed msg), m)
         end).
Proof.
  unfold r, import_item.
  destruct sr; unfold import_stop; mrun.
  - destruct (im_running (import_state w)) eqn:Hrun; mrun.
    + left. fin.
    + destruct (import_cancel w) eqn:Hc; mrun.
      * left. fin.
      * rewrite Hrun. mrun. left. fin.
  - destruct (import_cancel w) eqn:Hc; mrun.
    + left. fin.
    + destruct (im_running (import_state w)) eqn:Hrun; mrun.
      * right. destruct (gphoto (env w) (spawned w)) eqn:Hg; mrun.
        -- match goal with |- context [if ?b then _ else _] => destruct b end;
             mrun; fin.
        -- fin.
        -- fin.
      * left. fin.
Qed.
End ImportItem.

Lemma item_effect_refl w : item_effect w w [] 0.
Proof. split; cbn; auto; try lia. Qed.

Lemma item_effect_trans w w1 w2 n1 n2 d1 d2 :
  (0 <= d1)%Z -> (0 <= d2)%Z ->
  item_effect w w1 n1 d1 -> item_effect w1 w2 n2 d2 ->
  item_effect w w2 (n1 ++ n2) (d1 + d2).
Proof.
  intros H1 H2 [Ea Ca La Ga Da Sa] [Eb Cb Lb Gb Db Sb].
  split; try congruence.
  - rewrite Gb, Ga, rev_app_distr, app_assoc. reflexivity.
  - lia.
  - rewrite Z2Nat.inj_add by lia. lia.
Qed.

Lemma sleeps_app a b : sleeps (a ++ b) = sleeps a ++ sleeps b.
Proof.
  induction a as [|e a IH]; simpl; auto.
  destruct (sleep_of e); simpl; rewrite IH; reflexivity.
Qed.

Lemma fetched_app a b : fetched (a ++ b) = fetched a ++ fetched b.
Proof.
  induction a as [|e a IH]; simpl; auto.
  destruct e as [| |c| | |]; auto. destruct c; simpl; auto. rewrite IH. reflexivity.
Qed.

Section ImportLoop.
Variables (stop : nat -> bool) (dir : string).

Lemma import_loop_effect selected :
  forall k m w,
    exists new d,
      item_effect w (snd (import_loop stop dir k selected m w)) new d
      /\ sleeps new = []
      /\ Z.of_nat (List.length (filter is_get_file_spawn new)) = d.
Proof.
  induction selected as [|item rest IH]; intros k m w.
  - exists [], 0%Z. simpl. split; [apply item_effect_refl | auto].
  - cbn [import_loop]. unfold bind.
    pose proof (import_item_cases (stop k) dir item m w) as H.
    destruct (import_item (stop k) dir item m w) as [[ex m'] w1].
    cbn [fst snd] in H.
    destruct H as [(Hex & _ & Heff & _) | (Heff & _ & _ & _ & Hres)].
    + subst ex. exists [], 0%Z. mrun. auto.
    + destruct ex as [ex|].
      * eexists _, 1%Z. mrun. split; [exact Heff|]. split; reflexivity.
      * destruct (IH (S k) m' w1) as (new & d & Heff' & Hs & Hc).
        eexists _, (1 + d)%Z. split; [|split].
        -- eapply item_effect_trans; eauto; lia.
        -- rewrite sleeps_app. simpl. exact Hs.
        -- cbn [filter is_get_file_spawn app List.length]. lia.
Qed.

(** The loop runs to the end when nobody stops it and no transfer
    raises. *)
Lemma import_loop_exhausts selected :
  forall k m w,
    (forall i, (i < List.length selected)%nat -> stop (k + i) = false) ->
    import_cancel w = false ->
    im_running (import_state w) = true ->
    (forall i msg, (i < List.length selected)%nat ->
                   gphoto (env w) (spawned w + i) <> Raised msg) ->
    exists new,
      item_effect w (snd (import_loop stop dir k selected m w)) new
        (Z.of_nat (List.length selected))
      /\ fetched new = map index selected
      /\ fst (import_loop stop dir k selected m w)
         = (Exhausted,
            high_water m (transferred (env w) (spawned w) selected)).
Proof.
  induction selected as [|item rest IH]; intros k m w Hstop Hc Hrun Hraise.
  - exists []. simpl. split; [apply item_effect_refl | auto].
  - cbn [import_loop]. unfold bind.
    pose proof (import_item_cases (stop k) dir item m w) as H.
    destruct (import_item (stop k) dir item m w) as [[ex m'] w1].
    cbn [fst snd] in H.
    assert (Hk : stop k = false).
    { specialize (Hstop 0%nat). rewrite Nat.add_0_r in Hstop.
      apply Hstop. simpl. lia. }
    destruct H as [(_ & _ & _ & Hno) | (Heff & Hc1 & Hrun1 & _ & Hres)].
    + exfalso. auto.
    + assert (Hg : forall msg, gphoto (env w) (spawned w) <> Raised msg).
      { intros msg. specialize (Hraise 0%nat msg).
        rewrite Nat.add_0_r in Hraise. apply Hraise. simpl. lia. }
      destruct Heff as [He Hconf Hlast Hlog Hdone Hsp].
      assert (Hsp' : spawned w1 = S (spawned w)) by (rewrite Hsp; simpl; lia).
      destruct (IH (S k) m' w1) as (new & Heff' & Hf & Hr); auto.
      { intros i Hi. replace (S k + i)%nat with (k + S i)%nat by lia.
        apply Hstop. simpl. lia. }
      { intros i msg Hi. rewrite He, Hsp'.
        replace (S (spawned w) + i)%nat with (spawned w + S i)%nat by lia.
        apply Hraise. simpl. lia. }
      assert (Hex : ex = None /\
                    high_water m' (transferred (env w) (S (spawned w)) rest)
                    = high_water m (transferred (env w) (spawned w) (item :: rest))).
      { cbn [transferred].
        destruct (gphoto (env w) (spawned w)) eqn:Hg0.
        - inversion Hres; subst. split; auto. unfold high_water. cbn [fold_left].
          f_equal. destruct (index item >? m)%Z eqn:E; lia.
        - inversion Hres; subst. auto.
        - exfalso. eapply Hg; eauto. }
      destruct Hex as [-> Hhw].
      rewrite He, Hsp' in Hr.
      exists ([EvSpawn (get_file (index item) skip_existing
                        (Text.path_join dir (name item))); EvExit] ++ new).
      split; [|split].
      * replace (Z.of_nat (List.length (item :: rest)))
          with (1 + Z.of_nat (List.length rest))%Z by (simpl List.length; lia).
        eapply item_effect_trans; eauto; try lia.
        split; auto.
      * cbn. rewrite Hf. reflexivity.
      * rewrite Hr, Hhw. reflexivity.
Qed.
End ImportLoop.

Section ImportLoopCancel.
Variables (stop : nat -> bool) (dir : string).

(** A stop request served before file number [n] ends the loop after
    exactly [n] files. *)
Lemma import_loop_cancels (n : nat) :
  forall selected k m w,
    (n < List.length selected)%nat ->
    (forall i, (i < n)%nat -> stop (k + i) = false) ->
    stop (k + n) = true ->
    import_cancel w = false ->
    im_running (import_state w) = true ->
    (forall i msg, (i < n)%nat ->
                   gphoto (env w) (spawned w + i) <> Raised msg) ->
    exists new,
      item_effect w (snd (import_loop stop dir k selected m w)) new
        (Z.of_nat n)
      /\ List.length (filter is_get_file_spawn new) = n
      /\ fst (fst (import_loop stop dir k selected m w)) = Cancelled.
Proof.
  induction n as [|n IH]; intros selected k m w Hlen Hstop Hn Hc Hrun Hraise;
    (destruct selected as [|item rest]; [simpl in Hlen; lia|]);
    cbn [import_loop]; unfold bind;
    pose proof (import_item_cases (stop k) dir item m w) as H;
    destruct (import_item (stop k) dir item m w) as [[ex m'] w1];
    cbn [fst snd] in H.
  - rewrite Nat.add_0_r in Hn.
    destruct H as [(Hex & _ & Heff & _) | (_ & _ & _ & Hno & _)].
    + subst ex. exists []. cbn. auto.
    + exfalso. auto.
  - assert (Hk : stop k = false).
    { specialize (Hstop 0%nat). rewrite Nat.add_0_r in Hstop.
      apply Hstop. lia. }
    destruct H as [(_ & _ & _ & Hno) | (Heff & Hc1 & Hrun1 & _ & Hres)].
    + exfalso. auto.
    + assert (Hg : forall msg, gphoto (env w) (spawned w) <> Raised msg).
      { intros msg. specialize (Hraise 0%nat msg).
        rewrite Nat.add_0_r in Hraise. apply Hraise. lia. }
      assert (Hsp' : spawned w1 = S (spawned w)).
      { rewrite (ie_spawned Heff). simpl. lia. }
      assert (Hex : ex = None).
      { destruct (gphoto (env w) (spawned w)) eqn:Hg0.
        - inversion Hres; auto.
        - inversion Hres; auto.
        - exfalso. eapply Hg; eauto. }
      subst ex.
      destruct (IH rest (S k) m' w1) as (new & Heff' & Hcount & Hr); auto.
      { simpl in Hlen. lia. }
      { intros i Hi. replace (S k + i)%nat with (k + S i)%nat by lia.
        apply Hstop. lia. }
      { replace (S k + n)%nat with (k + S n)%nat by lia. exact Hn. }
      { intros i msg Hi. rewrite (ie_env Heff), Hsp'.
        replace (S (spawned w) + i)%nat with (spawned w + S i)%nat by lia.
        apply Hraise. lia. }
      eexists. split; [|split].
      * replace (Z.of_nat (S n)) with (1 + Z.of_nat n)%Z by lia.
        eapply item_effect_trans; eauto; lia.
      * cbn [filter is_get_file_spawn app List.length]. rewrite Hcount.
        reflexivity.
      * exact Hr.
Qed.
End ImportLoopCancel.

(** *** The error counter *)

Lemma failed_transfers_app (e : Env) (a b : list event) :
  forall n,
    failed_transfers e n (a ++ b)
    = (failed_transfers e n a + failed_transfers e (n + spawns a) b)%nat.
Proof.
  induction a as [|x a IH]; intros n; cbn [app failed_transfers spawns].
  - rewrite Nat.add_0_r. reflexivity.
  - destruct x; rewrite IH; cbn [spawns]; try reflexivity.
    rewrite Nat.add_succ_r, Nat.add_assoc. reflexivity.
Qed.

Lemma spawns_app (a b : list event) :
  spawns (a ++ b) = (spawns a + spawns b)%nat.
Proof.
  induction a as [|x a IH]; cbn [app spawns]; auto.
  destruct x; rewrite IH; reflexivity.
Qed.

Lemma tally_effect_refl (w : World) : tally_effect w w [].
Proof. split; cbn; auto; lia. Qed.

Lemma tally_effect_trans (w w1 w2 : World) (n1 n2 : list event) :
  tally_effect w w1 n1 -> tally_effect w1 w2 n2 ->
  tally_effect w w2 (n1 ++ n2).
Proof.
  intros [Ea La Sa Ra Ba] [Eb Lb Sb Rb Bb]. split.
  - congruence.
  - rewrite Lb, La, rev_app_distr, app_assoc. reflexivity.
  - rewrite Sb, Sa, spawns_app. lia.
  - rewrite Rb, Ra, failed_transfers_app, Ea, Sa. lia.
  - rewrite filter_app, Ba, Bb. reflexivity.
Qed.

Lemma import_item_tally (sr : bool) (dir : string) (item : CameraFile)
    (m : Z) (w : World) :
  exists new, tally_effect w (snd (import_item sr dir item m w)) new.
Proof.
  unfold import_item.
  destruct sr; unfold import_stop; mrun.
  - destruct (im_running (import_state w)) eqn:Hrun; mrun.
    + exists []. split; cbn; auto; lia.
    + destruct (import_cancel w) eqn:Hc; mrun.
      * exists []. split; cbn; auto; lia.
      * rewrite Hrun. mrun. exists []. split; cbn; auto; lia.
  - destruct (import_cancel w) eqn:Hc; mrun.
    + exists []. split; cbn; auto; lia.
    + destruct (im_running (import_state w)) eqn:Hrun; mrun.
      * exists [EvSpawn (get_file (index item) skip_existing
                           (Text.path_join dir (name item))); EvExit].
        destruct (gphoto (env w) (spawned w)) eqn:Hg; mrun.
        -- match goal with |- context [if ?b then _ else _] => destruct b end;
             mrun; split; cbn; rewrite ?Hg; cbn; auto; lia.
        -- split; cbn; rewrite ?Hg; cbn; auto; lia.
        -- split; cbn; rewrite ?Hg; cbn; auto; lia.
      * exists []. split; cbn; auto; lia.
Qed.

Lemma import_loop_tally (stop : nat -> bool) (dir : string) selected :
  forall k m w,
    exists new,
      tally_effect w (snd (import_loop stop dir k selected m w)) new.
Proof.
  induction selected as [|item rest IH]; intros k m w.
  - exists []. apply tally_effect_refl.
  - cbn [import_loop]. unfold bind.
    destruct (import_item_tally (stop k) dir item m w) as (n1 & H1).
    destruct (import_item (stop k) dir item m w) as [[ex m'] w1].
    cbn [fst snd] in H1.
    destruct ex as [ex|].
    + exists n1. mrun. exact H1.
    + destruct (IH (S k) m' w1) as (n2 & H2).
      exists (n1 ++ n2). eapply tally_effect_trans; eauto.
Qed.

Arguments import_loop : simpl never.

Section ImportCancelled.
Variables (stop : nat -> bool) (mode : import_mode) (session : bool)
  (n : nat) (out : string).

Let job := _import_worker stop mode session.

Lemma cancelled_worker_effect (w : World) :
  import_cancel w = false ->
  im_running (import_state w) = true ->
  gphoto (env w) (spawned w) = Returned out ->
  (n < List.length (select mode (last_index w) (parse_listing (env w) out)))%nat ->
  (forall i, (i < n)%nat -> stop i = false) ->
  stop n = true ->
  (forall i msg, (i < n)%nat ->
                 gphoto (env w) (S (spawned w) + i) <> Raised msg) ->
  fst (job w) = CancelledMidRun
  /\ IMPORT_CONF (snd (job w)) = IMPORT_CONF w
  /\ im_done (import_state (snd (job w))) = Z.of_nat n
  /\ exists new,
       map snd (log (snd (job w))) = rev new ++ map snd (log w)
       /\ List.length (filter is_get_file_spawn new) = n.
Proof.
  intros Hc Hrun Hlist Hlen Hstop Hn Hraise.
  assert (Hfiles : parse_listing (env w) out <> []).
  { intros E. rewrite E in Hlen. destruct mode; simpl in Hlen; lia. }
  unfold job, _import_worker, _load_import_conf, _list_camera_files,
    import_finally.
  mrun. rewrite Hlist. mrun.
  destruct (parse_listing (env w) out) as [|f files] eqn:Hparse;
    [congruence|].
  fold (last_index w).
  destruct (select mode (last_index w) (f :: files)) as [|s sel] eqn:Hsel;
    [simpl in Hlen; lia|].
  mrun.
  match goal with
  | |- context [import_loop ?st ?d ?k ?sl ?m ?w0] =>
      destruct (@import_loop_cancels st d n sl k m w0)
        as (new & Heff & Hcount & Hex); auto;
      destruct (import_loop st d k sl m w0) as [[ex mx] w1]
  end.
  cbn [fst snd] in Heff, Hex. subst ex.
  destruct Heff as [He Hconf Hlast Hlog Hdone Hsp].
  cbn in Hconf, Hlog, Hdone.
  match goal with
  | |- context [if ?b then _ else _] => destruct b
  end; cbn; (split; [reflexivity|]); (split; [exact Hconf|]);
    (split; [rewrite Hdone; lia|]);
    exists ([EvAcquire; EvSpawn list_files; EvExit; EvRelease] ++ new);
    (split; [rewrite Hlog, rev_app_distr, <- app_assoc; reflexivity
            | cbn; exact Hcount]).
Qed.

(** C4.  When a stop request is served just before file number [n] of
    the selection (so that the worker sees the cancellation flag after it
    has processed [n] files), the worker ends as cancelled, the persisted
    high-water mark is what it was before the run, the [done] counter is
    [n], and [n] transfers were started. *)
Theorem cancelled_import_keeps_mark (w : World) :
  import_cancel w = false ->
  im_running (import_state w) = true ->
  gphoto (env w) (spawned w) = Returned out ->
  (n < List.length (select mode (last_index w) (parse_listing (env w) out)))%nat ->
  (forall i, (i < n)%nat -> stop i = false) ->
  stop n = true ->
  (forall i msg, (i < n)%nat ->
                 gphoto (env w) (S (spawned w) + i) <> Raised msg) ->
  eval job w = CancelledMidRun
  /\ IMPORT_CONF (exec job w) = IMPORT_CONF w
  /\ im_done (import_state (exec job w)) = Z.of_nat n
  /\ get_file_invocations job w = n.
Proof.
  intros Hc Hrun Hlist Hlen Hstop Hn Hraise.
  destruct (cancelled_worker_effect w) as (H1 & H2 & H3 & new & Hlog & Hcount);
    auto.
  repeat split; auto.
  unfold get_file_invocations. rewrite (events_of_log job w new Hlog).
  exact Hcount.
Qed.
End ImportCancelled.

(** One file is done before the stop request arrives. *)
Lemma cancelled_import_keeps_mark_witness :
  let job := _import_worker (fun k => Nat.eqb k 1) mode_new true in
  let w := import_started [] in
  eval job w = CancelledMidRun
  /\ IMPORT_CONF (exec job w) = IMPORT_CONF w
  /\ im_done (import_state (exec job w)) = Z.of_nat 1
  /\ get_file_invocations job w = 1%nat.
Proof.
  apply (@cancelled_import_keeps_mark (fun k => Nat.eqb k 1) mode_new true
           1%nat ""%string (import_started [])).
  - reflexivity.
  - reflexivity.
  - reflexivity.
  - vm_compute. lia.
  - intros i Hi. destruct i; [reflexivity | lia].
  - reflexivity.
  - intros i msg Hi. destruct i; [discriminate | lia].
Defined.

Lemma high_water_le (l : list Z) :
  forall m, (m <= high_water m l)%Z
            /\ Forall (fun i => (i <= high_water m l)%Z) l
            /\ ((m < high_water m l)%Z -> In (high_water m l) l).
Proof.
  unfold high_water.
  induction l as [|x l IH]; intros m; cbn [fold_left].
  - repeat split; auto; lia.
  - destruct (IH (Z.max m x)) as (H1 & H2 & H3). repeat split.
    + lia.
    + constructor; [lia | exact H2].
    + intros Hlt. destruct (Z.eq_dec (fold_left Z.max l (Z.max m x)) (Z.max m x)) as [E|E].
      * left. rewrite E in *. lia.
      * right. apply H3. lia.
Qed.

Lemma transferred_all (e : Env) (sel : list CameraFile) :
  forall n,
    (forall i, (i < List.length sel)%nat -> exists o, gphoto e (n + i) = Returned o) ->
    transferred e n sel = map index sel.
Proof.
  induction sel as [|f sel IH]; intros n H; cbn [transferred map]; auto.
  destruct (H 0%nat) as [o Ho]; [simpl; lia|]. rewrite Nat.add_0_r in Ho.
  rewrite Ho. f_equal. apply IH. intros i Hi.
  replace (S n + i)%nat with (n + S i)%nat by lia. apply H. simpl. lia.
Qed.

Section ImportRun.
Variables (stop : nat -> bool) (mode : import_mode) (session : bool).

Let job := _import_worker stop mode session.

(** Every transfer the worker starts is counted as done, and the worker
    never sleeps. *)
Lemma worker_transfers_once (w : World) :
  exists new,
    map snd (log (snd (job w))) = rev new ++ map snd (log w)
    /\ sleeps new = []
    /\ LAST_CAPTURE_TS (snd (job w)) = LAST_CAPTURE_TS w
    /\ (im_done (import_state w) = 0%Z ->
        Z.of_nat (List.length (filter is_get_file_spawn new))
        = im_done (import_state (snd (job w)))).
Proof.
  unfold job, _import_worker, _load_import_conf, _list_camera_files,
    import_finally, _save_import_conf.
  mrun.
  destruct (gphoto (env w) (spawned w)) as [out|o|msg] eqn:Hlist; mrun.
  - destruct (parse_listing (env w) out) as [|f files] eqn:Hparse; mrun.
    + exists [EvAcquire; EvSpawn list_files; EvExit; EvRelease]. fin.
    + fold (last_index w).
      destruct (select mode (last_index w) (f :: files)) as [|s sel] eqn:Hsel;
        mrun.
      * exists [EvAcquire; EvSpawn list_files; EvExit; EvRelease]. fin.
      * match goal with
        | |- context [import_loop ?st ?d ?k ?sl ?m ?w0] =>
            destruct (@import_loop_effect st d sl k m w0)
              as (new & d' & Heff & Hs & Hcount);
            destruct (import_loop st d k sl m w0) as [[ex mx] w1]
        end.
        cbn [fst snd] in Heff.
        destruct Heff as [He Hconf Hlast Hlog Hd Hsp].
        cbn in Hlog, Hd, Hlast.
        destruct ex; mrun;
          repeat match goal with
            | |- context [if ?b then _ else _] => destruct b; mrun
            end;
          exists ([EvAcquire; EvSpawn list_files; EvExit; EvRelease] ++ new);
          rewrite sleeps_app, Hs;
          (split; [rewrite Hlog, rev_app_distr, <- app_assoc; reflexivity|]);
          (split; [reflexivity|]); (split; [exact Hlast|]);
          intros _; rewrite Hd; cbn; lia.
  - exists [EvAcquire; EvSpawn list_files; EvExit; EvRelease]. fin.
  - exists [EvAcquire; EvSpawn list_files; EvExit; EvRelease]. fin.
Qed.
End ImportRun.

Section ImportTally.
Variables (stop : nat -> bool) (mode : import_mode) (session : bool).

Let job := _import_worker stop mode session.

(** The worker counts the transfers that gphoto2 rejects, and it never
    blocks. *)
Lemma worker_tally (w : World) :
  exists new,
    map snd (log (snd (job w))) = rev new ++ map snd (log w)
    /\ filter blocking new = []
    /\ (im_errors (import_state w) = 0%Z ->
        im_errors (import_state (snd (job w)))
        = Z.of_nat (failed_transfers (env w) (spawned w) new)).
Proof.
  unfold job, _import_worker, _load_import_conf, _list_camera_files,
    import_finally, _save_import_conf.
  mrun.
  destruct (gphoto (env w) (spawned w)) as [out|o|msg] eqn:Hlist; mrun.
  - destruct (parse_listing (env w) out) as [|f files] eqn:Hparse; mrun.
    + exists [EvAcquire; EvSpawn list_files; EvExit; EvRelease]. fin.
    + fold (last_index w).
      destruct (select mode (last_index w) (f :: files)) as [|s sel] eqn:Hsel;
        mrun.
      * exists [EvAcquire; EvSpawn list_files; EvExit; EvRelease]. fin.
      * match goal with
        | |- context [import_loop ?st ?d ?k ?sl ?m ?w0] =>
            destruct (@import_loop_tally st d sl k m w0) as (new & Heff);
            destruct (import_loop st d k sl m w0) as [[ex mx] w1]
        end.
        cbn [fst snd] in Heff.
        destruct Heff as [He Hlog Hsp Herr Hb].
        cbn in Hlog, Hsp, Herr, He.
        destruct ex; mrun;
          repeat match goal with
            | |- context [if ?b then _ else _] => destruct b; mrun
            end;
          exists ([EvAcquire; EvSpawn list_files; EvExit; EvRelease] ++ new);
          (split; [rewrite Hlog, rev_app_distr, <- app_assoc; reflexivity|]);
          (split; [exact Hb|]);
          intros _; rewrite Herr; cbn; reflexivity.
  - exists [EvAcquire; EvSpawn list_files; EvExit; EvRelease]. fin.
  - exists [EvAcquire; EvSpawn list_files; EvExit; EvRelease]. fin.
Qed.
End ImportTally.

Section ImportToEnd.
Variables (mode : import_mode) (session : bool) (out : string).

Let job := _import_worker never mode session.

Lemma completed_worker_effect (w : World) :
  import_cancel w = false ->
  im_running (import_state w) = true ->
  gphoto (env w) (spawned w) = Returned out ->
  let sel := select mode (last_index w) (parse_listing (env w) out) in
  (forall i msg, (i < List.length sel)%nat ->
                 gphoto (env w) (S (spawned w) + i) <> Raised msg) ->
  let hw :=
    high_water (last_index w) (transferred (env w) (S (spawned w)) sel) in
  IMPORT_CONF (snd (job w))
  = (if (hw >? last_index w)%Z && conf_writable (env w)
     then Some hw else IMPORT_CONF w)
  /\ exists new,
       map snd (log (snd (job w))) = rev new ++ map snd (log w)
       /\ fetched new = map index sel.
Proof.
  intros Hc Hrun Hlist sel Hraise hw. subst sel hw.
  unfold job, _import_worker, _load_import_conf, _list_camera_files,
    import_finally, _save_import_conf.
  mrun. rewrite Hlist. mrun.
  destruct (parse_listing (env w) out) as [|f files] eqn:Hparse; mrun.
  - fold (last_index w).
    replace (select mode (last_index w) []) with (@nil CameraFile)
      by (destruct mode; reflexivity).
    cbn. rewrite Z.gtb_ltb, Z.ltb_irrefl. cbn. split; auto.
    exists [EvAcquire; EvSpawn list_files; EvExit; EvRelease]. fin.
  - fold (last_index w) in *.
    destruct (select mode (last_index w) (f :: files)) as [|s sel] eqn:Hsel;
      mrun.
    + rewrite Z.gtb_ltb, Z.ltb_irrefl. cbn. split; auto.
      exists [EvAcquire; EvSpawn list_files; EvExit; EvRelease]. fin.
    + match goal with
      | |- context [import_loop ?st ?d ?k ?sl ?m ?w0] =>
          destruct (@import_loop_exhausts st d sl k m w0)
            as (new & Heff & Hf & Hres); auto;
          destruct (import_loop st d k sl m w0) as [[ex mx] w1]
      end.
      cbn [fst snd] in Heff, Hres. cbn in Hres. inversion Hres; subst ex mx.
      destruct Heff as [He Hconf Hlast Hlog Hd Hsp].
      cbn in Hlog, Hconf, He.
      match goal with
      | |- context [(?a >? ?b)%Z] => destruct (a >? b)%Z
      end; mrun.
      * rewrite He.
        destruct (conf_writable (env w)); mrun;
          (split; [auto|]);
          exists ([EvAcquire; EvSpawn list_files; EvExit; EvRelease] ++ new);
          (split; [rewrite Hlog, rev_app_distr, <- app_assoc; reflexivity|]);
          rewrite fetched_app; exact Hf.
      * split; [auto|].
        exists ([EvAcquire; EvSpawn list_files; EvExit; EvRelease] ++ new).
        split; [rewrite Hlog, rev_app_distr, <- app_assoc; reflexivity|].
        rewrite fetched_app; exact Hf.
Qed.
End ImportToEnd.

Lemma select_new_spec (M : Z) (files : list CameraFile) (f : CameraFile) :
  In f (select mode_new M files) <-> In f files /\ (M < index f)%Z.
Proof.
  unfold select. rewrite filter_In, Z.gtb_ltb, Z.ltb_lt. reflexivity.
Qed.

Section ImportSelection.
Variables (w : World) (mode : import_mode) (session : bool) (out : string).

(** C5 (amended).  For a run that nobody stops and in which no transfer
    raises: the files fetched are, in listing order, those the mode selects
    (in New mode exactly the listed files whose index is strictly greater
    than the persisted mark, in All mode every listed file); and when the
    largest index among the files whose transfer succeeded exceeds the mark
    and the configuration can be written, that index is the mark persisted
    at the end of the run. *)
Theorem import_selection_and_mark :
  import_cancel w = false ->
  im_running (import_state w) = true ->
  gphoto (env w) (spawned w) = Returned out ->
  let files := parse_listing (env w) out in
  let mark := last_index w in
  let job := _import_worker never mode session in
  let got := transferred (env w) (S (spawned w)) (select mode mark files) in
  (forall i msg, (i < List.length (select mode mark files))%nat ->
                 gphoto (env w) (S (spawned w) + i) <> Raised msg) ->
  fetched (events job w) = map index (select mode mark files)
  /\ (forall f, In f (select mode_new mark files)
                <-> In f files /\ (mark < index f)%Z)
  /\ select mode_all mark files = files
  /\ ((mark < high_water mark got)%Z ->
      conf_writable (env w) = true ->
      IMPORT_CONF (exec job w) = Some (high_water mark got)
      /\ In (high_water mark got) got
      /\ Forall (fun i => (i <= high_water mark got)%Z) got).
Proof.
  intros Hc Hrun Hlist files mark job got Hraise.
  destruct (@completed_worker_effect mode session out w Hc Hrun Hlist Hraise)
    as (Hconf & new & Hlog & Hf).
  split; [|split; [|split]].
  - rewrite (events_of_log job w new Hlog). exact Hf.
  - intros f. apply select_new_spec.
  - reflexivity.
  - intros Hlt Hw. fold files mark got job in Hconf.
    unfold exec. rewrite Hconf, Hw.
    apply Z.gtb_lt in Hlt. rewrite Hlt. cbn [andb].
    apply Z.gtb_lt in Hlt.
    destruct (high_water_le got mark) as (_ & H2 & H3). auto.
Qed.
End ImportSelection.

(** The example of the specification: mark 5, listing 3, 6, 7, 9, every
    transfer succeeds. *)
Lemma import_selection_and_mark_witness :
  let w := import_started [] in
  let job := _import_worker never mode_new true in
  fetched (events job w) = [6; 7; 9]%Z
  /\ (forall f, In f (select mode_new 5 card)
                <-> In f card /\ (5 < index f)%Z)
  /\ select mode_all 5 card = card
  /\ IMPORT_CONF (exec job w) = Some 9%Z.
Proof.
  destruct (@import_selection_and_mark (import_started []) mode_new true
              ""%string) as (H1 & H2 & H3 & H4).
  - reflexivity.
  - reflexivity.
  - reflexivity.
  - intros i msg Hi.
    destruct i as [|[|[|i]]]; discriminate.
  - split; [exact H1 | split; [exact H2 | split; [exact H3 |]]].
    apply H4; reflexivity.
Defined.

(** C5 as stated fails when the transfer of the file with the largest
    index fails: with mark 5 and listing 3, 6, 7, 9, the run visits 6, 7
    and 9, ends without cancellation and advances the mark, yet the mark
    persisted is 7 and not the largest index processed, 9. *)
Lemma mark_is_not_max_processed_counterexample :
  let w := import_started [Returned ""; Returned ""; Returned ""; bad_usage] in
  let job := _import_worker never mode_new true in
  eval job w = RanToEnd
  /\ fetched (events job w) = [6; 7; 9]%Z
  /\ im_done (import_state (exec job w)) = 3%Z
  /\ IMPORT_CONF w = Some 5%Z
  /\ IMPORT_CONF (exec job w) = Some 7%Z
  /\ IMPORT_CONF (exec job w)
     <> Some (high_water 5 (fetched (events job w))).
Proof.
  vm_compute. repeat split; discriminate.
Qed.


(** ** Retry policies *)

(** C2 (amended).  Against a camera that keeps failing transiently, the
    capture primitive makes exactly two attempts with one sleep of 0.6 s
    between them, and the preview card-sync transfer makes exactly three
    attempts with a sleep of 0.8 s after the first and after the second.
    The import worker never sleeps and starts exactly one transfer for each
    file it counts as done: a failed transfer is not attempted again.  It
    counts a transfer that gphoto2 rejects as an error: the error counter
    at the end is the number of such transfers. *)
Theorem retry_policies :
  (forall w, keeps_failing transient w 2 ->
     events _capture_one w
     = [EvSpawn capture_image_and_download; EvExit; EvSleep 0.6;
        EvSpawn capture_image_and_download; EvExit])
  /\ (forall w idx pattern, keeps_failing sync_transient w 3 ->
        events (preview_fetch idx pattern) w
        = fetch_once idx pattern ++ [EvSleep 0.8]
          ++ fetch_once idx pattern ++ [EvSleep 0.8]
          ++ fetch_once idx pattern)
  /\ (forall w stop mode session,
        im_done (import_state w) = 0%Z ->
        im_errors (import_state w) = 0%Z ->
        let job := _import_worker stop mode session in
        sleeps (events job w) = []
        /\ Z.of_nat (get_file_invocations job w)
           = im_done (import_state (exec job w))
        /\ Z.of_nat (failed_transfers (env w) (spawned w) (events job w))
           = im_errors (import_state (exec job w))).
Proof.
  split; [|split].
  - intros w H.
    destruct (H 0%nat) as [o [H0 Ht]]; [lia|].
    destruct (H 1%nat) as [o1 [H1 Ht1]]; [lia|].
    rewrite Nat.add_0_r in H0. rewrite Nat.add_1_r in H1.
    unfold events, trace, exec, _capture_one, attempts.
    mrun. rewrite H0. mrun. rewrite Ht. mrun. rewrite H1. mrun.
    rewrite andb_false_r. mrun. newlog. reflexivity.
  - intros w idx pattern H.
    destruct (H 0%nat) as [o [H0 Ht]]; [lia|].
    destruct (H 1%nat) as [o1 [H1 Ht1]]; [lia|].
    destruct (H 2%nat) as [o2 [H2 Ht2]]; [lia|].
    rewrite Nat.add_0_r in H0. rewrite Nat.add_1_r in H1.
    replace (spawned w + 2)%nat with (S (S (spawned w))) in H2 by lia.
    unfold events, trace, exec, preview_fetch, sync_attempts.
    mrun. rewrite H0. mrun. rewrite Ht. mrun. rewrite H1. mrun.
    rewrite Ht1. mrun. rewrite H2. mrun. rewrite andb_false_r. mrun.
    newlog. reflexivity.
  - intros w stop mode session Hdone Herrors job.
    destruct (@worker_transfers_once stop mode session w)
      as (new & Hlog & Hs & _ & Hcount).
    destruct (@worker_tally stop mode session w) as (new' & Hlog' & _ & Herr).
    unfold get_file_invocations.
    rewrite (events_of_log job w new' Hlog') at 3.
    rewrite (events_of_log job w new Hlog).
    split; [exact Hs|]. split; [auto|]. symmetry. apply Herr, Herrors.
Qed.

(** A camera that stays busy; and an import whose second file fails with a
    transient error. *)
Lemma retry_policies_witness :
  events _capture_one (boot (scripted [busy; busy] []) 100)
  = [EvSpawn capture_image_and_download; EvExit; EvSleep 0.6;
     EvSpawn capture_image_and_download; EvExit]
  /\ events (preview_fetch 9 "%f.%C")
       (boot (scripted [busy; busy; busy] []) 100)
     = fetch_once 9 "%f.%C" ++ [EvSleep 0.8]
       ++ fetch_once 9 "%f.%C" ++ [EvSleep 0.8]
       ++ fetch_once 9 "%f.%C"
  /\ (let job := _import_worker never mode_new true in
      let w := import_started [Returned ""; Returned ""; busy] in
      sleeps (events job w) = []
      /\ Z.of_nat (get_file_invocations job w)
         = im_done (import_state (exec job w))
      /\ Z.of_nat (failed_transfers (env w) (spawned w) (events job w))
         = im_errors (import_state (exec job w))).
Proof.
  destruct retry_policies as (H1 & H2 & H3).
  split; [|split].
  - apply H1. intros k Hk.
    exists "*** Error: Could not claim the USB device ***"%string.
    destruct k as [|[|k]]; [split; reflexivity | split; reflexivity | lia].
  - apply H2. intros k Hk.
    exists "*** Error: Could not claim the USB device ***"%string.
    destruct k as [|[|[|k]]];
      [split; reflexivity | split; reflexivity | split; reflexivity | lia].
  - apply H3; reflexivity.
Defined.

(** C2 as stated fails for the import worker: a transfer that fails with a
    transient error is not attempted again.  The card holds one new file
    and the camera is busy at every transfer: one transfer is started, not
    three, and the worker does not sleep. *)
Lemma import_transfer_retry_counterexample :
  let w := exec (import_start mode_new true)
             (boot (scripted [Returned ""; busy; busy; busy]
                      [img 9 "IMG_0009.JPG"]) 100) in
  let job := _import_worker never mode_new true in
  sync_transient "*** Error: Could not claim the USB device ***" = true
  /\ gphoto (env w) 1 = busy
  /\ get_file_invocations job w = 1%nat
  /\ get_file_invocations job w <> sync_attempts
  /\ sleeps (events job w) = []
  /\ im_errors (import_state (exec job w)) = 1%Z.
Proof.
  vm_compute. repeat split; discriminate.
Qed.

(** ** The intervalometer *)

Lemma locked_capture_cases (w : World) :
  capture_effect w (snd (with_cam_lock _capture_one w))
  /\ fst (fst (with_cam_lock _capture_one w))
     = match snd (capture_outcome (env w) (spawned w)) with
       | Some _ => false
       | None => true
       end.
Proof.
  unfold _capture_one, attempts. mrun.
  destruct (gphoto (env w) (spawned w)) as [out|o|msg] eqn:H0; mrun;
    [| destruct (transient o) eqn:Ht; mrun;
       [destruct (gphoto (env w) (S (spawned w))) as [out1|o1|msg1] eqn:H1;
        mrun; try rewrite andb_false_r; mrun |] |];
    (split; [split|]); unfold capture_outcome; rewrite ?H0, ?Ht, ?H1;
    cbn; auto; try lia.
Qed.

Section IntervalPass.
Variables (interval_s : Q) (w : World).

Let w1 := snd (with_cam_lock _capture_one w).

Lemma interval_pass_idle :
  iv_running (interval_state w) = false ->
  interval_pass interval_s w = (Some false, w).
Proof. intros H. unfold interval_pass. mrun. rewrite H. reflexivity. Qed.

Lemma interval_pass_exhausted :
  iv_running (interval_state w) = true ->
  (iv_remaining (interval_state w) <= 0)%Z ->
  interval_pass interval_s w = (Some false, exec (set_iv_running false) w).
Proof.
  intros H Hr. unfold interval_pass. mrun. rewrite H. cbn.
  apply Z.leb_le in Hr. rewrite Hr. reflexivity.
Qed.

Lemma interval_pass_failed (err : string) :
  iv_running (interval_state w) = true ->
  (0 < iv_remaining (interval_state w))%Z ->
  snd (capture_outcome (env w) (spawned w)) = Some err ->
  interval_pass interval_s w
  = (Some false, exec (set_iv_running false) w1).
Proof.
  intros H Hr Hc. subst w1.
  destruct (locked_capture_cases w) as [_ Hok]. rewrite Hc in Hok.
  unfold interval_pass, bind at 1, get. rewrite H. cbn [negb].
  apply Z.leb_gt in Hr. rewrite Hr.
  unfold bind at 1.
  destruct (with_cam_lock _capture_one w) as [[ok fname] w']. cbn in Hok.
  subst ok. reflexivity.
Qed.

Lemma interval_pass_captured :
  iv_running (interval_state w) = true ->
  (0 < iv_remaining (interval_state w))%Z ->
  snd (capture_outcome (env w) (spawned w)) = None ->
  interval_ok (env w) interval_s = true ->
  interval_pass interval_s w
  = (Some true, exec (after_capture interval_s) w1).
Proof.
  intros H Hr Hc Hi. subst w1.
  destruct (locked_capture_cases w) as [[He _ _ _ _ _ _ _ _] Hok].
  rewrite Hc in Hok.
  unfold interval_pass, bind at 1, get. rewrite H. cbn [negb].
  apply Z.leb_gt in Hr. rewrite Hr.
  unfold bind at 1.
  destruct (with_cam_lock _capture_one w) as [[ok fname] w']. cbn in Hok.
  cbn [snd] in He.
  subst ok. cbn [fst negb snd]. unfold after_capture, exec.
  unfold interval_ok in Hi.
  mrun. destruct (Qle_bool interval_s 0); [reflexivity|].
  cbn [orb] in Hi. cbn [env set_interval_state]. rewrite He, Hi.
  reflexivity.
Qed.

(** A sleep that raises ends the pass, and the thread, after the capture
    was counted down. *)
Lemma interval_pass_died :
  iv_running (interval_state w) = true ->
  (0 < iv_remaining (interval_state w))%Z ->
  snd (capture_outcome (env w) (spawned w)) = None ->
  interval_ok (env w) interval_s = false ->
  interval_pass interval_s w = (None, exec (after_capture 0) w1).
Proof.
  intros H Hr Hc Hi. subst w1.
  destruct (locked_capture_cases w) as [[He _ _ _ _ _ _ _ _] Hok].
  rewrite Hc in Hok.
  unfold interval_pass, bind at 1, get. rewrite H. cbn [negb].
  apply Z.leb_gt in Hr. rewrite Hr.
  unfold bind at 1.
  destruct (with_cam_lock _capture_one w) as [[ok fname] w']. cbn in Hok.
  cbn [snd] in He.
  subst ok. cbn [fst negb snd]. unfold after_capture, exec.
  unfold interval_ok in Hi. apply orb_false_iff in Hi as [Hz Hs].
  mrun. rewrite Hz. cbn [env set_interval_state]. rewrite He, Hs.
  reflexivity.
Qed.
End IntervalPass.

Arguments with_cam_lock : simpl never.

(** Symbolic execution that keeps locked sections folded. *)
Ltac mstep :=
  repeat (unfold exec, eval, bind, ret, get, modify, when, time_sleep,
            time_time, set_iv_last_error, set_iv_running, set_iv_remaining;
          cbn).

Lemma capture_outcome_first_try (e : Env) (n : nat) (out : string) :
  gphoto e n = Returned out -> capture_outcome e n = (1%nat, None).
Proof. intros H. unfold capture_outcome. rewrite H. reflexivity. Qed.

Section IntervalLoop.
Variable interval_s : Q.

(** Captures that all succeed at the first attempt, with no pause between
    them. *)
Lemma interval_all_succeed (n : nat) :
  forall fuel w,
    (n < fuel)%nat ->
    Qle_bool interval_s 0 = true ->
    iv_running (interval_state w) = true ->
    iv_remaining (interval_state w) = Z.of_nat n ->
    (forall k, (k < n)%nat ->
       exists out, gphoto (env w) (spawned w + k) = Returned out) ->
    let r := interval_loop fuel interval_s w in
    fst r = Some true
    /\ map snd (log (snd r)) = rev (List.concat (repeat shot n)) ++ map snd (log w)
    /\ iv_running (interval_state (snd r)) = false
    /\ iv_remaining (interval_state (snd r)) = 0%Z
    /\ iv_last_error (interval_state (snd r))
       = iv_last_error (interval_state w).
Proof.
  induction n as [|n IH]; intros fuel w Hfuel Hs Hrun Hrem Hok;
    (destruct fuel as [|fuel]; [lia|]); cbn [interval_loop]; unfold bind.
  - rewrite interval_pass_exhausted by (auto; lia). cbn. auto.
  - destruct (Hok 0%nat) as [out H0]; [lia|]. rewrite Nat.add_0_r in H0.
    pose proof (capture_outcome_first_try _ _ H0) as Hc.
    rewrite interval_pass_captured
      by (auto; try lia; try (rewrite Hc; reflexivity);
          unfold interval_ok; rewrite Hs; reflexivity).
    destruct (locked_capture_cases w) as [Heff _].
    destruct Heff as [He Hl Hi Hcf Hr Hm Hsp Hlog Herr].
    rewrite Hc in Hsp, Hlog, Herr. cbn [fst snd] in Hsp, Hlog, Herr.
    set (w1 := snd (with_cam_lock _capture_one w)) in *.
    unfold after_capture. mstep. rewrite Hs. cbn.
    match goal with
    | |- context [interval_loop fuel interval_s ?w2] =>
        destruct (IH fuel w2) as (R1 & R2 & R3 & R4 & R5);
        [lia | exact Hs | cbn; congruence | cbn; lia | |]
    end.
    + cbn. intros k Hk. rewrite He, Hsp.
      replace (spawned w + 1 + k)%nat with (spawned w + S k)%nat by lia.
      apply Hok. lia.
    + cbn in R2, R5. repeat split; auto.
      * rewrite R2, Hlog. cbn. rewrite <- !app_assoc. reflexivity.
      * congruence.
Qed.

(** [j] captures succeed at the first attempt and the next one fails. *)
Lemma interval_fails_after (j : nat) :
  forall fuel w m err,
    (j < fuel)%nat ->
    Qle_bool interval_s 0 = true ->
    iv_running (interval_state w) = true ->
    (Z.of_nat j < iv_remaining (interval_state w))%Z ->
    (forall k, (k < j)%nat ->
       exists out, gphoto (env w) (spawned w + k) = Returned out) ->
    capture_outcome (env w) (spawned w + j) = (m, Some err) ->
    let r := interval_loop fuel interval_s w in
    fst r = Some true
    /\ map snd (log (snd r))
       = rev (List.concat (repeat shot j) ++ locked (capture_events m))
         ++ map snd (log w)
    /\ iv_running (interval_state (snd r)) = false
    /\ iv_remaining (interval_state (snd r))
       = (iv_remaining (interval_state w) - Z.of_nat j)%Z
    /\ iv_last_error (interval_state (snd r)) = Some err.
Proof.
  induction j as [|j IH]; intros fuel w m err Hfuel Hs Hrun Hrem Hok Hfail;
    (destruct fuel as [|fuel]; [lia|]); cbn [interval_loop]; unfold bind.
  - rewrite Nat.add_0_r in Hfail.
    rewrite (@interval_pass_failed interval_s w err)
      by (auto; try lia; rewrite Hfail; auto).
    destruct (locked_capture_cases w) as [Heff _].
    destruct Heff as [He Hl Hi Hcf Hr Hm Hsp Hlog Herr].
    rewrite Hfail in Hsp, Hlog, Herr. cbn [fst snd] in Hsp, Hlog, Herr.
    mstep. rewrite Hlog, Hm, Herr. repeat split; auto. lia.
  - destruct (Hok 0%nat) as [out H0]; [lia|]. rewrite Nat.add_0_r in H0.
    pose proof (capture_outcome_first_try _ _ H0) as Hc.
    rewrite interval_pass_captured
      by (auto; try lia; try (rewrite Hc; reflexivity);
          unfold interval_ok; rewrite Hs; reflexivity).
    destruct (locked_capture_cases w) as [Heff _].
    destruct Heff as [He Hl Hi Hcf Hr Hm Hsp Hlog Herr].
    rewrite Hc in Hsp, Hlog, Herr. cbn [fst snd] in Hsp, Hlog, Herr.
    set (w1 := snd (with_cam_lock _capture_one w)) in *.
    unfold after_capture. mstep. rewrite Hs. cbn.
    match goal with
    | |- context [interval_loop fuel interval_s ?w2] =>
        destruct (IH fuel w2 m err) as (R1 & R2 & R3 & R4 & R5);
        [lia | exact Hs | cbn; congruence | cbn; lia | | |]
    end.
    + cbn. intros k Hk. rewrite He, Hsp.
      replace (spawned w + 1 + k)%nat with (spawned w + S k)%nat by lia.
      apply Hok. lia.
    + cbn. rewrite He, Hsp.
      replace (spawned w + 1 + j)%nat with (spawned w + S j)%nat by lia.
      exact Hfail.
    + cbn in R2, R4. repeat split; auto.
      * rewrite R2, Hlog. cbn. rewrite <- !app_assoc. reflexivity.
      * rewrite R4. lia.
Qed.

(** The loop is left before the fuel runs out, by a [break] when the
    interval can be slept. *)
Lemma interval_loop_terminates (fuel : nat) :
  forall w,
    (Z.to_nat (iv_remaining (interval_state w)) < fuel)%nat ->
    fst (interval_loop fuel interval_s w) <> Some false
    /\ (interval_ok (env w) interval_s = true ->
        fst (interval_loop fuel interval_s w) = Some true).
Proof.
  induction fuel as [|fuel IH]; intros w Hfuel; [lia|].
  cbn [interval_loop]. unfold bind.
  destruct (iv_running (interval_state w)) eqn:Hrun.
  - destruct (Z_le_gt_dec (iv_remaining (interval_state w)) 0) as [Hr|Hr].
    + rewrite interval_pass_exhausted by auto.
      split; [discriminate | reflexivity].
    + destruct (snd (capture_outcome (env w) (spawned w))) as [err|] eqn:Hc.
      * rewrite (@interval_pass_failed interval_s w err) by (auto; lia).
        split; [discriminate | reflexivity].
      * destruct (interval_ok (env w) interval_s) eqn:Hi.
        -- rewrite interval_pass_captured by (auto; lia).
           destruct (locked_capture_cases w) as [Heff _].
           destruct Heff as [He Hl Him Hcf Hrn Hm Hsp Hlog Herr].
           match goal with
           | |- context [interval_loop fuel interval_s ?w2] =>
               destruct (IH w2) as [I1 I2]
           end.
           { unfold after_capture. mstep.
             destruct (Qle_bool interval_s 0); cbn; rewrite Hm; lia. }
           split; [exact I1|]. intros _. apply I2.
           unfold after_capture. mstep.
           destruct (Qle_bool interval_s 0); cbn; rewrite He; exact Hi.
        -- rewrite interval_pass_died by (auto; lia).
           split; [discriminate | discriminate].
  - rewrite interval_pass_idle by auto.
    split; [discriminate | reflexivity].
Qed.
End IntervalLoop.

Arguments interval_loop : simpl never.

Section IntervalWorker.
Variables (interval_s : Q) (w : World).

(** The worker always leaves its loop, and returns when the interval can
    be slept. *)
Lemma interval_worker_terminates (count : Z) :
  interval_ok (env w) interval_s = true ->
  eval (_interval_worker interval_s count) w = true.
Proof.
  intros Hi. unfold _interval_worker. mstep.
  match goal with
  | |- context [interval_loop ?f ?s ?w0] =>
      destruct (@interval_loop_terminates s f w0) as [_ H];
      [cbn; lia|];
      destruct (interval_loop f s w0) as [left w']
  end.
  cbn in *. rewrite (H Hi). reflexivity.
Qed.

Lemma worker_all_succeed (n : nat) :
  Qle_bool interval_s 0 = true ->
  (forall k, (k < n)%nat ->
     exists out, gphoto (env w) (spawned w + k) = Returned out) ->
  let job := _interval_worker interval_s (Z.of_nat n) in
  events job w = List.concat (repeat shot n)
  /\ iv_running (interval_state (exec job w)) = false
  /\ iv_remaining (interval_state (exec job w)) = 0%Z
  /\ eval job w = true.
Proof.
  intros Hs Hok job.
  assert (H : map snd (log (snd (job w)))
              = rev (List.concat (repeat shot n)) ++ map snd (log w)
              /\ iv_running (interval_state (exec job w)) = false
              /\ iv_remaining (interval_state (exec job w)) = 0%Z
              /\ eval job w = true).
  { unfold job, _interval_worker. mstep. rewrite Nat2Z.id.
    match goal with
    | |- context [interval_loop ?f ?s ?w0] =>
        destruct (@interval_all_succeed s n f w0) as (R1 & R2 & R3 & R4 & R5);
        [lia | exact Hs | reflexivity | reflexivity | exact Hok |];
        destruct (interval_loop f s w0) as [left w']
    end.
    cbn [fst snd] in *. subst left. cbn in *. auto. }
  destruct H as (H1 & H2 & H3 & H4).
  rewrite (events_of_log job w _ H1). auto.
Qed.

Lemma worker_fails_after (j n m : nat) (err : string) :
  Qle_bool interval_s 0 = true ->
  (j < n)%nat ->
  (forall k, (k < j)%nat ->
     exists out, gphoto (env w) (spawned w + k) = Returned out) ->
  capture_outcome (env w) (spawned w + j) = (m, Some err) ->
  let job := _interval_worker interval_s (Z.of_nat n) in
  events job w = List.concat (repeat shot j) ++ locked (capture_events m)
  /\ iv_running (interval_state (exec job w)) = false
  /\ iv_remaining (interval_state (exec job w)) = Z.of_nat (n - j)
  /\ iv_last_error (interval_state (exec job w)) = Some err
  /\ eval job w = true.
Proof.
  intros Hs Hj Hok Hfail job.
  assert (H : map snd (log (snd (job w)))
              = rev (List.concat (repeat shot j) ++ locked (capture_events m))
                ++ map snd (log w)
              /\ iv_running (interval_state (exec job w)) = false
              /\ iv_remaining (interval_state (exec job w)) = Z.of_nat (n - j)
              /\ iv_last_error (interval_state (exec job w)) = Some err
              /\ eval job w = true).
  { unfold job, _interval_worker. mstep. rewrite Nat2Z.id.
    match goal with
    | |- context [interval_loop ?f ?s ?w0] =>
        destruct (@interval_fails_after s j f w0 m err)
          as (R1 & R2 & R3 & R4 & R5);
        [lia | exact Hs | reflexivity | cbn; lia | exact Hok | exact Hfail |];
        destruct (interval_loop f s w0) as [left w']
    end.
    cbn [fst snd] in *. subst left. cbn in *.
    repeat split; auto. rewrite R4. lia. }
  destruct H as (H1 & H2 & H3 & H4 & H5).
  rewrite (events_of_log job w _ H1). auto.
Qed.
End IntervalWorker.

Lemma shots_sleepless (n : nat) : sleeps (List.concat (repeat shot n)) = [].
Proof. induction n as [|n IH]; cbn; auto. Qed.

Section IntervalThree.
Variable w : World.

End IntervalThree.



(** ** The manual capture *)

Lemma Qltb_lt (x y : Q) : Qltb x y = true <-> x < y.
Proof.
  unfold Qltb. rewrite negb_true_iff, <- not_true_iff_false, Qle_bool_iff.
  split; [apply Qnot_le_lt | apply Qlt_not_le].
Qed.

Lemma Qltb_ge (x y : Q) : Qltb x y = false <-> y <= x.
Proof.
  unfold Qltb. rewrite negb_false_iff, Qle_bool_iff. reflexivity.
Qed.

Ltac use_eqns :=
  repeat match goal with
         | H : ?x = _ |- context [?x] => rewrite H
         end.

(** Case analysis on everything the environment decides. *)
Ltac env_cases :=
  repeat (mrun; use_eqns; mrun;
          match goal with
          | |- context [match gphoto ?e ?n with _ => _ end] =>
              destruct (gphoto e n) eqn:?
          | |- context [match _liveview_proc ?w with _ => _ end] =>
              destruct (_liveview_proc w) as [[|]|] eqn:?
          | |- context [if Qltb ?a ?b then _ else _] =>
              destruct (Qltb a b) eqn:?
          | |- context [transient ?o && _] =>
              destruct (transient o) eqn:?
          | |- context [if transient ?o then _ else _] =>
              destruct (transient o) eqn:?
          end);
  mrun; use_eqns; mrun.

Lemma capture_prelude_effect (w : World) :
  prelude_effect w (snd (capture_prelude w)).
Proof.
  unfold capture_prelude, cooldown, _liveview_proc_running,
    _liveview_proc_stop, _set_liveview, stop_hold.
  mrun. fold (delta w). env_cases;
    split;
    unfold resume_time, start_time, cooldown_sleep, hold_end_events,
      hold_off_events, prelude_calls;
    use_eqns; cbn; auto; try lia.
Qed.

(** The part of a list pushed on top of a known tail. *)
Ltac strip x t :=
  match x with
  | t => constr:(@nil (Q * event))
  | ?a :: ?r => let p := strip r t in constr:(a :: p)
  end.

Ltac give_prefix :=
  match goal with
  | |- exists l, ?x = l ++ ?t /\ _ => let p := strip x t in exists p
  end.

Lemma delay_nonneg : 0 <= delay.
Proof. unfold delay. lra. Qed.

Lemma capture_one_cases (w : World) :
  shot_effect w (snd (_capture_one w))
  /\ fst (_capture_one w)
     = match snd (capture_outcome (env w) (spawned w)) with
       | Some _ => (false, None)
       | None =>
           (true,
            Some (saved_as (env w)
                    (spawned w
                     + fst (capture_outcome (env w) (spawned w)))%nat))
       end.
Proof.
  pose proof delay_nonneg as Hd.
  unfold _capture_one, attempts. env_cases;
    try rewrite andb_false_r; mrun;
    (split; [split|]); unfold capture_outcome; use_eqns; cbn; auto;
    try lia; try discriminate;
    try (rewrite Nat.add_1_r; reflexivity);
    try (replace (spawned w + 2)%nat with (S (S (spawned w))) by lia;
         reflexivity);
    try (give_prefix; split; [reflexivity|]; split; [reflexivity|];
         repeat constructor; cbn; lra).
Qed.

Arguments capture_prelude : simpl never.
Arguments _capture_one : simpl never.

Lemma start_time_ge_clock (w : World) : clock w <= start_time w.
Proof.
  unfold start_time.
  destruct (Qltb (delta w) MIN_CAPTURE_GAP) eqn:H; [|lra].
  apply Qltb_lt in H. lra.
Qed.

(** The wait for the hold process is bounded by the timeout. *)
Lemma hold_wait_bounds (e : Env) :
  0 <= hold_wait e /\ hold_wait e <= HOLD_WAIT_TIMEOUT.
Proof.
  unfold hold_wait, HOLD_WAIT_TIMEOUT.
  destruct (Qle_bool (hold_exit_delay e) 0) eqn:H0; [lra|].
  destruct (Qle_bool (hold_exit_delay e) 5) eqn:H5.
  - apply Qle_bool_iff in H5.
    apply not_true_iff_false in H0. rewrite Qle_bool_iff in H0.
    apply Qnot_le_lt in H0. lra.
  - lra.
Qed.

Lemma resume_time_ge_start (w : World) : start_time w <= resume_time w.
Proof.
  unfold resume_time. pose proof (hold_wait_bounds (env w)) as [H _].
  destruct (_liveview_proc w) as [[|]|]; lra.
Qed.

Section ManualCapture.
Variable w : World.

Let n_cap := (spawned w + prelude_calls w)%nat.
Let outcome := capture_outcome (env w) n_cap.

Lemma capture_run :
  (exists l,
     log (exec capture w) = l ++ log w
     /\ map snd l = rev (capture_log w (fst outcome))
     /\ Forall (fun te => is_capture_spawn (snd te) = true ->
                          start_time w <= fst te) l)
  /\ LAST_CAPTURE_TS (exec capture w) = start_time w
  /\ iv_running (interval_state (exec capture w))
     = iv_running (interval_state w)
  /\ iv_last_error (interval_state (exec capture w))
     = match snd outcome with
       | Some e => Some e
       | None => iv_last_error (interval_state w)
       end
  /\ eval capture w = capture_answer w n_cap outcome
  /\ (snd outcome = None ->
      interval_state (exec capture w) = interval_state w).
Proof.
  set (w0 := set_cam_lock true (emit EvAcquire w)).
  pose proof (capture_prelude_effect w0) as P.
  pose proof (capture_one_cases (snd (capture_prelude w0))) as [S R].
  unfold capture, with_cam_lock, exec, eval.
  unfold bind, modify, ret, get. fold w0.
  destruct (capture_prelude w0) as [u w1]. cbn [fst snd] in *.
  destruct (_capture_one w1) as [[ok fname] w2]. cbn [fst snd] in *.
  destruct P as [Pe Pc Pl Pi Pm Pk Ps Plog].
  destruct S as [Se Sl Si Sr Ss (l & Slog & Smap & Stime) Serr Sint].
  change (start_time w0) with (start_time w) in *.
  change (resume_time w0) with (resume_time w) in *.
  change (hold_end_events w0) with (hold_end_events w) in *.
  change (hold_off_events w0) with (hold_off_events w) in *.
  change (env w0) with (env w) in *.
  change (spawned w0) with (spawned w) in *.
  change (prelude_calls w0) with (prelude_calls w) in *.
  change (interval_state w0) with (interval_state w) in *.
  change (cooldown_sleep w0) with (cooldown_sleep w) in *.
  change (clock w0) with (clock w) in *.
  change (log w0) with ((clock w, EvAcquire) :: log w) in *.
  rewrite Pe, Ps in *.
  fold n_cap in Ss, Smap, Serr, Sint, R.
  fold outcome in Ss, Smap, Serr, Sint, R.
  assert (Hlog :
    exists l0,
      log (set_cam_lock false (emit EvRelease w2)) = l0 ++ log w
      /\ map snd l0 = rev (capture_log w (fst outcome))
      /\ Forall (fun te => is_capture_spawn (snd te) = true ->
                           start_time w <= fst te) l0).
  { exists ((clock w2, EvRelease) :: l
            ++ map (fun e => (resume_time w, e)) (rev (hold_off_events w))
            ++ map (fun e => (start_time w, e)) (rev (hold_end_events w))
            ++ map (fun e => (clock w, e)) (rev (cooldown_sleep w))
            ++ [(clock w, EvAcquire)]).
    pose proof (resume_time_ge_start w) as Hres.
    split; [|split].
    - cbn. rewrite Slog, Plog. rewrite <- !app_assoc. reflexivity.
    - unfold capture_log, hold_stop_events. cbn [map snd].
      rewrite !map_app, !map_map. cbn [snd map]. rewrite !map_id, Smap.
      rewrite !rev_app_distr. cbn [rev app]. rewrite <- !app_assoc.
      reflexivity.
    - constructor; [cbn; discriminate|].
      rewrite !Forall_app. repeat split.
      + rewrite Pc in Stime. eapply Forall_impl; [|exact Stime].
        cbn. intros. eapply Qle_trans; [exact Hres | assumption].
      + apply Forall_map, Forall_forall. cbn. intros; lra.
      + apply Forall_map, Forall_forall. cbn. intros; lra.
      + apply Forall_map. unfold cooldown_sleep.
        destruct (Qltb (delta w) MIN_CAPTURE_GAP); cbn; repeat constructor;
          cbn; discriminate.
      + repeat constructor. cbn. discriminate. }
  unfold capture_answer.
  destruct (snd outcome) as [e|] eqn:Hout; inversion R; subst ok fname.
  - cbn. rewrite Serr. repeat split; auto; congruence.
  - specialize (Sint eq_refl). cbn [negb orb falsy_name].
    destruct (Text.truthy (saved_as (env w) (n_cap + fst outcome))); cbn;
      rewrite ?Serr, ?Pi; repeat split; auto; congruence.
Qed.
End ManualCapture.

(** ** Traces of the intervalometer, in general *)

Section IntervalTraces.
Variables (interval_s : Q) (P : list event -> Prop).
Hypothesis P_nil : P [].
Hypothesis P_app : forall a b, P a -> P b -> P (a ++ b).
Hypothesis P_capture : forall n, P (locked (capture_events n)).
Hypothesis P_pause : P [EvSleep interval_s].

Lemma interval_pass_trace (w : World) :
  exists new,
    map snd (log (snd (interval_pass interval_s w)))
    = rev new ++ map snd (log w)
    /\ P new
    /\ LAST_CAPTURE_TS (snd (interval_pass interval_s w))
       = LAST_CAPTURE_TS w.
Proof.
  destruct (iv_running (interval_state w)) eqn:Hrun.
  - destruct (Z_le_gt_dec (iv_remaining (interval_state w)) 0) as [Hr|Hr].
    + rewrite interval_pass_exhausted by auto. exists []. mstep. auto.
    + destruct (locked_capture_cases w) as [Heff _].
      destruct Heff as [He Hl Hi Hcf Hrn Hm Hsp Hlog Herr].
      destruct (snd (capture_outcome (env w) (spawned w))) as [err|] eqn:Hc.
      * rewrite (@interval_pass_failed interval_s w err) by (auto; lia).
        eexists. mstep. split; [exact Hlog|]. auto.
      * destruct (interval_ok (env w) interval_s) eqn:Hok.
        -- rewrite interval_pass_captured by (auto; lia).
           unfold after_capture. mstep.
           destruct (Qle_bool interval_s 0); cbn.
           ++ eexists. split; [exact Hlog|]. auto.
           ++ exists (locked (capture_events
                               (fst (capture_outcome (env w) (spawned w))))
                      ++ [EvSleep interval_s]).
              rewrite Hlog, rev_app_distr. cbn [rev app]. auto.
        -- rewrite interval_pass_died by (auto; lia).
           unfold after_capture. mstep.
           eexists. split; [exact Hlog|]. auto.
  - rewrite interval_pass_idle by auto. exists []. auto.
Qed.

Lemma interval_loop_S (fuel : nat) :
  interval_loop (S fuel) interval_s
  = bind (interval_pass interval_s)
      (fun go => match go with
                 | Some true => interval_loop fuel interval_s
                 | Some false => ret (Some true)
                 | None => ret None
                 end).
Proof. reflexivity. Qed.

Lemma interval_loop_trace (fuel : nat) :
  forall w,
    exists new,
      map snd (log (snd (interval_loop fuel interval_s w)))
      = rev new ++ map snd (log w)
      /\ P new
      /\ LAST_CAPTURE_TS (snd (interval_loop fuel interval_s w))
         = LAST_CAPTURE_TS w.
Proof.
  induction fuel as [|fuel IH]; intros w.
  - exists []. cbn. auto.
  - rewrite interval_loop_S. unfold bind.
    destruct (interval_pass_trace w) as (n1 & L1 & P1 & T1).
    destruct (interval_pass interval_s w) as [go w1]. cbn [snd] in *.
    destruct go as [[|]|]; cbn.
    + destruct (IH w1) as (n2 & L2 & P2 & T2).
      exists (n1 ++ n2). rewrite L2, L1, rev_app_distr, app_assoc.
      split; [reflexivity|]. split; [auto | congruence].
    + exists n1. cbn. auto.
    + exists n1. cbn. auto.
Qed.

Lemma interval_worker_trace (count : Z) (w : World) :
  P (events (_interval_worker interval_s count) w)
  /\ LAST_CAPTURE_TS (exec (_interval_worker interval_s count) w)
     = LAST_CAPTURE_TS w.
Proof.
  assert (H : exists new,
             map snd (log (snd (_interval_worker interval_s count w)))
             = rev new ++ map snd (log w)
             /\ P new
             /\ LAST_CAPTURE_TS (snd (_interval_worker interval_s count w))
                = LAST_CAPTURE_TS w).
  { unfold _interval_worker. mstep.
    match goal with
    | |- context [interval_loop ?f ?s ?w0] =>
        destruct (interval_loop_trace f w0) as (new & L & Pn & T);
        destruct (interval_loop f s w0) as [left w']
    end.
    cbn in *. exists new. destruct left as [b|]; cbn; auto. }
  destruct H as (new & L & Pn & T).
  rewrite (events_of_log _ w new L). auto.
Qed.
End IntervalTraces.

Lemma events_of_timed_log (A : Type) (m : M A) (w : World)
    (l : list (Q * event)) (new : list event) :
  log (snd (m w)) = l ++ log w -> map snd l = rev new -> events m w = new.
Proof.
  intros H1 H2. apply events_of_log. rewrite H1, map_app, H2. reflexivity.
Qed.

Lemma sleeps_under_lock_app (a b : list event) :
  forall h,
    sleeps_under_lock h (a ++ b)
    = sleeps_under_lock h a ++ sleeps_under_lock (lock_after h a) b.
Proof.
  induction a as [|e a IH]; intros h; cbn; auto.
  destruct e; cbn; auto. destruct h; cbn; auto. rewrite IH. reflexivity.
Qed.

Lemma blocking_under_lock_app (a b : list event) :
  forall h,
    blocking_under_lock h (a ++ b)
    = blocking_under_lock h a ++ blocking_under_lock (lock_after h a) b.
Proof.
  induction a as [|e a IH]; intros h; cbn; auto.
  destruct e; cbn; auto; destruct h; cbn; auto; rewrite IH; reflexivity.
Qed.

Lemma lock_after_app (a b : list event) :
  forall h, lock_after h (a ++ b) = lock_after (lock_after h a) b.
Proof.
  induction a as [|e a IH]; intros h; cbn; auto. destruct e; cbn; auto.
Qed.

(** The events of a manual capture. *)
Lemma capture_events_log (w : World) :
  events capture w
  = capture_log w
      (fst (capture_outcome (env w) (spawned w + prelude_calls w))).
Proof.
  destruct (capture_run w) as ((l & L & Lm & _) & _).
  exact (events_of_timed_log capture w l _ L Lm).
Qed.

Lemma hold_stop_sleepless (w : World) : sleeps (hold_stop_events w) = [].
Proof.
  unfold hold_stop_events, hold_end_events, hold_off_events.
  destruct (_liveview_proc w) as [[|]|]; auto.
  destruct (gphoto (env w) (spawned w)); reflexivity.
Qed.

Lemma capture_events_sleeps (n : nat) :
  sleeps (capture_events n) = [] \/ sleeps (capture_events n) = [delay].
Proof. destruct n as [|[|n]]; cbn; auto. Qed.

(** ** The cooldown *)

Section Cooldown.
Variable w : World.

(** C9.  A manual capture requested less than [MIN_CAPTURE_GAP] after the
    recorded timestamp first sleeps, under the lock, for what is missing
    of the gap; otherwise it does not sleep before it captures.  In both
    cases the timestamp it records is at least [MIN_CAPTURE_GAP] after the
    previous one (exactly so when it had to wait), and every capture
    subprocess of the request starts no earlier than the new timestamp.
    The intervalometer and the import worker leave the timestamp alone and
    sleep for nothing but the interval and the retry delay: the cooldown
    does not apply to them. *)
Theorem manual_capture_cooldown :
  (delta w < MIN_CAPTURE_GAP ->
   (exists rest,
      events capture w
      = EvAcquire :: EvSleep (MIN_CAPTURE_GAP - delta w) :: rest)
   /\ LAST_CAPTURE_TS (exec capture w)
      == LAST_CAPTURE_TS w + MIN_CAPTURE_GAP)
  /\ (MIN_CAPTURE_GAP <= delta w ->
      (exists rest,
         events capture w = EvAcquire :: rest
         /\ (sleeps rest = [] \/ sleeps rest = [delay]))
      /\ LAST_CAPTURE_TS (exec capture w) = clock w)
  /\ LAST_CAPTURE_TS w + MIN_CAPTURE_GAP <= LAST_CAPTURE_TS (exec capture w)
  /\ Forall (fun te => is_capture_spawn (snd te) = true ->
                       LAST_CAPTURE_TS (exec capture w) <= fst te)
       (trace capture w)
  /\ (forall interval_s count,
        LAST_CAPTURE_TS (exec (_interval_worker interval_s count) w)
        = LAST_CAPTURE_TS w
        /\ Forall (fun d => d = delay \/ d = interval_s)
             (sleeps (events (_interval_worker interval_s count) w)))
  /\ (forall stop mode session,
        LAST_CAPTURE_TS (exec (_import_worker stop mode session) w)
        = LAST_CAPTURE_TS w
        /\ sleeps (events (_import_worker stop mode session) w) = []).
Proof.
  destruct (capture_run w) as ((l & L & Lm & Lt) & Hlast & _).
  pose proof (capture_events_log w) as Hev.
  set (n := fst (capture_outcome (env w) (spawned w + prelude_calls w))) in *.
  split; [|split; [|split; [|split; [|split]]]].
  - intros Hd. apply Qltb_lt in Hd. split.
    + rewrite Hev. unfold capture_log, cooldown_sleep. rewrite Hd.
      cbn. eexists. reflexivity.
    + rewrite Hlast. unfold start_time. rewrite Hd. unfold delta. ring.
  - intros Hd. apply Qltb_ge in Hd. split.
    + rewrite Hev. unfold capture_log, cooldown_sleep. rewrite Hd.
      cbn. eexists. split; [reflexivity|].
      rewrite !sleeps_app, hold_stop_sleepless. cbn. rewrite app_nil_r.
      apply capture_events_sleeps.
    + rewrite Hlast. unfold start_time. rewrite Hd. reflexivity.
  - rewrite Hlast. unfold start_time.
    destruct (Qltb (delta w) MIN_CAPTURE_GAP) eqn:Hd.
    + unfold delta. lra.
    + apply Qltb_ge in Hd. unfold delta in Hd. lra.
  - rewrite (trace_of_log capture w l L), Hlast. apply Forall_rev. exact Lt.
  - intros interval_s count.
    destruct (@interval_worker_trace interval_s
                (fun tr => Forall (fun d => d = delay \/ d = interval_s)
                             (sleeps tr))) with (count := count) (w := w)
      as [H1 H2]; [| | | |auto].
    + constructor.
    + intros a b Ha Hb. rewrite sleeps_app. apply Forall_app. auto.
    + intros k. destruct k as [|[|k]]; cbn; repeat constructor; auto.
    + cbn. constructor; [right; reflexivity | constructor].
  - intros stop mode session.
    destruct (@worker_transfers_once stop mode session w)
      as (new & Hlog & Hs & Hl & _).
    rewrite (events_of_log _ w new Hlog). auto.
Qed.
End Cooldown.

(** Two manual captures 0.1 s apart, and a first capture long after the
    server started. *)
Lemma manual_capture_cooldown_witness :
  let w1 := boot (scripted [] []) 100 in
  let w2 := elapse 0.1 (exec capture w1) in
  ((exists rest,
      events capture w2
      = EvAcquire :: EvSleep (MIN_CAPTURE_GAP - delta w2) :: rest)
   /\ LAST_CAPTURE_TS (exec capture w2)
      == LAST_CAPTURE_TS w2 + MIN_CAPTURE_GAP)
  /\ ((exists rest,
         events capture w1 = EvAcquire :: rest
         /\ (sleeps rest = [] \/ sleeps rest = [delay]))
      /\ LAST_CAPTURE_TS (exec capture w1) = clock w1).
Proof.
  split.
  - apply (proj1 (manual_capture_cooldown
                    (elapse 0.1 (exec capture (boot (scripted [] []) 100))))).
    vm_compute. reflexivity.
  - apply (proj1 (proj2 (manual_capture_cooldown (boot (scripted [] []) 100)))).
    vm_compute. discriminate.
Defined.

(** ** The error of a failed manual capture *)

Section CaptureError.
Variable w : World.

(** C10 (amended).  When the gphoto2 capture of a manual request fails,
    the error text is stored in [interval_state["last_error"]], whether or
    not an interval job runs (the request does not touch [running]), so
    that the next interval status shows it, and the answer carries it.
    When gphoto2 succeeds but no file is found, the request also answers
    with an error, yet writes nothing: the interval state, and with it the
    interval status, is left as it was, and the answer carries the text
    stored before, or ["capture failed"] when there is none.  These are the
    only two ways to an error answer, and in both the text of the answer is
    read from that field. *)
Theorem failed_capture_error_is_shared :
  (forall m err,
     capture_outcome (env w) (spawned w + prelude_calls w) = (m, Some err) ->
     iv_last_error (eval interval_status (exec capture w)) = Some err
     /\ iv_running (eval interval_status (exec capture w))
        = iv_running (interval_state w)
     /\ eval capture w
        = capture_Error (error_or (Some err) "capture failed"))
  /\ (forall m,
        capture_outcome (env w) (spawned w + prelude_calls w) = (m, None) ->
        Text.truthy (saved_as (env w) (spawned w + prelude_calls w + m))
        = false ->
        eval interval_status (exec capture w) = eval interval_status w
        /\ eval capture w
           = capture_Error
               (error_or (iv_last_error (interval_state w))
                  "capture failed"))
  /\ (forall e,
        eval capture w = capture_Error e ->
        e = error_or (iv_last_error (interval_state (exec capture w)))
              "capture failed")
  /\ (forall e,
        eval capture w = capture_Error e ->
        (exists m err,
           capture_outcome (env w) (spawned w + prelude_calls w)
           = (m, Some err))
        \/ (exists m,
              capture_outcome (env w) (spawned w + prelude_calls w)
              = (m, None)
              /\ Text.truthy
                   (saved_as (env w) (spawned w + prelude_calls w + m))
                 = false)).
Proof.
  destruct (capture_run w) as (_ & _ & Hrun & Herr & Hans & Hquiet).
  unfold capture_answer in Hans.
  split; [|split; [|split]].
  - intros m err Hout. rewrite Hout in *. cbn in Herr, Hans.
    unfold interval_status, eval, get. cbn. auto.
  - intros m Hout Hfile. rewrite Hout in *. cbn [fst snd] in *.
    rewrite Hfile in Hans. unfold interval_status, eval, get. cbn [fst].
    split; [apply Hquiet; reflexivity | exact Hans].
  - intros e He. rewrite Hans in He.
    destruct (snd (capture_outcome (env w) (spawned w + prelude_calls w)))
      as [err|].
    + rewrite Herr. congruence.
    + rewrite Herr. cbn in He.
      destruct (Text.truthy _); congruence.
  - intros e He. rewrite Hans in He.
    destruct (capture_outcome (env w) (spawned w + prelude_calls w))
      as [m [err|]]; cbn [fst snd] in *.
    + left. eauto.
    + right. exists m. split; [reflexivity|].
      destruct (Text.truthy _); [discriminate | reflexivity].
Qed.
End CaptureError.

(** A rejected capture, and a capture that leaves no file, while no
    interval job runs. *)
Lemma failed_capture_error_is_shared_witness :
  let w := boot (scripted [bad_usage] []) 100 in
  let w' := boot (without_file (scripted [] [])) 100 in
  (iv_running (interval_state w) = false
   /\ iv_last_error (eval interval_status w) = None
   /\ iv_last_error (eval interval_status (exec capture w))
      = Some "gphoto2: unrecognized option"%string
   /\ iv_running (eval interval_status (exec capture w)) = false
   /\ eval capture w = capture_Error "gphoto2: unrecognized option")
  /\ (eval interval_status (exec capture w') = eval interval_status w'
      /\ eval capture w' = capture_Error "capture failed").
Proof.
  split.
  - split; [reflexivity|]. split; [reflexivity|].
    apply (proj1 (failed_capture_error_is_shared
                    (boot (scripted [bad_usage] []) 100)) 1%nat).
    reflexivity.
  - apply (proj1 (proj2 (failed_capture_error_is_shared
                           (boot (without_file (scripted [] [])) 100)))
             1%nat); reflexivity.
Defined.

(** C10 as stated fails when the capture ends normally and no file is
    found: the request answers with an error and writes nothing to
    [interval_state["last_error"]], so the interval status polled
    afterwards is the one polled before. *)
Lemma capture_without_file_counterexample :
  let w := boot (without_file (scripted [] [])) 100 in
  eval capture w = capture_Error "capture failed"
  /\ iv_last_error (eval interval_status (exec capture w)) = None
  /\ eval interval_status (exec capture w) = eval interval_status w.
Proof.
  vm_compute. repeat split.
Qed.

(** ** Sleeping under the lock *)




(** ** The MJPEG demuxer *)

Module MjpegFacts.
Import Mjpeg.
Local Open Scope nat_scope.

Section Find.
Variables a b : byte.

Lemma find_cons (x : byte) (tl : bytes) :
  find a b (x :: tl)
  = match tl with
    | [] => None
    | y :: _ =>
        if Byte.eqb x a && Byte.eqb y b then Some 0
        else option_map S (find a b tl)
    end.
Proof. destruct tl; reflexivity. Qed.

Lemma option_map_add_0 (o : option nat) : option_map (Nat.add 0) o = o.
Proof. destruct o; reflexivity. Qed.

Lemma option_map_S_add (n : nat) (o : option nat) :
  option_map S (option_map (Nat.add n) o) = option_map (Nat.add (S n)) o.
Proof. destruct o; reflexivity. Qed.

(** A match stays where it is when bytes are appended. *)
Lemma find_app_some (l r : bytes) (i : nat) :
  find a b l = Some i -> find a b (l ++ r) = Some i.
Proof.
  revert i. induction l as [|x tl IH]; intros i; [discriminate|].
  destruct tl as [|y tl']; [discriminate|].
  change ((x :: y :: tl') ++ r) with (x :: y :: tl' ++ r).
  rewrite !(find_cons x).
  destruct (Byte.eqb x a && Byte.eqb y b); auto.
  destruct (find a b (y :: tl')) as [j|] eqn:E; [|discriminate].
  cbn [option_map]. intros [= <-].
  change (y :: tl' ++ r) with ((y :: tl') ++ r).
  rewrite (IH j eq_refl). reflexivity.
Qed.

Lemma find_app_none (l r : bytes) :
  find a b (l ++ r) = None -> find a b l = None.
Proof.
  intros H. destruct (find a b l) as [i|] eqn:E; auto.
  rewrite (find_app_some l r E) in H. discriminate.
Qed.

(** The two bytes found. *)
Lemma find_at (l : bytes) (i : nat) :
  find a b l = Some i -> firstn 2 (skipn i l) = [a; b].
Proof.
  revert i. induction l as [|x tl IH]; intros i; [discriminate|].
  destruct tl as [|y tl']; [discriminate|].
  rewrite (find_cons x).
  destruct (Byte.eqb x a && Byte.eqb y b) eqn:E.
  - intros [= <-]. apply andb_prop in E. destruct E as [E1 E2].
    apply byte_dec_bl in E1, E2. subst. reflexivity.
  - destruct (find a b (y :: tl')) as [j|] eqn:F; [|discriminate].
    cbn [option_map]. intros [= <-]. cbn [skipn]. apply IH. reflexivity.
Qed.

(** No match starts before the one found. *)
Lemma find_first (l : bytes) (i : nat) :
  find a b l = Some i -> find a b (firstn (S i) l) = None.
Proof.
  revert i. induction l as [|x tl IH]; intros i; [discriminate|].
  destruct tl as [|y tl']; [discriminate|].
  rewrite (find_cons x).
  destruct (Byte.eqb x a && Byte.eqb y b) eqn:E.
  - intros [= <-]. reflexivity.
  - destruct (find a b (y :: tl')) as [j|] eqn:F; [|discriminate].
    cbn [option_map]. intros [= <-].
    specialize (IH j eq_refl).
    change (firstn (S (S j)) (x :: y :: tl'))
      with (x :: firstn (S j) (y :: tl')).
    rewrite (find_cons x). cbn [firstn] in *. rewrite E, IH. reflexivity.
Qed.

(** A prefix in which no match starts can be skipped. *)
Lemma find_shift (p q : bytes) :
  find a b (p ++ firstn 1 q) = None ->
  find a b (p ++ q) = option_map (Nat.add (List.length p)) (find a b q).
Proof.
  induction p as [|x p IH]; intros H.
  - cbn [app List.length]. symmetry. apply option_map_add_0.
  - destruct p as [|y p'].
    + cbn [app List.length] in *. destruct q as [|y q']; [reflexivity|].
      cbn [firstn] in H. rewrite (find_cons x) in *.
      destruct (Byte.eqb x a && Byte.eqb y b); [discriminate|].
      destruct (find a b (y :: q')); reflexivity.
    + change ((x :: y :: p') ++ firstn 1 q)
        with (x :: y :: p' ++ firstn 1 q) in H.
      change ((x :: y :: p') ++ q) with (x :: y :: p' ++ q).
      rewrite (find_cons x) in *.
      destruct (Byte.eqb x a && Byte.eqb y b); [discriminate|].
      change (y :: p' ++ firstn 1 q) with ((y :: p') ++ firstn 1 q) in H.
      change (y :: p' ++ q) with ((y :: p') ++ q).
      destruct (find a b ((y :: p') ++ firstn 1 q)) eqn:E; [discriminate|].
      rewrite (IH eq_refl). apply option_map_S_add.
Qed.

Lemma find_from_app_some (l r : bytes) (s i : nat) :
  find_from a b l s = Some i -> find_from a b (l ++ r) s = Some i.
Proof.
  unfold find_from. intros H.
  destruct (find a b (skipn s l)) as [j|] eqn:E; [|cbn; discriminate].
  assert (Hs : s <= List.length l).
  { apply find_bound in E. rewrite length_skipn in E. lia. }
  rewrite skipn_app. replace (s - List.length l) with 0 by lia.
  cbn [skipn]. rewrite (find_app_some _ r E). exact H.
Qed.
End Find.


(** The inner loop, unfolded once. *)
Lemma drain_body (buf : bytes) :
  drain buf
  = match find xff xd8 buf with
    | None => ([], skipn (List.length buf - 3) buf)
    | Some start =>
        match find_from xff xd9 buf (start + 2) with
        | None => ([], skipn start buf)
        | Some end_ =>
            let r := drain (skipn (end_ + 2) buf) in
            (firstn (end_ + 2 - start) (skipn start buf) :: fst r, snd r)
        end
    end.
Proof.
  funelim (drain buf).
  - rewrite e. reflexivity.
  - rewrite e, He. reflexivity.
  - rewrite e, e0. reflexivity.
Qed.

Lemma skipn_add_app (p q : bytes) (k : nat) :
  skipn (List.length p + k) (p ++ q) = skipn k q.
Proof.
  rewrite skipn_app, skipn_all2 by lia.
  replace (List.length p + k - List.length p) with k by lia. reflexivity.
Qed.

(** Bytes in which no frame starts can be dropped from the front of the
    buffer. *)
Lemma drain_skip (p q : bytes) :
  find xff xd8 (p ++ firstn 1 q) = None ->
  fst (drain (p ++ q)) = fst (drain q).
Proof.
  intros H. rewrite (drain_body (p ++ q)), (drain_body q).
  rewrite (find_shift _ _ p q H).
  destruct (find xff xd8 q) as [s|] eqn:Es; cbn [option_map]; [|reflexivity].
  unfold find_from.
  replace (List.length p + s + 2) with (List.length p + (s + 2)) by lia.
  rewrite skipn_add_app.
  destruct (find xff xd9 (skipn (s + 2) q)) as [e|] eqn:Ee;
    cbn [option_map]; [|reflexivity].
  cbn zeta. cbn [fst].
  replace (List.length p + (s + 2) + e + 2 - (List.length p + s))
    with (s + 2 + e + 2 - s) by lia.
  replace (List.length p + (s + 2) + e + 2)
    with (List.length p + (s + 2 + e + 2)) by lia.
  rewrite !skipn_add_app. reflexivity.
Qed.

Lemma find_short (a b : byte) (l : bytes) :
  List.length l <= 1 -> find a b l = None.
Proof.
  destruct l as [|x [|y l]]; cbn [List.length]; intros H; try reflexivity.
  lia.
Qed.

Lemma firstn_1_app (t r : bytes) :
  t <> [] -> firstn 1 (t ++ r) = firstn 1 t.
Proof. destruct t; [congruence | reflexivity]. Qed.

(** No frame starts in the part of a buffer cut off in front of [k], when
    no frame starts before [k] in its first [k+1] bytes. *)
Lemma cut_is_clean (buf r : bytes) (k : nat) :
  find xff xd8 (firstn (S k) buf) = None ->
  find xff xd8 (firstn k buf ++ firstn 1 (skipn k buf ++ r)) = None
  \/ skipn k buf = [].
Proof.
  intros H. destruct (skipn k buf) as [|x t] eqn:E; [right; reflexivity|].
  left. cbn [app firstn].
  assert (Hb : firstn (S k) buf = firstn k buf ++ [x]).
  { rewrite <- (firstn_skipn k buf) at 1. rewrite E.
    rewrite firstn_app, firstn_firstn.
    assert (Hk : k <= List.length buf).
    { destruct (Nat.le_gt_cases k (List.length buf)) as [L|L]; auto.
      rewrite skipn_all2 in E by lia. discriminate. }
    rewrite length_firstn.
    replace (Nat.min (S k) k) with k by lia.
    replace (S k - Nat.min k (List.length buf)) with 1 by lia.
    reflexivity. }
  rewrite <- Hb. exact H.
Qed.

(** Draining a buffer and then the rest of the stream gives the frames of
    the whole stream. *)
Lemma drain_app (n : nat) :
  forall buf r,
    List.length buf <= n ->
    fst (drain (buf ++ r))
    = fst (drain buf) ++ fst (drain (snd (drain buf) ++ r)).
Proof.
  induction n as [|n IH]; intros buf r Hn.
  - destruct buf; [|cbn in Hn; lia]. rewrite (drain_body []). reflexivity.
  - rewrite (drain_body buf).
    destruct (find xff xd8 buf) as [s|] eqn:Es.
    + pose proof (find_bound _ _ _ Es) as Hs.
      destruct (find_from xff xd9 buf (s + 2)) as [e|] eqn:Ee.
      * pose proof (find_from_bound _ _ _ _ Ee) as [He1 He2].
        cbn zeta. cbn [fst snd].
        rewrite (drain_body (buf ++ r)).
        rewrite (find_app_some _ _ buf r Es).
        rewrite (find_from_app_some _ _ buf r _ Ee).
        cbn zeta. cbn [fst].
        rewrite !skipn_app.
        replace (s - List.length buf) with 0 by lia.
        replace (e + 2 - List.length buf) with 0 by lia.
        cbn [skipn].
        rewrite firstn_app, length_skipn.
        replace (e + 2 - s - (List.length buf - s)) with 0 by lia.
        cbn [firstn]. rewrite app_nil_r.
        rewrite (IH (skipn (e + 2) buf) r)
          by (rewrite length_skipn; lia).
        reflexivity.
      * cbn [fst snd app].
        rewrite <- (firstn_skipn s buf) at 1. rewrite <- app_assoc.
        apply drain_skip.
        destruct (cut_is_clean buf r s (find_first _ _ _ Es)) as [H|H]; auto.
        exfalso. apply (f_equal (@List.length byte)) in H.
        rewrite length_skipn in H. cbn in H. lia.
    + cbn [fst snd app].
      set (k := List.length buf - 3).
      rewrite <- (firstn_skipn k buf) at 1. rewrite <- app_assoc.
      apply drain_skip.
      destruct (cut_is_clean buf r k) as [H|H]; auto.
      * rewrite <- (firstn_skipn (S k) buf) in Es.
        exact (find_app_none _ _ _ _ Es).
      * rewrite H. cbn [app].
        assert (Hb : buf = []).
        { apply (f_equal (@List.length byte)) in H.
          rewrite length_skipn in H. subst k.
          destruct buf; [reflexivity | cbn [List.length] in H; lia]. }
        subst buf. cbn. apply find_short. destruct r; cbn; lia.
Qed.

(** What is kept for the next read holds no complete frame. *)
Lemma drain_residue (buf : bytes) : fst (drain (snd (drain buf))) = [].
Proof.
  pose proof (drain_app (n := List.length buf) buf [] (le_n _)) as H.
  rewrite !app_nil_r in H.
  rewrite <- (app_nil_r (fst (drain buf))) in H at 1.
  apply app_inv_head in H. auto.
Qed.

(** Reading the stream in chunks gives the frames of the whole stream. *)
Lemma generate_from_whole (chunks : list bytes) :
  forall buf,
    Forall (fun c => c <> []) chunks ->
    fst (drain buf) = [] ->
    generate_from buf chunks = fst (drain (buf ++ List.concat chunks)).
Proof.
  induction chunks as [|c cs IH]; intros buf Hne Hbuf.
  - cbn. rewrite app_nil_r. auto.
  - inversion Hne as [|? ? Hc Hcs]; subst.
    destruct c as [|x c]; [congruence|].
    cbn [generate_from List.concat].
    rewrite (IH _ Hcs (drain_residue _)).
    rewrite app_assoc.
    rewrite (drain_app (n := List.length (buf ++ x :: c))
               (buf ++ x :: c) (List.concat cs) (le_n _)).
    reflexivity.
Qed.

Section FindMore.
Variables a b : byte.

Lemma find_tail (x : byte) (tl : bytes) :
  find a b (x :: tl) = None -> find a b tl = None.
Proof.
  rewrite find_cons. destruct tl as [|y tl']; [reflexivity|].
  destruct (Byte.eqb x a && Byte.eqb y b); [discriminate|].
  destruct (find a b (y :: tl')); [discriminate | reflexivity].
Qed.

Lemma find_skipn_none (l : bytes) (k : nat) :
  find a b l = None -> find a b (skipn k l) = None.
Proof.
  revert l. induction k as [|k IH]; intros l H; [exact H|].
  destruct l as [|x tl]; [reflexivity|]. cbn [skipn].
  apply IH. exact (find_tail _ _ H).
Qed.

(** A byte that is not the second of the marker completes no match. *)
Lemma find_snoc (l : bytes) (x : byte) :
  find a b l = None -> x <> b -> find a b (l ++ [x]) = None.
Proof.
  intros H Hx. induction l as [|y tl IH]; [reflexivity|].
  pose proof (find_tail _ _ H) as Ht. specialize (IH Ht).
  destruct tl as [|z tl'].
  - cbn [app]. rewrite find_cons.
    destruct (Byte.eqb x b) eqn:E.
    + apply byte_dec_bl in E. congruence.
    + rewrite andb_false_r. reflexivity.
  - change ((y :: z :: tl') ++ [x]) with (y :: z :: tl' ++ [x]).
    rewrite find_cons in *.
    destruct (Byte.eqb y a && Byte.eqb z b); [discriminate|].
    change (z :: tl' ++ [x]) with ((z :: tl') ++ [x]).
    rewrite IH. reflexivity.
Qed.

(** A match is found in the bytes up to its end. *)
Lemma find_firstn_some (l : bytes) (i : nat) :
  find a b l = Some i -> find a b (firstn (i + 2) l) = Some i.
Proof.
  revert i. induction l as [|x tl IH]; intros i; [discriminate|].
  destruct tl as [|y tl']; [discriminate|].
  rewrite (find_cons a b x).
  destruct (Byte.eqb x a && Byte.eqb y b) eqn:E.
  - intros [= <-]. cbn [Nat.add firstn]. rewrite find_cons, E. reflexivity.
  - destruct (find a b (y :: tl')) as [j|] eqn:F; [|discriminate].
    cbn [option_map]. intros [= <-].
    specialize (IH j eq_refl).
    change (firstn (S j + 2) (x :: y :: tl'))
      with (x :: firstn (j + 2) (y :: tl')).
    rewrite find_cons.
    replace (j + 2) with (S (S j)) in * by lia. cbn [firstn] in *.
    rewrite E, IH. reflexivity.
Qed.
End FindMore.

(** Every frame emitted is one SOI marker through the next EOI marker. *)
Lemma drain_frames (n : nat) :
  forall buf f,
    List.length buf <= n -> In f (fst (drain buf)) -> well_framed f.
Proof.
  induction n as [|n IH]; intros buf f Hn Hin;
    rewrite (drain_body buf) in Hin.
  - destruct buf; [|cbn in Hn; lia]. cbn in Hin. contradiction.
  - destruct (find xff xd8 buf) as [s|] eqn:Es; [|contradiction].
    destruct (find_from xff xd9 buf (s + 2)) as [e|] eqn:Ee;
      [|contradiction].
    pose proof (find_from_bound _ _ _ _ Ee) as [He1 He2].
    cbn zeta in Hin. cbn [fst] in Hin. destruct Hin as [<-|Hin].
    + split.
      * rewrite firstn_firstn. replace (Nat.min 2 (e + 2 - s)) with 2 by lia.
        exact (find_at _ _ _ Es).
      * unfold find_from in *.
        destruct (find xff xd9 (skipn (s + 2) buf)) as [j|] eqn:Ej;
          [|discriminate].
        cbn [option_map] in Ee. injection Ee as <-.
        rewrite skipn_firstn_comm, skipn_skipn.
        replace (2 + s) with (s + 2) by lia.
        replace (s + 2 + j + 2 - s - 2) with (j + 2) by lia.
        rewrite (find_firstn_some _ _ _ Ej). cbn [option_map].
        rewrite length_firstn, length_skipn. f_equal. lia.
    + apply (IH (skipn (e + 2) buf)); auto. rewrite length_skipn. lia.
Qed.

Lemma generate_from_frames (chunks : list bytes) :
  forall buf f, In f (generate_from buf chunks) -> well_framed f.
Proof.
  induction chunks as [|c cs IH]; intros buf f Hin; [contradiction|].
  destruct c as [|x c]; [contradiction|].
  cbn [generate_from] in Hin. apply in_app_or in Hin.
  destruct Hin as [Hin|Hin].
  - exact (drain_frames (n := List.length (buf ++ x :: c)) _ _ (le_n _) Hin).
  - exact (IH _ _ Hin).
Qed.

(** What is kept for the next read: bytes in which no frame starts, or a
    frame that has started and is not finished. *)
Lemma drain_residue_shape (n : nat) :
  forall buf,
    List.length buf <= n ->
    find xff xd8 (snd (drain buf)) = None
    \/ (find xff xd8 (snd (drain buf)) = Some 0
        /\ find xff xd9 (skipn 2 (snd (drain buf))) = None
        /\ 2 <= List.length (snd (drain buf))).
Proof.
  induction n as [|n IH]; intros buf Hn; rewrite (drain_body buf).
  - destruct buf; [|cbn in Hn; lia]. left. reflexivity.
  - destruct (find xff xd8 buf) as [s|] eqn:Es.
    + pose proof (find_bound _ _ _ Es) as Hs.
      destruct (find_from xff xd9 buf (s + 2)) as [e|] eqn:Ee.
      * pose proof (find_from_bound _ _ _ _ Ee) as [He1 He2].
        cbn zeta. cbn [snd]. apply IH. rewrite length_skipn. lia.
      * cbn [snd]. right. split; [|split].
        -- pose proof (find_at _ _ _ Es) as Hat.
           destruct (skipn s buf) as [|x [|y tl]]; try discriminate.
           cbn in Hat. injection Hat as -> ->. reflexivity.
        -- rewrite skipn_skipn. replace (2 + s) with (s + 2) by lia.
           unfold find_from in Ee.
           destruct (find xff xd9 (skipn (s + 2) buf)); [discriminate|].
           reflexivity.
        -- rewrite length_skipn. lia.
    + cbn [snd]. left. apply find_skipn_none. exact Es.
Qed.

(** An unfinished frame at the end of the stream yields nothing. *)
Lemma drain_trailing (buf t : bytes) :
  incomplete t -> fst (drain (buf ++ t)) = fst (drain buf).
Proof.
  intros [Ht1 Ht2].
  destruct t as [|t0 [|t1 t']]; try discriminate.
  cbn in Ht1. injection Ht1 as -> ->.
  rewrite (drain_app (n := List.length buf) buf _ (le_n _)).
  rewrite <- (app_nil_r (fst (drain buf))) at 2. f_equal.
  set (t := xff :: xd8 :: t') in *.
  assert (Hdt : fst (drain t) = []).
  { rewrite (drain_body t). cbn [find t]. cbn.
    unfold find_from. rewrite (find_skipn_none _ _ _ 2 Ht2). reflexivity. }
  destruct (drain_residue_shape (n := List.length buf) buf (le_n _))
    as [H|(H0 & H9 & Hlen)].
  - rewrite drain_skip; [exact Hdt|].
    cbn [t firstn]. apply find_snoc; [exact H | discriminate].
  - set (res := snd (drain buf)) in *.
    rewrite (drain_body (res ++ t)).
    rewrite (find_app_some _ _ res t H0).
    unfold find_from. cbn [Nat.add].
    rewrite skipn_app. replace (2 - List.length res) with 0 by lia.
    cbn [skipn].
    rewrite (find_shift _ _ (skipn 2 res) t).
    + rewrite Ht2. reflexivity.
    + cbn [t firstn]. apply find_snoc; [exact H9 | discriminate].
Qed.
End MjpegFacts.

Import Mjpeg.



(** ** Threads sharing the camera: the invariant *)

Module PoolFacts.
Import Pool.
Local Open Scope nat_scope.

Lemma nth_error_update_eq (A : Type) (l : list A) :
  forall i x y,
    nth_error l i = Some y -> nth_error (update i x l) i = Some x.
Proof.
  induction l as [|z l IH]; intros [|i] x y H; try discriminate.
  - reflexivity.
  - cbn in *. eauto.
Qed.

Lemma nth_error_update_neq (A : Type) (l : list A) :
  forall i j x, i <> j -> nth_error (update i x l) j = nth_error l j.
Proof.
  induction l as [|z l IH]; intros [|i] [|j] x H; cbn; auto; try congruence.
Qed.

Lemma total_update (l : list thread) :
  forall i t t',
    nth_error l i = Some t ->
    total (update i t' l) + running t = total l + running t'.
Proof.
  unfold total, list_sum.
  induction l as [|z l IH]; intros [|i] t t' H; try discriminate;
    cbn [map fold_right update nth_error] in *.
  - injection H as ->. lia.
  - specialize (IH i t t' H). lia.
Qed.

Lemma track_app (a b : list event) :
  forall st,
    track st (a ++ b)
    = match track st a with
      | Some st' => track st' b
      | None => None
      end.
Proof.
  induction a as [|e a IH]; intros [h r]; [reflexivity|].
  cbn [app track].
  destruct e; try apply IH.
  - destruct h; [reflexivity | apply IH].
  - destruct (h && negb r); [apply IH | reflexivity].
  - destruct (h && negb r); [apply IH | reflexivity].
  - destruct r; [apply IH | reflexivity].
Qed.

Lemma guarded_nil : guarded [].
Proof. reflexivity. Qed.

Lemma guarded_app (a b : list event) :
  guarded a -> guarded b -> guarded (a ++ b).
Proof.
  unfold guarded. intros Ha Hb. rewrite track_app, Ha. exact Hb.
Qed.

Lemma inv_start (programs : list (list event)) :
  Forall guarded programs -> inv (start programs).
Proof.
  intros H. split.
  - intros i t Hi. cbn in Hi. rewrite nth_error_map in Hi.
    destruct (nth_error programs i) as [prog|] eqn:E; [|discriminate].
    injection Hi as <-. apply nth_error_In in E.
    rewrite Forall_forall in H. specialize (H _ E).
    repeat split; cbn; auto; discriminate.
  - cbn. unfold total. rewrite map_map. cbn.
    induction programs; cbn; auto. inversion H; auto.
Qed.

(** Two threads cannot both hold the lock. *)
Lemma holder_unique (p : pool) (i j : nat) (t u : thread) :
  inv p ->
  nth_error (threads p) i = Some t -> nth_error (threads p) j = Some u ->
  holds t = true -> holds u = true -> i = j.
Proof.
  intros [H _] Hi Hj Ht Hu.
  destruct (H _ _ Hi) as (_ & _ & Hti & _).
  destruct (H _ _ Hj) as (_ & _ & Huj & _).
  specialize (Hti Ht). specialize (Huj Hu). congruence.
Qed.

Lemma inv_step (p : pool) (i : nat) (t t' : thread) (own' : option nat)
    (infl' : nat) :
  inv p ->
  nth_error (threads p) i = Some t ->
  thread_ok own' i t' ->
  (forall j u, j <> i -> nth_error (threads p) j = Some u ->
               holds u = true -> own' = Some j) ->
  infl' + running t = inflight p + running t' ->
  inv {| owner := own'; inflight := infl';
         threads := update i t' (threads p) |}.
Proof.
  intros [Hth Hin] Hi Hok Hothers Hsum. split; cbn [threads owner inflight].
  - intros j u Hj. destruct (Nat.eq_dec i j) as [<-|Hne].
    + rewrite (nth_error_update_eq _ _ t' Hi) in Hj. injection Hj as <-.
      exact Hok.
    + rewrite nth_error_update_neq in Hj by exact Hne.
      destruct (Hth _ _ Hj) as (H1 & H2 & H3 & H4).
      repeat split; auto. intros Hu. apply (Hothers j u); auto.
  - pose proof (total_update _ _ t' Hi) as Ht. lia.
Qed.

Ltac ok_thread :=
  try (cbn [running]; lia);
  try (unfold thread_ok; cbn [holds running todo Nat.eqb pred];
       repeat split; auto; try discriminate; try lia).

(** Every step of a thread keeps the invariant. *)
Lemma inv_fire (p p' : pool) (i : nat) :
  inv p -> fire i p = Some p' -> inv p'.
Proof.
  intros Hinv Hfire. pose proof Hinv as [Hth Hin].
  unfold fire in Hfire.
  destruct (nth_error (threads p) i) as [[h r [|e rest]]|] eqn:Hi;
    try discriminate.
  destruct (Hth _ _ Hi) as (Hr & Htrack & Hown & Hrun).
  cbn [holds running todo] in *.
  assert (Hothers : forall j u, j <> i -> nth_error (threads p) j = Some u ->
                                holds u = true -> owner p = Some j).
  { intros j u _ Hj Hu. destruct (Hth _ _ Hj) as (_ & _ & H & _). auto. }
  destruct e; cbn [track] in Htrack.
  - (* acquire *)
    destruct h; [discriminate|].
    destruct (owner p) eqn:Eo; [discriminate|]. injection Hfire as <-.
    assert (Hfree : forall j u, j <> i -> nth_error (threads p) j = Some u ->
                                holds u = true -> Some i = Some j).
    { intros j u Hne Hj Hu. specialize (Hothers j u Hne Hj Hu).
      discriminate. }
    apply inv_step with (t := Build_thread false r (EvAcquire :: rest));
      auto; ok_thread.
  - (* release *)
    destruct h; [|discriminate]. cbn [andb] in Htrack.
    destruct (r =? 1) eqn:Er; [discriminate|]. cbn [negb] in Htrack.
    pose proof (proj1 (Nat.eqb_neq _ _) Er) as Hr1. injection Hfire as <-.
    assert (Hfree : forall j u, j <> i -> nth_error (threads p) j = Some u ->
                                holds u = true -> @None nat = Some j).
    { intros j u Hne Hj Hu. specialize (Hothers j u Hne Hj Hu).
      rewrite (Hown eq_refl) in Hothers. congruence. }
    apply inv_step with (t := Build_thread true r (EvRelease :: rest));
      auto; ok_thread. rewrite Er. exact Htrack.
  - (* a subprocess starts *)
    destruct h; [|discriminate]. cbn [andb] in Htrack.
    destruct (r =? 1) eqn:Er; [discriminate|]. cbn [negb] in Htrack.
    apply Nat.eqb_neq in Er. assert (r = 0) by lia. subst r.
    injection Hfire as <-.
    apply inv_step with (t := Build_thread true 0 (EvSpawn c :: rest));
      auto; ok_thread.
  - (* the subprocess ends *)
    destruct (r =? 1) eqn:Er; [|discriminate].
    apply Nat.eqb_eq in Er. subst r. injection Hfire as <-.
    assert (1 <= inflight p).
    { rewrite Hin. pose proof (total_update _ _ (Build_thread h 0 rest) Hi).
      cbn [running] in *. lia. }
    apply inv_step with (t := Build_thread h 1 (EvExit :: rest));
      auto; ok_thread.
  - (* sleep *)
    injection Hfire as <-.
    apply inv_step with (t := Build_thread h r (EvSleep d :: rest));
      auto; ok_thread.
  - (* the hold is stopped *)
    injection Hfire as <-.
    apply inv_step with (t := Build_thread h r (EvStopHold d :: rest));
      auto; ok_thread.
Qed.

Lemma inv_run (schedule : list nat) :
  forall p p', inv p -> run schedule p = Some p' -> inv p'.
Proof.
  induction schedule as [|i rest IH]; intros p p' Hinv Hrun; cbn in Hrun.
  - injection Hrun as <-. exact Hinv.
  - destruct (fire i p) as [q|] eqn:Hf; [|discriminate].
    exact (IH _ _ (inv_fire _ Hinv Hf) Hrun).
Qed.

(** At most one of the threads has a subprocess running. *)
Lemma total_bound (l : list thread) :
  (forall i t, nth_error l i = Some t -> running t <= 1) ->
  (forall i j t u, nth_error l i = Some t -> nth_error l j = Some u ->
                   running t = 1 -> running u = 1 -> i = j) ->
  total l <= 1.
Proof.
  unfold total, list_sum.
  induction l as [|t l IH]; intros Hle Huniq; cbn [map fold_right]; [lia|].
  pose proof (Hle 0 t eq_refl) as Ht.
  assert (Hl : fold_right Nat.add 0 (map running l) <= 1).
  { apply IH.
    - intros i u Hi. exact (Hle (S i) u Hi).
    - intros i j u v Hi Hj Hu Hv.
      pose proof (Huniq (S i) (S j) u v Hi Hj Hu Hv). lia. }
  destruct (Nat.eq_dec (running t) 1) as [E|E]; [|lia].
  assert (Hz : fold_right Nat.add 0 (map running l) = 0).
  { clear IH Hl. induction l as [|u l IHl]; cbn [map fold_right]; auto.
    assert (running u <> 1).
    { intros Hu. pose proof (Huniq 0 1 t u eq_refl eq_refl E Hu). lia. }
    pose proof (Hle 1 u eq_refl).
    rewrite IHl; [lia| |].
    - intros [|i] v Hi; [injection Hi as <-; exact Ht|].
      exact (Hle (S (S i)) v Hi).
    - intros [|i] [|j] v x Hi Hj Hv Hx; auto.
      + pose proof (Huniq 0 (S (S j)) v x Hi Hj Hv Hx). lia.
      + pose proof (Huniq (S (S i)) 0 v x Hi Hj Hv Hx). lia.
      + pose proof (Huniq (S (S i)) (S (S j)) v x Hi Hj Hv Hx). lia. }
  lia.
Qed.

Lemma inv_bound (p : pool) : inv p -> inflight p <= 1.
Proof.
  intros Hinv. pose proof Hinv as [Hth Hin]. rewrite Hin.
  apply total_bound.
  - intros i t Hi. destruct (Hth _ _ Hi) as (H & _). exact H.
  - intros i j t u Hi Hj Ht Hu.
    destruct (Hth _ _ Hi) as (_ & _ & _ & Hti).
    destruct (Hth _ _ Hj) as (_ & _ & _ & Huj).
    exact (holder_unique _ _ Hinv Hi Hj (Hti Ht) (Huj Hu)).
Qed.

(** Programs that take the lock before every subprocess never have two
    subprocesses alive. *)
Lemma guarded_pool_exclusive (programs : list (list event)) (p : pool) :
  Forall guarded programs -> reachable programs p -> inflight p <= 1.
Proof.
  intros Hg [schedule Hrun].
  exact (inv_bound (inv_run _ (inv_start Hg) Hrun)).
Qed.
End PoolFacts.

(** ** Which operations take the lock *)

Ltac sync_cases :=
  repeat (mrun; use_eqns; mrun;
          match goal with
          | |- context [match gphoto ?e ?n with _ => _ end] =>
              destruct (gphoto e n) eqn:?
          | |- context [sync_transient ?o && _] =>
              destruct (sync_transient o) eqn:?
          end);
  mrun; use_eqns; mrun.

Lemma capture_guarded (w : World) : Pool.guarded (events capture w).
Proof.
  rewrite capture_events_log.
  set (n := fst (capture_outcome (env w) (spawned w + prelude_calls w))).
  unfold Pool.guarded, capture_log, cooldown_sleep, hold_stop_events,
    hold_end_events, hold_off_events.
  destruct (Qltb (delta w) MIN_CAPTURE_GAP);
    destruct (_liveview_proc w) as [[|]|];
    try destruct (gphoto (env w) (spawned w));
    destruct n as [|[|n]]; reflexivity.
Qed.

Lemma testshot_guarded (w : World) : Pool.guarded (events testshot_jpg w).
Proof.
  unfold Pool.guarded, events, trace, exec, testshot_jpg, _capture_testshot.
  env_cases; newlog; reflexivity.
Qed.

Lemma get_config_guarded (key : string) (w : World) :
  Pool.guarded (events (_gp_get_config_safe key) w).
Proof.
  unfold Pool.guarded, events, trace, exec, _gp_get_config_safe.
  mrun. newlog. reflexivity.
Qed.

Lemma storage_info_guarded (w : World) :
  Pool.guarded (events _storage_info w).
Proof.
  unfold Pool.guarded, events, trace, exec, _storage_info.
  mrun. newlog. reflexivity.
Qed.

Lemma list_files_guarded (w : World) :
  Pool.guarded (events _list_camera_files w).
Proof.
  unfold Pool.guarded, events, trace, exec, _list_camera_files.
  env_cases; newlog; reflexivity.
Qed.

Lemma live_frame_guarded (w : World) : Pool.guarded (events live_frame w).
Proof.
  unfold Pool.guarded, events, trace, exec, live_frame,
    _liveview_proc_running.
  env_cases; try newlog; try rewrite added_same; reflexivity.
Qed.

Lemma preview_fetch_guarded (idx : Z) (pattern : string) (w : World) :
  Pool.guarded (events (preview_fetch idx pattern) w).
Proof.
  unfold Pool.guarded, events, trace, exec, preview_fetch, sync_attempts.
  sync_cases; try rewrite andb_false_r; mrun; newlog; reflexivity.
Qed.

Lemma interval_worker_guarded (interval_s : Q) (count : Z) (w : World) :
  Pool.guarded (events (_interval_worker interval_s count) w).
Proof.
  destruct (@interval_worker_trace interval_s Pool.guarded)
    with (count := count) (w := w) as [H _]; auto.
  - apply PoolFacts.guarded_nil.
  - apply PoolFacts.guarded_app.
  - intros n. destruct n as [|[|n]]; reflexivity.
  - reflexivity.
Qed.

(** C1 (amended).  Threads whose programs take [cam_lock] before every
    gphoto2 subprocess they start never have two subprocesses alive,
    whatever the interleaving; the manual capture, the test shot, the
    config read, the storage query, the file listing, the single preview
    frame, the preview file transfer and the interval job are such
    programs for every behaviour of the camera.  The movie stream is not:
    it starts its long-lived subprocess without taking the lock. *)
Theorem locked_operations_exclude_each_other :
  (forall programs p,
     Forall Pool.guarded programs ->
     Pool.reachable programs p ->
     (Pool.inflight p <= 1)%nat)
  /\ (forall w,
        Pool.guarded (events capture w)
        /\ Pool.guarded (events testshot_jpg w)
        /\ Pool.guarded (events _storage_info w)
        /\ Pool.guarded (events _list_camera_files w)
        /\ Pool.guarded (events live_frame w)
        /\ (forall key, Pool.guarded (events (_gp_get_config_safe key) w))
        /\ (forall idx pattern,
              Pool.guarded (events (preview_fetch idx pattern) w))
        /\ (forall interval_s count,
              Pool.guarded (events (_interval_worker interval_s count) w)))
  /\ (forall chunks w,
        exists rest,
          events (live_stream chunks) w = EvSpawn capture_movie :: rest).
Proof.
  split; [|split].
  - intros programs p. apply PoolFacts.guarded_pool_exclusive.
  - intros w. repeat split.
    + apply capture_guarded.
    + apply testshot_guarded.
    + apply storage_info_guarded.
    + apply list_files_guarded.
    + apply live_frame_guarded.
    + intros key. apply get_config_guarded.
    + intros idx pattern. apply preview_fetch_guarded.
    + intros interval_s count. apply interval_worker_guarded.
  - intros chunks w.
    unfold events, trace, exec, live_stream, _set_liveview.
    env_cases; newlog; eexists; reflexivity.
Qed.

(** A manual capture, an interval job of two shots and a status query
    racing for the camera: the schedule stops while the second shot of the
    interval job is in flight. *)
Lemma locked_operations_exclude_each_other_witness :
  let w := boot (scripted [] []) 100 in
  let programs :=
    [events capture w; events (_interval_worker 0 2) w;
     events _storage_info w] in
  exists p,
    Pool.run [1; 1; 1; 1; 0; 0; 0; 0; 2; 2; 2; 2; 1; 1]%nat
      (Pool.start programs) = Some p
    /\ Pool.owner p = Some 1%nat
    /\ (Pool.inflight p <= 1)%nat.
Proof.
  intros w programs. eexists.
  split; [vm_compute; reflexivity|]. split; [reflexivity|].
  apply (proj1 locked_operations_exclude_each_other programs).
  - apply Forall_cons; [apply capture_guarded|].
    apply Forall_cons; [apply interval_worker_guarded|].
    apply Forall_cons; [apply storage_info_guarded | apply Forall_nil].
  - exists [1; 1; 1; 1; 0; 0; 0; 0; 2; 2; 2; 2; 1; 1]%nat.
    vm_compute. reflexivity.
Defined.

(** C1 as stated fails: while the movie stream runs, a manual capture
    takes the free lock and starts its own gphoto2, so two device
    subprocesses are alive at once. *)
Lemma movie_stream_overlaps_capture_counterexample :
  let w := boot (scripted [] []) 100 in
  let programs := [events (live_stream [frame_A]) w; events capture w] in
  exists p,
    Pool.run [0; 1; 1]%nat (Pool.start programs) = Some p
    /\ Pool.reachable programs p
    /\ Pool.inflight p = 2%nat
    /\ ~ (Pool.inflight p <= 1)%nat.
Proof.
  intros w programs. eexists. split; [vm_compute; reflexivity|].
  split; [exists [0; 1; 1]%nat; vm_compute; reflexivity|].
  split; [reflexivity | cbn; lia].
Qed.

(** ** The interval job among other requests *)

Section IntervalAmong.
Variables (stop : nat -> bool) (interval_s : Q).

Lemma after_capture_log (w : World) :
  map snd (log (exec (after_capture interval_s) w))
  = rev (pause interval_s) ++ map snd (log w).
Proof.
  unfold after_capture, pause. mstep.
  destruct (Qle_bool interval_s 0); reflexivity.
Qed.

Lemma after_capture_state (i : Q) (w : World) :
  let w' := exec (after_capture i) w in
  env w' = env w
  /\ spawned w' = spawned w
  /\ interval_state w'
     = Build_IntervalState (iv_running (interval_state w))
         (iv_interval (interval_state w))
         (iv_remaining (interval_state w) - 1)
         (iv_total (interval_state w))
         (iv_last_error (interval_state w)).
Proof.
  unfold after_capture. mstep.
  destruct (Qle_bool i 0); cbn; auto.
Qed.

Lemma interval_loop_among_S (fuel k : nat) (w : World) :
  interval_loop_among stop (S fuel) k interval_s w
  = (let (_, w0) := when (stop k) interval_stop w in
     let (go, w1) := interval_pass interval_s w0 in
     match go with
     | Some true => interval_loop_among stop fuel (S k) interval_s w1
     | Some false => (Some true, w1)
     | None => (None, w1)
     end).
Proof.
  cbn [interval_loop_among]. unfold bind.
  destruct (when (stop k) interval_stop w) as [u w0].
  destruct (interval_pass interval_s w0) as [[[|]|] w1]; reflexivity.
Qed.

(** A capture leaves the interval and the total alone. *)
Lemma locked_capture_keeps (w : World) :
  iv_total (interval_state (snd (with_cam_lock _capture_one w)))
  = iv_total (interval_state w)
  /\ iv_interval (interval_state (snd (with_cam_lock _capture_one w)))
     = iv_interval (interval_state w).
Proof.
  unfold _capture_one, attempts, with_cam_lock.
  env_cases; split; reflexivity.
Qed.

(** [j] captures succeed; then the job is stopped, or has taken all its
    shots. *)
Lemma interval_among_run (j : nat) :
  forall fuel k w,
    (j < fuel)%nat ->
    iv_running (interval_state w) = true ->
    (forall i, (i < j)%nat -> stop (k + i) = false) ->
    (stop (k + j) = true /\ (Z.of_nat j <= iv_remaining (interval_state w))%Z
     \/ iv_remaining (interval_state w) = Z.of_nat j) ->
    ((0 < j)%nat -> interval_ok (env w) interval_s = true) ->
    captures_succeed (env w) (spawned w) j = true ->
    let r := interval_loop_among stop fuel k interval_s w in
    fst r = Some true
    /\ map snd (log (snd r))
       = rev (passes (env w) interval_s (spawned w) j) ++ map snd (log w)
    /\ iv_running (interval_state (snd r)) = false
    /\ iv_remaining (interval_state (snd r))
       = (iv_remaining (interval_state w) - Z.of_nat j)%Z
    /\ iv_total (interval_state (snd r)) = iv_total (interval_state w)
    /\ iv_last_error (interval_state (snd r))
       = iv_last_error (interval_state w)
    /\ iv_interval (interval_state (snd r))
       = iv_interval (interval_state w).
Proof.
  induction j as [|j IH]; intros fuel k w Hfuel Hrun Hstop Hend Hint Hok r;
    subst r; (destruct fuel as [|fuel]; [lia|]);
    rewrite interval_loop_among_S.
  - rewrite Nat.add_0_r in Hend.
    destruct (stop k) eqn:Hk.
    + unfold when, interval_stop, set_iv_running, modify.
      rewrite interval_pass_idle by reflexivity.
      cbn. repeat split; auto. lia.
    + destruct Hend as [[Hend _]|Hend]; [discriminate|].
      unfold when, ret.
      rewrite interval_pass_exhausted by (auto; lia).
      mstep. repeat split; auto. lia.
  - assert (Hk : stop k = false).
    { specialize (Hstop 0%nat). rewrite Nat.add_0_r in Hstop.
      apply Hstop. lia. }
    rewrite Hk. unfold when, ret.
    cbn [captures_succeed] in Hok.
    destruct (snd (capture_outcome (env w) (spawned w))) as [err|] eqn:Hc;
      [discriminate|].
    set (m := fst (capture_outcome (env w) (spawned w))) in *.
    rewrite interval_pass_captured by (auto; try lia; apply Hint; lia).
    destruct (locked_capture_cases w) as [Heff _].
    destruct Heff as [He Hl Himp Hcf Hr Hm Hsp Hlog Herr].
    rewrite Hc in Herr. fold m in Hsp, Hlog.
    destruct (locked_capture_keeps w) as [Htot Hiv].
    set (w1 := snd (with_cam_lock _capture_one w)) in *.
    pose proof (after_capture_log w1) as Hlog2.
    destruct (after_capture_state interval_s w1) as (He2 & Hsp2 & Hst2).
    set (w2 := exec (after_capture interval_s) w1) in *.
    destruct (IH fuel (S k) w2) as (R1 & R2 & R3 & R4 & R5 & R6 & R7).
    + lia.
    + rewrite Hst2. cbn. congruence.
    + intros i Hi. replace (S k + i)%nat with (k + S i)%nat by lia.
      apply Hstop. lia.
    + rewrite Hst2. cbn [iv_remaining]. rewrite Hm.
      replace (S k + j)%nat with (k + S j)%nat by lia.
      destruct Hend as [[Hs Hle]|Hend]; [left; split; [exact Hs | lia]
                                        | right; lia].
    + intros _. rewrite He2, He. apply Hint. lia.
    + rewrite He2, Hsp2, He, Hsp. exact Hok.
    + rewrite He2, Hsp2, He, Hsp in R2.
      repeat split; auto.
      * rewrite R2, Hlog2, Hlog. cbn [passes]. fold m.
        rewrite !rev_app_distr, <- !app_assoc. reflexivity.
      * rewrite R4, Hst2. cbn. rewrite Hm. lia.
      * rewrite R5, Hst2. cbn. exact Htot.
      * rewrite R6, Hst2. cbn. congruence.
      * rewrite R7, Hst2. cbn. exact Hiv.
Qed.

(** Without stop requests the loop is the loop of [_interval_worker]. *)
Lemma interval_loop_among_never (fuel : nat) :
  forall k w,
    interval_loop_among never fuel k interval_s w
    = interval_loop fuel interval_s w.
Proof.
  induction fuel as [|fuel IH]; intros k w; [reflexivity|].
  rewrite interval_loop_S. cbn [interval_loop_among].
  unfold never at 1, when, bind, ret.
  destruct (interval_pass interval_s w) as [[[|]|] w1]; auto.
Qed.

Lemma interval_worker_among_never (count : Z) (w : World) :
  _interval_worker_among never interval_s count w
  = _interval_worker interval_s count w.
Proof.
  unfold _interval_worker_among, _interval_worker.
  unfold bind at 1 3. unfold modify. unfold bind at 1 3.
  rewrite interval_loop_among_never. reflexivity.
Qed.

End IntervalAmong.

Arguments interval_loop_among : simpl never.

(** *** The passes of the loop *)

Lemma capture_events_spawns (m : nat) :
  (1 <= List.length (filter is_capture_spawn (locked (capture_events m)))
   <= 2)%nat.
Proof. destruct m as [|[|m]]; cbn; lia. Qed.

Lemma passes_acquisitions (e : Env) (interval_s : Q) (j : nat) :
  forall n, acquisitions (passes e interval_s n j) = j.
Proof.
  unfold acquisitions.
  induction j as [|j IH]; intros n; [reflexivity|].
  cbn [passes]. rewrite !filter_app, !length_app, IH.
  unfold pause.
  destruct (Qle_bool interval_s 0);
    destruct (fst (capture_outcome e n)) as [|[|m]]; reflexivity.
Qed.

Lemma passes_captures (e : Env) (interval_s : Q) (j : nat) :
  forall n,
    (j <= List.length (filter is_capture_spawn (passes e interval_s n j))
     <= 2 * j)%nat.
Proof.
  induction j as [|j IH]; intros n; [cbn; lia|].
  cbn [passes]. rewrite !filter_app, !length_app.
  pose proof (capture_events_spawns (fst (capture_outcome e n))) as H1.
  specialize (IH (n + fst (capture_outcome e n))%nat).
  assert (H2 : List.length (filter is_capture_spawn (pause interval_s))
               = 0%nat)
    by (unfold pause; destruct (Qle_bool interval_s 0); reflexivity).
  lia.
Qed.

(** The passes when every capture succeeds at its first attempt. *)
Lemma passes_first_try (e : Env) (interval_s : Q) (j : nat) :
  forall n,
    (forall i, (i < j)%nat -> exists out, gphoto e (n + i) = Returned out) ->
    captures_succeed e n j = true
    /\ passes e interval_s n j
       = List.concat (repeat (shot ++ pause interval_s) j).
Proof.
  induction j as [|j IH]; intros n Hok; [split; reflexivity|].
  destruct (Hok 0%nat) as [out H0]; [lia|]. rewrite Nat.add_0_r in H0.
  pose proof (capture_outcome_first_try _ _ H0) as Hc.
  destruct (IH (n + 1)%nat) as [I1 I2].
  { intros i Hi. replace (n + 1 + i)%nat with (n + S i)%nat by lia.
    apply Hok. lia. }
  cbn [captures_succeed passes repeat List.concat].
  rewrite Hc. cbn [fst snd]. rewrite I1, I2, <- app_assoc.
  split; reflexivity.
Qed.

Lemma pauses_capture_count (interval_s : Q) (n : nat) :
  List.length
    (filter is_capture_spawn
       (List.concat (repeat (shot ++ pause interval_s) n))) = n.
Proof.
  induction n as [|n IH]; [reflexivity|].
  cbn [repeat List.concat]. rewrite !filter_app, !length_app, IH.
  unfold pause. destruct (Qle_bool interval_s 0); reflexivity.
Qed.

Lemma pauses_sleeps (interval_s : Q) (n : nat) :
  sleeps (List.concat (repeat (shot ++ pause interval_s) n))
  = if Qle_bool interval_s 0 then [] else repeat interval_s n.
Proof.
  induction n as [|n IH].
  - destruct (Qle_bool interval_s 0); reflexivity.
  - cbn [repeat List.concat]. rewrite !sleeps_app, IH.
    unfold pause. destruct (Qle_bool interval_s 0); reflexivity.
Qed.

Section IntervalJob.
Variables (stop : nat -> bool) (interval_s : Q) (w : World).

(** The worker among stop requests: [j] shots, then the stop or the end of
    the count. *)
Lemma worker_among_run (n j : nat) :
  (j <= n)%nat ->
  (forall i, (i < j)%nat -> stop i = false) ->
  stop j = true \/ j = n ->
  ((0 < j)%nat -> interval_ok (env w) interval_s = true) ->
  captures_succeed (env w) (spawned w) j = true ->
  let job := _interval_worker_among stop interval_s (Z.of_nat n) in
  eval job w = true
  /\ events job w = passes (env w) interval_s (spawned w) j
  /\ interval_state (exec job w)
     = Build_IntervalState false interval_s (Z.of_nat (n - j)) (Z.of_nat n)
         None.
Proof.
  intros Hj Hstop Hend Hint Hok job.
  assert (H : eval job w = true
              /\ map snd (log (snd (job w)))
                 = rev (passes (env w) interval_s (spawned w) j)
                   ++ map snd (log w)
              /\ interval_state (exec job w)
                 = Build_IntervalState false interval_s (Z.of_nat (n - j))
                     (Z.of_nat n) None).
  { unfold job, _interval_worker_among. mstep. rewrite Nat2Z.id.
    match goal with
    | |- context [interval_loop_among ?st ?f ?k ?s ?w0] =>
        destruct (@interval_among_run st s j f k w0)
          as (R1 & R2 & R3 & R4 & R5 & R6 & R7);
        [lia | reflexivity | exact Hstop
        | cbn; destruct Hend as [Hs| ->]; [left; split; [exact Hs | lia]
                                          | right; reflexivity]
        | exact Hint | exact Hok |];
        destruct (interval_loop_among st f k s w0) as [left w']
    end.
    cbn in *. subst left. cbn. repeat split; auto.
    destruct (interval_state w') as [r i m t e]. cbn in *.
    subst. f_equal. lia. }
  destruct H as (H1 & H2 & H3).
  rewrite (events_of_log job w _ H2). auto.
Qed.

End IntervalJob.

(** X1.  A worker started for [n] shots with an interval that is not
    positive or that [time.sleep] accepts, on a camera that takes each of
    the [n] shots (at the first attempt or at the retry), makes exactly [n]
    captures, each under the lock and each followed by the pause, the last
    one included; it returns, and ends with [remaining] 0, [total] [n],
    no error and [running] false.  When every shot is taken at the first
    attempt, that is one capture subprocess a shot and, with a positive
    interval, [n] sleeps of the interval and no other. *)
Theorem interval_job_schedule (w : World) (n : nat) (interval_s : Q) :
  interval_ok (env w) interval_s = true ->
  captures_succeed (env w) (spawned w) n = true ->
  let job := _interval_worker interval_s (Z.of_nat n) in
  eval job w = true
  /\ events job w = passes (env w) interval_s (spawned w) n
  /\ acquisitions (events job w) = n
  /\ (n <= capture_invocations job w <= 2 * n)%nat
  /\ interval_state (exec job w)
     = Build_IntervalState false interval_s 0 (Z.of_nat n) None
  /\ ((forall i, (i < n)%nat ->
         exists out, gphoto (env w) (spawned w + i) = Returned out) ->
      events job w = List.concat (repeat (shot ++ pause interval_s) n)
      /\ capture_invocations job w = n
      /\ sleeps (events job w)
         = (if Qle_bool interval_s 0 then [] else repeat interval_s n)).
Proof.
  intros Hint Hok job.
  destruct (@worker_among_run never interval_s w n n)
    as (W1 & W2 & W3); auto.
  unfold job, capture_invocations, events, trace, eval, exec in *.
  rewrite <- !interval_worker_among_never.
  rewrite W1, W2, W3, Nat.sub_diag, passes_acquisitions.
  split; [reflexivity|]. split; [reflexivity|]. split; [reflexivity|].
  split; [apply passes_captures|]. split; [reflexivity|].
  intros Hfirst.
  destruct (@passes_first_try (env w) interval_s n (spawned w) Hfirst)
    as [_ ->].
  rewrite pauses_capture_count, pauses_sleeps. auto.
Qed.

(** Three shots, five seconds apart, the second taken at the retry. *)
Lemma interval_job_schedule_witness :
  let w := boot (scripted [Returned ""; busy] []) 100 in
  let job := _interval_worker 5 3 in
  interval_ok (env w) 5 = true
  /\ eval job w = true
  /\ events job w = passes (env w) 5 (spawned w) 3
  /\ acquisitions (events job w) = 3%nat
  /\ (3 <= capture_invocations job w <= 6)%nat
  /\ sleeps (events job w) = [5; delay; 5; 5]
  /\ interval_state (exec job w) = Build_IntervalState false 5 0 3 None.
Proof.
  split; [reflexivity|].
  destruct (@interval_job_schedule
              (boot (scripted [Returned ""; busy] []) 100) 3 5)
    as (H1 & H2 & H3 & H4 & H5 & _).
  - reflexivity.
  - reflexivity.
  - change (Z.of_nat 3) with 3%Z in *.
    split; [exact H1|]. split; [exact H2|]. split; [exact H3|].
    split; [exact H4|]. split; [|exact H5].
    rewrite H2. reflexivity.
Defined.

(** X2.  A stop request served before pass number [j] of the worker's
    loop, after [j] shots that the camera took, ends the job there: the
    [j] captures made so far are the only ones, [remaining] keeps the
    number of shots not taken and [running] is false.  (For [j > 0] the
    interval is one that is not positive or that [time.sleep] accepts.)  A
    stop request served before the worker thread has begun is lost, the
    worker setting [running] itself when it begins; and without stop
    requests the worker is [_interval_worker]. *)
Theorem interval_stop_ends_job (w : World) (interval_s : Q) :
  (forall stop n j,
     (j <= n)%nat ->
     (forall i, (i < j)%nat -> stop i = false) ->
     stop j = true ->
     ((0 < j)%nat -> interval_ok (env w) interval_s = true) ->
     captures_succeed (env w) (spawned w) j = true ->
     let job := _interval_worker_among stop interval_s (Z.of_nat n) in
     eval job w = true
     /\ events job w = passes (env w) interval_s (spawned w) j
     /\ acquisitions (events job w) = j
     /\ (j <= capture_invocations job w <= 2 * j)%nat
     /\ iv_running (interval_state (exec job w)) = false
     /\ iv_remaining (interval_state (exec job w)) = Z.of_nat (n - j))
  /\ (forall count,
        (interval_stop;; _interval_worker interval_s count) w
        = _interval_worker interval_s count w)
  /\ (forall count,
        _interval_worker_among never interval_s count w
        = _interval_worker interval_s count w).
Proof.
  split; [|split].
  - intros stop n j Hj Hstop Hs Hint Hok job.
    destruct (@worker_among_run stop interval_s w n j)
      as (W1 & W2 & W3); auto.
    subst job. unfold capture_invocations. rewrite W2, W3.
    rewrite passes_acquisitions.
    repeat split; auto; apply passes_captures.
  - intros count. unfold _interval_worker, interval_stop. mstep.
    reflexivity.
  - intros count. apply interval_worker_among_never.
Qed.

(** Five shots requested one second apart, stopped before the third. *)
Lemma interval_stop_ends_job_witness :
  let w := boot (scripted [] []) 100 in
  let job := _interval_worker_among (Nat.eqb 2) 1 5 in
  eval job w = true
  /\ events job w = passes (env w) 1 (spawned w) 2
  /\ acquisitions (events job w) = 2%nat
  /\ (2 <= capture_invocations job w <= 4)%nat
  /\ iv_running (interval_state (exec job w)) = false
  /\ iv_remaining (interval_state (exec job w)) = 3%Z.
Proof.
  apply (proj1 (interval_stop_ends_job (boot (scripted [] []) 100) 1)
           (Nat.eqb 2) 5%nat 2%nat).
  - lia.
  - intros i Hi. destruct i as [|[|i]]; [reflexivity | reflexivity | lia].
  - reflexivity.
  - reflexivity.
  - reflexivity.
Defined.

(** X3.  A worker started for [n > 0] shots with a positive interval that
    [time.sleep] refuses makes one capture and, when the camera took the
    shot, dies in the sleep that follows: it does not return, it makes no
    second capture, and it leaves [running] true with [remaining] [n - 1],
    so that the status shows a job running until a stop request clears
    [running]. *)
Theorem interval_worker_dies_in_sleep (w : World) (n : nat)
    (interval_s : Q) :
  (0 < n)%nat ->
  interval_ok (env w) interval_s = false ->
  snd (capture_outcome (env w) (spawned w)) = None ->
  let job := _interval_worker interval_s (Z.of_nat n) in
  eval job w = false
  /\ events job w
     = locked (capture_events (fst (capture_outcome (env w) (spawned w))))
  /\ acquisitions (events job w) = 1%nat
  /\ interval_state (exec job w)
     = Build_IntervalState true interval_s (Z.of_nat n - 1) (Z.of_nat n)
         None
  /\ iv_running (eval interval_status (exec job w)) = true
  /\ iv_running (interval_state (exec interval_stop (exec job w))) = false.
Proof.
  intros Hn Hint Hc job.
  set (w0 := set_interval_state
               (Build_IntervalState true interval_s (Z.of_nat n)
                  (Z.of_nat n) None) w).
  assert (Hpass : interval_pass interval_s w0
                  = (None, exec (after_capture 0)
                             (snd (with_cam_lock _capture_one w0)))).
  { apply interval_pass_died; auto. cbn. lia. }
  destruct (locked_capture_cases w0) as [Heff _].
  destruct Heff as [He Hl Himp Hcf Hr Hm Hsp Hlog Herr].
  destruct (locked_capture_keeps w0) as [Htot Hiv].
  change (env w0) with (env w) in *.
  change (spawned w0) with (spawned w) in *.
  change (log w0) with (log w) in *.
  rewrite Hc in Herr. cbn in Hr, Hm, Herr, Htot, Hiv.
  set (w1 := snd (with_cam_lock _capture_one w0)) in *.
  destruct (after_capture_state 0 w1) as (He2 & Hsp2 & Hst2).
  assert (Hlog2 : map snd (log (exec (after_capture 0) w1))
                  = map snd (log w1)).
  { unfold after_capture. mstep. reflexivity. }
  set (w2 := exec (after_capture 0) w1) in *.
  assert (Hjob : job w = (false, w2)).
  { unfold job, _interval_worker. unfold bind at 1. unfold modify.
    fold w0. rewrite Nat2Z.id. unfold bind at 1.
    rewrite interval_loop_S. unfold bind at 1. rewrite Hpass.
    reflexivity. }
  assert (Hev : events job w
                = locked (capture_events
                            (fst (capture_outcome (env w) (spawned w))))).
  { apply events_of_log. rewrite Hjob. cbn [snd]. rewrite Hlog2. exact Hlog. }
  unfold eval, exec, interval_status, interval_stop, set_iv_running in *.
  rewrite Hjob. cbn [fst snd]. rewrite Hev.
  split; [reflexivity|]. split; [reflexivity|].
  split; [destruct (fst (capture_outcome (env w) (spawned w))) as [|[|m]];
          reflexivity|].
  assert (Hstate : interval_state w2
                   = Build_IntervalState true interval_s (Z.of_nat n - 1)
                       (Z.of_nat n) None).
  { rewrite Hst2, Hr, Hm, Htot, Hiv, Herr. reflexivity. }
  split; [exact Hstate|]. unfold get, modify. cbn. rewrite Hstate.
  split; reflexivity.
Qed.

(** Three shots requested every ten thousand million seconds, which is
    beyond what [time.sleep] accepts. *)
Lemma interval_worker_dies_in_sleep_witness :
  let w := boot (scripted [] []) 100 in
  let job := _interval_worker 10000000000 3 in
  eval job w = false
  /\ events job w = shot
  /\ acquisitions (events job w) = 1%nat
  /\ interval_state (exec job w)
     = Build_IntervalState true 10000000000 2 3 None
  /\ iv_running (eval interval_status (exec job w)) = true
  /\ iv_running (interval_state (exec interval_stop (exec job w))) = false.
Proof.
  apply (@interval_worker_dies_in_sleep (boot (scripted [] []) 100) 3
           10000000000).
  - lia.
  - reflexivity.
  - reflexivity.
Defined.

(** ** The import job: status and counters *)

Lemma item_counts_refl w : item_counts w w 0.
Proof. split; auto; lia. Qed.

Lemma item_counts_trans w w1 w2 d1 d2 :
  item_counts w w1 d1 -> item_counts w1 w2 d2 ->
  item_counts w w2 (d1 + d2).
Proof.
  intros [Ea Ka Ta Da Aa] [Eb Kb Tb Db Ab].
  split; try congruence; lia.
Qed.

Section ImportItemCounts.
Variables (sr : bool) (dir : string) (item : CameraFile) (m : Z) (w : World).

Let r := import_item sr dir item m w.

Lemma import_item_counts :
  (forall msg, gphoto (env w) (spawned w) <> Raised msg) ->
  (fst (fst r) = Some Cancelled /\ item_counts w (snd r) 0)
  \/ (fst (fst r) = None /\ item_counts w (snd r) 1).
Proof.
  intros Hg. unfold r, import_item.
  destruct sr; unfold import_stop; mrun.
  - destruct (im_running (import_state w)) eqn:Hrun; mrun.
    + left. split; [reflexivity|]. split; cbn; auto; unfold accounted; cbn; lia.
    + destruct (import_cancel w) eqn:Hc; mrun.
      * left. split; [reflexivity|]. apply item_counts_refl.
      * rewrite Hrun. mrun. left. split; [reflexivity|].
        apply item_counts_refl.
  - destruct (import_cancel w) eqn:Hc; mrun.
    + left. split; [reflexivity|]. apply item_counts_refl.
    + destruct (im_running (import_state w)) eqn:Hrun; mrun.
      * right. destruct (gphoto (env w) (spawned w)) eqn:Hg0; mrun.
        -- match goal with |- context [if ?b then _ else _] => destruct b end;
             mrun; (split; [reflexivity|]);
             split; cbn; auto; unfold accounted; cbn; lia.
        -- split; [reflexivity|].
           split; cbn; auto; unfold accounted; cbn; lia.
        -- exfalso. eapply Hg; eauto.
      * left. split; [reflexivity|]. apply item_counts_refl.
Qed.

End ImportItemCounts.

Lemma import_loop_nil (stop : nat -> bool) (dir : string) (k : nat) (m : Z)
    (w : World) :
  import_loop stop dir k [] m w = ((Exhausted, m), w).
Proof. reflexivity. Qed.

Lemma import_loop_cons (stop : nat -> bool) (dir : string) (k : nat)
    (item : CameraFile) (rest : list CameraFile) (m : Z) :
  import_loop stop dir k (item :: rest) m
  = (r <- import_item (stop k) dir item m;;
     match r with
     | (Some ex, m') => ret (ex, m')
     | (None, m') => import_loop stop dir (S k) rest m'
     end).
Proof. reflexivity. Qed.

Section ImportLoopCounts.
Variables (stop : nat -> bool) (dir : string).

Lemma import_loop_counts selected :
  forall k m w,
    (forall i msg, gphoto (env w) i <> Raised msg) ->
    let r := import_loop stop dir k selected m w in
    exists d,
      item_counts w (snd r) d
      /\ (0 <= d <= Z.of_nat (List.length selected))%Z
      /\ (fst (fst r) = Exhausted /\ d = Z.of_nat (List.length selected)
          \/ fst (fst r) = Cancelled).
Proof.
  induction selected as [|item rest IH]; intros k m w Hg r; subst r.
  - exists 0%Z. rewrite import_loop_nil. cbn.
    split; [apply item_counts_refl|]. split; [lia|auto].
  - rewrite import_loop_cons. unfold bind.
    destruct (@import_item_counts (stop k) dir item m w) as [[Hex Hc]|[Hex Hc]];
      [intros msg; apply Hg | |];
      destruct (import_item (stop k) dir item m w) as [[ex m'] w1];
      cbn [fst snd] in Hex, Hc; subst ex.
    + exists 0%Z. cbn [fst snd ret]. split; [exact Hc|].
      split; [cbn [List.length]; lia | right; reflexivity].
    + destruct (IH (S k) m' w1) as (d & Hc' & Hd & Hend).
      { intros i msg. rewrite (ic_env Hc). apply Hg. }
      exists (1 + d)%Z. split; [eapply item_counts_trans; eauto|].
      split; [cbn [List.length]; lia|].
      destruct Hend as [[He Hd']|He]; [left|right]; auto.
      split; [exact He | cbn [List.length]; lia].
Qed.

End ImportLoopCounts.

Ltac if_cases :=
  repeat match goal with
         | |- context [if ?b then _ else _] => destruct b eqn:?; mrun
         end.

(** X4.  While an import runs, a second start request is refused and
    changes nothing.  However the worker ends (no file listed, nothing
    selected, run to the end, cancelled, crashed), it leaves [running]
    false, [current] empty and [finished_at] set to the time it ended, so
    that the next start request is accepted. *)
Theorem import_is_exclusive_and_restartable (w : World) :
  (forall mode session,
     im_running (import_state w) = true ->
     import_start mode session w = (false, w))
  /\ (forall stop mode session,
        let w' := exec (_import_worker stop mode session) w in
        im_running (import_state w') = false
        /\ im_current (import_state w') = None
        /\ im_finished_at (import_state w') = Some (clock w')
        /\ forall mode' session',
             eval (import_start mode' session') w' = true).
Proof.
  split.
  - intros mode session Hrun. unfold import_start. mrun. rewrite Hrun.
    reflexivity.
  - intros stop mode session.
    assert (H : let w' := exec (_import_worker stop mode session) w in
                im_running (import_state w') = false
                /\ im_current (import_state w') = None
                /\ im_finished_at (import_state w') = Some (clock w')).
    { unfold exec, _import_worker, _load_import_conf, _list_camera_files,
        import_finally.
      mrun.
      destruct (gphoto (env w) (spawned w)) as [out|o|msg]; mrun.
      - destruct (parse_listing (env w) out) as [|f files]; mrun.
        + auto.
        + match goal with
          | |- context [select ?md ?l ?fs] =>
              destruct (select md l fs) as [|s sel]
          end; mrun; [auto|].
          match goal with
          | |- context [import_loop ?st ?d ?k ?sl ?m ?w0] =>
              destruct (import_loop st d k sl m w0) as [[ex mx] w1]
          end.
          destruct ex; mrun; if_cases; auto.
      - auto.
      - if_cases; auto. }
    destruct H as (H1 & H2 & H3). cbn zeta. repeat split; auto.
    intros mode' session'. unfold import_start, eval. mrun.
    rewrite H1. reflexivity.
Qed.

(** X5.  For an import started while none runs, on a camera whose
    subprocesses end or fail but never raise another exception: at the
    end of the job every file counted as done is counted as imported, as
    skipped or as an error; [done] lies between 0 and [total]; and a job
    that runs to the end has [done] equal to [total]. *)
Theorem import_counters_add_up (w : World) (stop : nat -> bool)
    (mode : import_mode) (session : bool) :
  im_running (import_state w) = false ->
  (forall k msg, gphoto (env w) k <> Raised msg) ->
  let job := import_job stop mode session in
  let s := import_state (exec job w) in
  eval job w <> None
  /\ eval job w <> Some WorkerCrashed
  /\ im_done s = accounted s
  /\ (0 <= im_done s <= im_total s)%Z
  /\ (eval job w = Some RanToEnd -> im_done s = im_total s).
Proof.
  intros Hidle Hg.
  unfold import_job, import_start, eval, exec. mrun. rewrite Hidle. mrun.
  unfold _import_worker, _load_import_conf, _list_camera_files,
    import_finally.
  mrun.
  destruct (gphoto (env w) (spawned w)) as [out|o|msg] eqn:Hl; mrun.
  - destruct (parse_listing (env w) out) as [|f files]; mrun.
    + unfold accounted. cbn. repeat split; try discriminate; lia.
    + match goal with
      | |- context [select ?md ?l ?fs] =>
          destruct (select md l fs) as [|s sel]
      end; mrun.
      * unfold accounted. cbn. repeat split; try discriminate; lia.
      * match goal with
        | |- context [import_loop ?st ?d ?k ?sl ?m ?w0] =>
            destruct (@import_loop_counts st d sl k m w0)
              as (dd & Hc & Hd & Hend);
            [intros i msg; cbn; apply Hg|];
            destruct (import_loop st d k sl m w0) as [[ex mx] w1]
        end.
        cbn [fst snd] in Hc, Hend.
        destruct Hc as [He Hk Ht Hdn Hac]. cbn in Ht, Hdn, Hac, Hd, Hend.
        unfold accounted in Hac. cbn in Hac.
        destruct Hend as [[Hex Hdd]| Hex]; subst ex; mrun; if_cases;
          unfold accounted; cbn;
          repeat split; try discriminate; try lia.
  - unfold accounted. cbn. repeat split; try discriminate; lia.
  - exfalso. eapply Hg; eauto.
Qed.

(** An import of the example card with one transfer that fails. *)
Lemma import_counters_add_up_witness :
  let w := set_IMPORT_CONF (Some 5%Z)
             (boot (scripted [Returned ""; Returned ""; bad_usage] card) 100) in
  let job := import_job never mode_new true in
  let s := import_state (exec job w) in
  eval job w <> None
  /\ eval job w <> Some WorkerCrashed
  /\ im_done s = accounted s
  /\ (0 <= im_done s <= im_total s)%Z
  /\ (eval job w = Some RanToEnd -> im_done s = im_total s).
Proof.
  apply (@import_counters_add_up
           (set_IMPORT_CONF (Some 5%Z)
              (boot (scripted [Returned ""; Returned ""; bad_usage] card) 100))
           never mode_new true).
  - reflexivity.
  - intros k msg.
    destruct k as [|[|[|k]]]; cbn; try discriminate.
    destruct k; discriminate.
Defined.

Section ImportCancelStatus.
Variables (stop : nat -> bool) (dir : string).

Lemma import_item_proceeds (item : CameraFile) (m : Z) (w : World) :
  import_cancel w = false ->
  im_running (import_state w) = true ->
  (forall msg, gphoto (env w) (spawned w) <> Raised msg) ->
  let r := import_item false dir item m w in
  fst (fst r) = None
  /\ import_cancel (snd r) = false
  /\ im_running (import_state (snd r)) = true
  /\ env (snd r) = env w
  /\ spawned (snd r) = S (spawned w)
  /\ clock (snd r) = clock w.
Proof.
  intros Hc Hrun Hg. unfold import_item. mrun. rewrite Hc, Hrun. mrun.
  destruct (gphoto (env w) (spawned w)) eqn:Hg0; mrun.
  - if_cases; auto 10.
  - auto 10.
  - exfalso. eapply Hg; eauto.
Qed.

Lemma import_item_stopped (item : CameraFile) (m : Z) (w : World) :
  im_running (import_state w) = true ->
  let r := import_item true dir item m w in
  fst (fst r) = Some Cancelled
  /\ import_cancel (snd r) = true
  /\ im_last_error (import_state (snd r)) = Some "cancel requested"%string
  /\ clock (snd r) = clock w.
Proof.
  intros Hrun. unfold import_item, import_stop. mrun. rewrite Hrun. mrun.
  auto.
Qed.

(** The flags left by a stop request served before file number [n]. *)
Lemma import_loop_cancel_state (n : nat) :
  forall selected k m w,
    (n < List.length selected)%nat ->
    (forall i, (i < n)%nat -> stop (k + i) = false) ->
    stop (k + n) = true ->
    import_cancel w = false ->
    im_running (import_state w) = true ->
    (forall i msg, (i < n)%nat ->
                   gphoto (env w) (spawned w + i) <> Raised msg) ->
    let r := import_loop stop dir k selected m w in
    fst (fst r) = Cancelled
    /\ import_cancel (snd r) = true
    /\ im_last_error (import_state (snd r))
       = Some "cancel requested"%string
    /\ clock (snd r) = clock w.
Proof.
  induction n as [|n IH]; intros selected k m w Hlen Hstop Hn Hc Hrun Hraise r;
    subst r;
    (destruct selected as [|item rest]; [simpl in Hlen; lia|]);
    rewrite import_loop_cons; unfold bind.
  - rewrite Nat.add_0_r in Hn. rewrite Hn.
    destruct (@import_item_stopped item m w Hrun) as (H1 & H2 & H3 & H4).
    destruct (import_item true dir item m w) as [[ex m'] w1].
    cbn [fst snd] in *. subst ex. cbn. auto.
  - assert (Hk : stop k = false).
    { specialize (Hstop 0%nat). rewrite Nat.add_0_r in Hstop.
      apply Hstop. lia. }
    rewrite Hk.
    destruct (@import_item_proceeds item m w Hc Hrun)
      as (H1 & H2 & H3 & H4 & H5 & H6).
    { intros msg. specialize (Hraise 0%nat msg).
      rewrite Nat.add_0_r in Hraise. apply Hraise. lia. }
    destruct (import_item false dir item m w) as [[ex m'] w1].
    cbn [fst snd] in *. subst ex.
    destruct (IH rest (S k) m' w1) as (R1 & R2 & R3 & R4); auto.
    + simpl in Hlen. lia.
    + intros i Hi. replace (S k + i)%nat with (k + S i)%nat by lia.
      apply Hstop. lia.
    + replace (S k + n)%nat with (k + S n)%nat by lia. exact Hn.
    + intros i msg Hi. rewrite H4, H5.
      replace (S (spawned w) + i)%nat with (spawned w + S i)%nat by lia.
      apply Hraise. lia.
    + repeat split; auto. congruence.
Qed.

End ImportCancelStatus.

Section ImportCancelledStatus.
Variables (stop : nat -> bool) (mode : import_mode) (session : bool)
  (n : nat) (out : string).

(** X6.  When a stop request is served just before file number [n] of
    the selection, the job ends with [running] false, [current] empty,
    [finished_at] set to the time of the end, and [last_error] reading
    "cancel requested", the text written by the stop request: the worker
    writes its own "cancelled by user" only over an empty error.  The
    cancellation flag stays set. *)
Theorem cancelled_import_status (w : World) :
  import_cancel w = false ->
  im_running (import_state w) = true ->
  gphoto (env w) (spawned w) = Returned out ->
  (n < List.length (select mode (last_index w) (parse_listing (env w) out)))%nat ->
  (forall i, (i < n)%nat -> stop i = false) ->
  stop n = true ->
  (forall i msg, (i < n)%nat ->
                 gphoto (env w) (S (spawned w) + i) <> Raised msg) ->
  let w' := exec (_import_worker stop mode session) w in
  im_running (import_state w') = false
  /\ im_current (import_state w') = None
  /\ im_finished_at (import_state w') = Some (clock w)
  /\ im_last_error (import_state w') = Some "cancel requested"%string
  /\ import_cancel w' = true.
Proof.
  intros Hc Hrun Hlist Hlen Hstop Hn Hraise.
  assert (Hfiles : parse_listing (env w) out <> []).
  { intros E. rewrite E in Hlen. destruct mode; simpl in Hlen; lia. }
  unfold exec, _import_worker, _load_import_conf, _list_camera_files,
    import_finally.
  mrun. rewrite Hlist. mrun.
  destruct (parse_listing (env w) out) as [|f files] eqn:Hparse;
    [congruence|].
  fold (last_index w).
  destruct (select mode (last_index w) (f :: files)) as [|s sel] eqn:Hsel;
    [simpl in Hlen; lia|].
  mrun.
  match goal with
  | |- context [import_loop ?st ?d ?k ?sl ?m ?w0] =>
      destruct (@import_loop_cancel_state st d n sl k m w0)
        as (R1 & R2 & R3 & R4); auto;
      destruct (import_loop st d k sl m w0) as [[ex mx] w1]
  end.
  cbn [fst snd] in R1, R2, R3, R4. subst ex. cbn in R4.
  mrun. rewrite R3. cbn. rewrite R4. auto.
Qed.

End ImportCancelledStatus.

(** The example card, the import stopped before its second file. *)
Lemma cancelled_import_status_witness :
  let w := import_started [] in
  let w' := exec (_import_worker (Nat.eqb 1) mode_new true) w in
  im_running (import_state w') = false
  /\ im_current (import_state w') = None
  /\ im_finished_at (import_state w') = Some (clock w)
  /\ im_last_error (import_state w') = Some "cancel requested"%string
  /\ import_cancel w' = true.
Proof.
  apply (@cancelled_import_status (Nat.eqb 1) mode_new true 1 ""
           (import_started [])).
  - reflexivity.
  - reflexivity.
  - reflexivity.
  - vm_compute. lia.
  - intros i Hi. destruct i as [|i]; [reflexivity | lia].
  - reflexivity.
  - intros i msg Hi. destruct i as [|i]; [discriminate | lia].
Defined.

(** ** The preview card sync *)

Module PreviewFacts.
Import Preview.

Local Open Scope Z_scope.

(** [max_by] returns the first element whose key is largest. *)
Lemma max_by_spec (key : CameraFile -> Z) (rest : list CameraFile) :
  forall best,
    let m := max_by key best rest in
    (forall f, In f (best :: rest) -> key f <= key m)
    /\ exists l1 l2,
         best :: rest = l1 ++ m :: l2
         /\ forall f, In f l1 -> key f < key m.
Proof.
  induction rest as [|f rest IH]; intros best m; subst m.
  - cbn. split.
    + intros g [<-|[]]. lia.
    + exists [], []. split; [reflexivity | intros g []].
  - cbn [max_by].
    destruct (IH (if key f >? key best then f else best))
      as (Hmax & l1 & l2 & Hsplit & Hfirst).
    set (m := max_by key (if key f >? key best then f else best) rest) in *.
    destruct (key f >? key best) eqn:E.
    + apply Z.gtb_lt in E.
      assert (Hf : key f <= key m) by (apply Hmax; left; reflexivity).
      split.
      * intros g [<-|Hg]; [lia | apply Hmax; exact Hg].
      * exists (best :: l1), l2. split; [cbn; rewrite Hsplit; reflexivity|].
        intros g [<-|Hg]; [lia | apply Hfirst; exact Hg].
    + assert (E' : key f <= key best)
        by (rewrite Z.gtb_ltb in E; apply Z.ltb_ge in E; exact E).
      assert (Hb : key best <= key m) by (apply Hmax; left; reflexivity).
      split.
      * intros g [<-|[<-|Hg]]; [lia | lia | apply Hmax; right; exact Hg].
      * destruct l1 as [|b l1'].
        -- cbn in Hsplit. injection Hsplit as Hm Hl2.
           exists [], (f :: rest). split; [cbn; rewrite <- Hm; reflexivity|].
           intros g [].
        -- cbn in Hsplit. injection Hsplit as Hb' Hrest. subst b.
           exists (best :: f :: l1'), l2.
           split; [cbn; rewrite Hrest; reflexivity|].
           assert (Hlt : key best < key m)
             by (apply Hfirst; left; reflexivity).
           intros g [<-|[<-|Hg]]; [lia | lia | apply Hfirst; right; exact Hg].
Qed.

Lemma max_by_in (key : CameraFile -> Z) (best : CameraFile)
    (rest : list CameraFile) :
  In (max_by key best rest) (best :: rest).
Proof.
  destruct (max_by_spec key rest best) as (_ & l1 & l2 & H & _).
  rewrite H. apply in_elt.
Qed.

Section Target.
Variables (cfg : Conf) (stills : list CameraFile).

(** The choice made when a still carries a timestamp. *)
Lemma target_by_ts (t : CameraFile) :
  existsb has_ts stills = true ->
  target cfg stills = Some t ->
  In t stills /\ has_ts t = true /\ last_ts cfg < ts_of t
  /\ forall f, In f stills -> has_ts f = true -> ts_of f <= ts_of t.
Proof.
  intros Hmode. unfold target, newer. rewrite Hmode.
  destruct (filter _ stills) as [|b rest] eqn:Hnew; [discriminate|].
  intros [= <-].
  pose proof (max_by_in ts_of b rest) as Hin. rewrite <- Hnew in Hin.
  apply filter_In in Hin. destruct Hin as [Hin Hc].
  apply andb_true_iff in Hc. destruct Hc as [Hts Hgt].
  apply Z.gtb_lt in Hgt.
  repeat split; auto.
  intros f Hf Hfts.
  destruct (ts_of f >? last_ts cfg) eqn:E.
  - destruct (max_by_spec ts_of rest b) as (Hmax & _).
    apply Hmax. rewrite <- Hnew. apply filter_In. split; [exact Hf|].
    rewrite Hfts, E. reflexivity.
  - rewrite Z.gtb_ltb in E. apply Z.ltb_ge in E. lia.
Qed.

(** The choice made when no still carries a timestamp. *)
Lemma target_by_index (t : CameraFile) :
  existsb has_ts stills = false ->
  target cfg stills = Some t ->
  In t stills /\ last_index cfg < index t
  /\ forall f, In f stills -> index f <= index t.
Proof.
  intros Hmode. unfold target, newer. rewrite Hmode.
  destruct (filter _ stills) as [|b rest] eqn:Hnew; [discriminate|].
  intros [= <-].
  pose proof (max_by_in index b rest) as Hin. rewrite <- Hnew in Hin.
  apply filter_In in Hin. destruct Hin as [Hin Hgt].
  apply Z.gtb_lt in Hgt.
  repeat split; auto.
  intros f Hf.
  destruct (index f >? last_index cfg) eqn:E.
  - destruct (max_by_spec index rest b) as (Hmax & _).
    apply Hmax. rewrite <- Hnew. apply filter_In. split; [exact Hf|exact E].
  - rewrite Z.gtb_ltb in E. apply Z.ltb_ge in E. lia.
Qed.

Lemma target_none :
  target cfg stills = None <-> newer cfg stills = [].
Proof.
  unfold target. destruct (newer cfg stills); split; congruence.
Qed.

End Target.

Lemma filter_nil_iff (A : Type) (p : A -> bool) (l : list A) :
  filter p l = [] <-> forall x, In x l -> p x = false.
Proof.
  induction l as [|a l IH]; cbn.
  - split; [intros _ x [] | reflexivity].
  - destruct (p a) eqn:E; split.
    + discriminate.
    + intros H. specialize (H a (or_introl eq_refl)). congruence.
    + intros H x [<-|Hx]; [exact E | apply IH; auto].
    + intros H. apply IH. intros x Hx. apply H. right. exact Hx.
Qed.

(** Once the target is recorded, nothing on the same card is new. *)
Lemma target_after_mirror (cfg : Conf) (stills : list CameraFile)
    (t : CameraFile) :
  target cfg stills = Some t ->
  target (mirrored cfg t) stills = None.
Proof.
  intros Ht. apply target_none. unfold newer.
  destruct (existsb has_ts stills) eqn:Hmode.
  - destruct (target_by_ts cfg stills Hmode Ht) as (_ & Hts & _ & Hmax).
    apply filter_nil_iff. intros f Hf. cbn. rewrite Hts.
    destruct (has_ts f) eqn:Hfts; [cbn|reflexivity].
    specialize (Hmax f Hf Hfts).
    rewrite Z.gtb_ltb. apply Z.ltb_ge. exact Hmax.
  - destruct (target_by_index cfg stills Hmode Ht) as (_ & _ & Hmax).
    apply filter_nil_iff. intros f Hf. cbn.
    specialize (Hmax f Hf).
    rewrite Z.gtb_ltb. apply Z.ltb_ge. exact Hmax.
Qed.

End PreviewFacts.

(** X7.  The file the preview sync chooses to mirror.  When some still on
    the card carries a timestamp, it is a still with a timestamp later than
    the recorded one, and no still carries a later timestamp; when none
    does, it is a still with an index above the recorded one, and no still
    has a larger index.  Nothing is chosen exactly when no still is new in
    this sense. *)
Theorem preview_target_is_newest (cfg : Preview.Conf)
    (stills : list CameraFile) :
  (existsb Preview.has_ts stills = true ->
   (forall t, Preview.target cfg stills = Some t ->
      In t stills /\ Preview.has_ts t = true
      /\ (Preview.last_ts cfg < Preview.ts_of t)%Z
      /\ forall f, In f stills -> Preview.has_ts f = true ->
                   (Preview.ts_of f <= Preview.ts_of t)%Z)
   /\ (Preview.target cfg stills = None
       <-> forall f, In f stills -> Preview.has_ts f = true ->
                     (Preview.ts_of f <= Preview.last_ts cfg)%Z))
  /\ (existsb Preview.has_ts stills = false ->
      (forall t, Preview.target cfg stills = Some t ->
         In t stills /\ (Preview.last_index cfg < index t)%Z
         /\ forall f, In f stills -> (index f <= index t)%Z)
      /\ (Preview.target cfg stills = None
          <-> forall f, In f stills ->
                        (index f <= Preview.last_index cfg)%Z)).
Proof.
  split; intros Hmode; (split; [intros t Ht|]).
  - apply PreviewFacts.target_by_ts; assumption.
  - rewrite PreviewFacts.target_none. unfold Preview.newer. rewrite Hmode.
    rewrite PreviewFacts.filter_nil_iff. split.
    + intros H f Hf Hts. specialize (H f Hf). cbn in H. rewrite Hts in H.
      cbn in H. rewrite Z.gtb_ltb in H. apply Z.ltb_ge in H. exact H.
    + intros H f Hf. destruct (Preview.has_ts f) eqn:Hts; [cbn|reflexivity].
      rewrite Z.gtb_ltb. apply Z.ltb_ge. auto.
  - apply PreviewFacts.target_by_index; assumption.
  - rewrite PreviewFacts.target_none. unfold Preview.newer. rewrite Hmode.
    rewrite PreviewFacts.filter_nil_iff. split.
    + intros H f Hf. specialize (H f Hf). cbn in H.
      rewrite Z.gtb_ltb in H. apply Z.ltb_ge in H. exact H.
    + intros H f Hf. rewrite Z.gtb_ltb. apply Z.ltb_ge. auto.
Qed.

Lemma preview_target_is_newest_witness :
  let stills := filter Preview.is_still dated_card in
  let t := stamped 5 "IMG_0005.CR2" 1700000200 in
  In t stills /\ Preview.has_ts t = true
  /\ (Preview.last_ts seen_100 < Preview.ts_of t)%Z
  /\ forall f, In f stills -> Preview.has_ts f = true ->
               (Preview.ts_of f <= Preview.ts_of t)%Z.
Proof.
  apply (proj1 (proj1 (preview_target_is_newest seen_100
                         (filter Preview.is_still dated_card))
                  eq_refl)).
  reflexivity.
Defined.

Arguments Preview.target : simpl never.
Arguments Preview.is_still : simpl never.
Arguments preview_fetch : simpl never.

Ltac settle :=
  repeat split; intros; try discriminate; try (exfalso; congruence);
  try apply Z.le_refl; try reflexivity; auto.

Lemma preview_fetch_log (idx : Z) (pattern : string) (w0 : World) :
  exists l,
    log (snd (preview_fetch idx pattern w0)) = l ++ log w0
    /\ Pool.guarded (map snd (rev l))
    /\ env (snd (preview_fetch idx pattern w0)) = env w0.
Proof.
  unfold preview_fetch, sync_attempts.
  sync_cases; try rewrite andb_false_r; mrun;
    give_prefix; repeat split; reflexivity.
Qed.

Section PreviewSync.
Variables (s : Preview.Store) (w : World).

Local Arguments filter : simpl never.

Let cfg := Preview._load_preview_conf s.
Let poll := Preview._pull_latest_from_camera_for_preview s.

(** The files listed to a poll started in [w]. *)
Let listed : list CameraFile :=
  match gphoto (env w) (spawned w) with
  | Returned out => parse_listing (env w) out
  | _ => []
  end.

Lemma mirrored_keeps_order (f : CameraFile) :
  Preview.target cfg (filter Preview.is_still listed) = Some f ->
  let s' := snd (Preview._save_preview_conf (Preview.mirrored cfg f) s) in
  (Preview.last_ts cfg
   <= Preview.last_ts (Preview._load_preview_conf s'))%Z
  /\ Preview.enabled (Preview._load_preview_conf s') = Preview.enabled cfg.
Proof.
  intros Ht. unfold Preview._save_preview_conf.
  destruct (Preview.writable s); cbn [snd];
    [|split; [apply Z.le_refl|reflexivity]].
  unfold Preview._load_preview_conf, Preview.mirrored.
  cbn [Preview.content Preview.last_ts Preview.enabled].
  split; [|reflexivity].
  destruct (Preview.has_ts f) eqn:Hts; [|apply Z.le_refl].
  destruct (existsb Preview.has_ts (filter Preview.is_still listed))
    eqn:Hmode.
  - destruct (PreviewFacts.target_by_ts _ _ Hmode Ht) as (_ & _ & Hlt & _).
    apply Z.lt_le_incl. exact Hlt.
  - destruct (PreviewFacts.target_by_index _ _ Hmode Ht) as (Hin & _).
    exfalso.
    assert (E : existsb Preview.has_ts (filter Preview.is_still listed)
                = true)
      by (apply existsb_exists; exists f; auto).
    congruence.
Qed.

Lemma poll_cases :
  exists l,
    log (snd (poll w)) = l ++ log w
    /\ Pool.guarded (map snd (rev l))
    /\ env (snd (poll w)) = env w
    /\ ((forall f, fst (fst (poll w)) <> Preview.Mirrored f)
        -> snd (fst (poll w)) = s)
    /\ (forall f, fst (fst (poll w)) = Preview.Mirrored f ->
          Preview.target cfg (filter Preview.is_still listed) = Some f
          /\ snd (fst (poll w))
             = snd (Preview._save_preview_conf (Preview.mirrored cfg f) s))
    /\ (forall f, fst (fst (poll w)) = Preview.Mirrored f ->
          Preview.enabled cfg = true).
Proof.
  unfold poll, Preview._pull_latest_from_camera_for_preview,
    _list_camera_files, listed.
  fold cfg.
  destruct (Preview.enabled cfg) eqn:Hen; cbn [negb].
  2:{ exists []. settle. }
  mrun.
  destruct (gphoto (env w) (spawned w)) as [out|o|msg] eqn:Hl; mrun.
  2:{ give_prefix. settle. }
  2:{ give_prefix. settle. }
  destruct (parse_listing (env w) out) as [|f0 files] eqn:Hp; mrun.
  { give_prefix. settle. }
  destruct (filter Preview.is_still (f0 :: files)) as [|s0 stills] eqn:Hst;
    mrun.
  { give_prefix. settle. }
  destruct (Preview.target cfg (s0 :: stills)) as [t|] eqn:Ht; mrun.
  2:{ give_prefix. settle. }
  match goal with
  | |- context [preview_fetch ?i ?p ?w0] =>
      destruct (@preview_fetch_log i p w0) as (lf & Hlog & Hg & He);
      destruct (preview_fetch i p w0) as [ok w1]
  end.
  cbn [fst snd] in Hlog, Hg, He. cbn in Hlog, He.
  exists (lf ++ [(clock w, EvRelease); (clock w, EvExit);
                 (clock w, EvSpawn list_files); (clock w, EvAcquire)]).
  destruct ok; cbn [fst snd]; (split; [rewrite Hlog, <- app_assoc; reflexivity|]);
    (split; [rewrite rev_app_distr, map_app;
             apply PoolFacts.guarded_app; [reflexivity | exact Hg]|]);
    (split; [exact He|]); settle;
    try match goal with
        | H : forall f, Preview.Mirrored ?t <> Preview.Mirrored f |- _ =>
            exfalso; apply (H t); reflexivity
        | H : Preview.Mirrored _ = Preview.Mirrored _ |- _ =>
            injection H as ->; reflexivity
        end.
Qed.



End PreviewSync.


Section PreviewNothingNewer.
Variables (s : Preview.Store) (w : World).

Local Arguments filter : simpl never.

Lemma poll_nothing_newer (out : string) (f0 s0 : CameraFile)
    (files stills : list CameraFile) :
  Preview.enabled (Preview._load_preview_conf s) = true ->
  gphoto (env w) (spawned w) = Returned out ->
  parse_listing (env w) out = f0 :: files ->
  filter Preview.is_still (f0 :: files) = s0 :: stills ->
  Preview.target (Preview._load_preview_conf s) (s0 :: stills) = None ->
  eval (Preview._pull_latest_from_camera_for_preview s) w
  = (Preview.NothingNewer, s)
  /\ events (Preview._pull_latest_from_camera_for_preview s) w = listing.
Proof.
  intros Hen Hl Hp Hst Hnone.
  unfold Preview._pull_latest_from_camera_for_preview, _list_camera_files,
    eval, events, trace, exec.
  rewrite Hen. cbn [negb].
  mrun. rewrite Hl. mrun. rewrite Hp. mrun. rewrite Hst, Hnone. mrun.
  newlog. split; reflexivity.
Qed.

End PreviewNothingNewer.

Section PreviewTwice.
Variables (s : Preview.Store) (w : World).

Local Arguments filter : simpl never.

Let poll := Preview._pull_latest_from_camera_for_preview.
Let r1 := eval (poll s) w.
Let w1 := exec (poll s) w.

(** X10.  A file is mirrored once.  After a poll that mirrored a file and
    recorded it in preview.json, the next poll, when the card lists the
    same files, finds nothing new: it runs the listing and no transfer,
    and leaves preview.json as it is. *)
Theorem preview_sync_mirrors_once (out1 out2 : string) (f : CameraFile) :
  Preview.writable s = true ->
  fst r1 = Preview.Mirrored f ->
  gphoto (env w) (spawned w) = Returned out1 ->
  gphoto (env w1) (spawned w1) = Returned out2 ->
  parse_listing (env w) out2 = parse_listing (env w) out1 ->
  eval (poll (snd r1)) w1 = (Preview.NothingNewer, snd r1)
  /\ events (poll (snd r1)) w1 = listing.
Proof.
  intros Hw Hm Hl1 Hl2 Hsame.
  destruct (poll_cases s w) as (l & _ & _ & He & _ & Hmir & Hen).
  unfold r1, eval, poll in Hm.
  destruct (Hmir f Hm) as [Ht Hs]. specialize (Hen f Hm).
  rewrite Hl1 in Ht.
  assert (Hne : exists f0 files, parse_listing (env w) out1 = f0 :: files).
  { destruct (parse_listing (env w) out1) as [|f0 files]; eauto.
    discriminate. }
  destruct Hne as (f0 & files & Hp). rewrite Hp in Ht, Hsame.
  assert (Hst : exists s0 stills,
             filter Preview.is_still (f0 :: files) = s0 :: stills).
  { destruct (filter Preview.is_still (f0 :: files)) as [|s0 stills]; eauto.
    discriminate. }
  destruct Hst as (s0 & stills & Hst). rewrite Hst in Ht.
  pose proof (PreviewFacts.target_after_mirror _ _ Ht) as Hnone.
  assert (Hs1 : snd r1
                = {| Preview.content :=
                       Some (Preview.mirrored (Preview._load_preview_conf s) f);
                     Preview.writable := true |}).
  { unfold r1, eval, poll. rewrite Hs.
    unfold Preview._save_preview_conf. rewrite Hw. reflexivity. }
  rewrite Hs1. unfold poll.
  apply poll_nothing_newer with (out := out2) (f0 := f0) (s0 := s0)
    (files := files) (stills := stills).
  - exact Hen.
  - exact Hl2.
  - unfold w1, exec, poll. rewrite He. exact Hsame.
  - exact Hst.
  - exact Hnone.
Qed.

End PreviewTwice.

Lemma preview_sync_mirrors_once_witness :
  let w := boot (scripted [] dated_card) 100 in
  let poll := Preview._pull_latest_from_camera_for_preview in
  let r1 := eval (poll seen_store) w in
  let w1 := exec (poll seen_store) w in
  eval (poll (snd r1)) w1 = (Preview.NothingNewer, snd r1)
  /\ events (poll (snd r1)) w1 = listing.
Proof.
  apply (@preview_sync_mirrors_once seen_store
           (boot (scripted [] dated_card) 100) "" ""
           (stamped 5 "IMG_0005.CR2" 1700000200));
    reflexivity.
Defined.



(** ** Quick settings, presets and status values *)

Module SettingsFacts.
Import Settings.

Local Open Scope request_scope.

Ltac rrun :=
  repeat (unfold andthen, pure, raise, read, update, check_output,
            with_cam_lock, _gp_get_config_safe;
          cbn).

(** A lock that is held stays held: whoever asks for it waits. *)
Lemma held_lock_blocks (A : Type) (body : R A) (s : Session) :
  cam_lock s = true ->
  with_cam_lock body s = (Blocked, record Wait s).
Proof. intros H. unfold with_cam_lock. rewrite H. reflexivity. Qed.

Lemma get_config_blocks (key : string) (s : Session) :
  cam_lock s = true ->
  _gp_get_config_safe key s = (Blocked, record Wait s).
Proof.
  intros H. unfold _gp_get_config_safe, andthen.
  rewrite held_lock_blocks by exact H. reflexivity.
Qed.

(** What [_gp_set_value_or_index] does when its caller holds the lock. *)
Lemma set_value_under_lock (key val : string) (s : Session) :
  cam_lock s = true ->
  let s1 := set_started (S (started s)) (record (Run (set_config key val)) s)
  in
  _gp_set_value_or_index key val s
  = match camera s (started s) with
    | Returned _ => (Value true, s1)
    | CalledProcessError _ => (Blocked, record Wait s1)
    | Raised msg => (Exception msg, s1)
    end.
Proof.
  intros H. unfold _gp_set_value_or_index, andthen at 1, check_output.
  destruct (camera s (started s)) as [out|o|msg]; try reflexivity.
  unfold andthen. rewrite get_config_blocks by exact H. reflexivity.
Qed.

Lemma steps_of_journal (A : Type) (m : R A) (s : Session) (l : list step) :
  journal (snd (m s)) = l ++ journal s -> steps m s = rev l.
Proof.
  intros H. unfold steps. rewrite H, added_app. reflexivity.
Qed.

Lemma ran_fields (cmds : list command) (s : Session) :
  camera (ran cmds s) = camera s
  /\ started (ran cmds s) = (started s + List.length cmds)%nat
  /\ cam_lock (ran cmds s) = cam_lock s
  /\ QUICK_ACTIVE_KEY (ran cmds s) = QUICK_ACTIVE_KEY s
  /\ _last_status_cache (ran cmds s) = _last_status_cache s
  /\ journal (ran cmds s) = (rev (map Run cmds) ++ journal s)%list.
Proof.
  revert s. induction cmds as [|c cmds IH]; intros s; cbn [ran].
  - cbn. rewrite Nat.add_0_r. auto 10.
  - destruct (IH (set_started (S (started s)) (record (Run c) s)))
      as (H1 & H2 & H3 & H4 & H5 & H6).
    rewrite H1, H2, H3, H4, H5, H6. cbn.
    repeat split; try lia.
    rewrite <- app_assoc. reflexivity.
Qed.

(** The loop of [api_presets_apply], run with the lock held: the items
    are set until gphoto2 rejects one. *)
Lemma apply_items_under_lock (items : dict string) :
  forall applied failed s,
    cam_lock s = true ->
    let j := accepted (camera s) (started s) (List.length items) in
    apply_items items applied failed s
    = if (j =? List.length items)%nat
      then (Value ((applied ++ items)%list, failed),
            ran (map set_item items) s)
      else
        let s' := ran (map set_item (firstn (S j) items)) s in
        match camera s (started s + j) with
        | Raised msg => (Exception msg, s')
        | _ => (Blocked, record Wait s')
        end.
Proof.
  induction items as [|[key val] items IH]; intros applied failed s Hheld.
  - cbn. rewrite app_nil_r. reflexivity.
  - cbn [apply_items]. unfold andthen.
    rewrite set_value_under_lock by exact Hheld.
    cbn [List.length accepted].
    destruct (camera s (started s)) as [out|o|msg] eqn:H0.
    + cbn [negb]. rewrite IH by exact Hheld.
      cbn [camera started set_started record].
      set (j := accepted (camera s) (S (started s)) (List.length items)).
      cbn [Nat.eqb]. rewrite <- app_assoc. cbn [app].
      destruct (j =? List.length items)%nat; [reflexivity|].
      cbn [firstn map ran]. unfold set_item at 2 4 6. cbn [fst snd].
      replace (started s + S j)%nat with (S (started s) + j)%nat by lia.
      reflexivity.
    + cbn [Nat.eqb firstn map ran]. rewrite Nat.add_0_r, H0. reflexivity.
    + cbn [Nat.eqb firstn map ran]. rewrite Nat.add_0_r, H0. reflexivity.
Qed.

Lemma accepted_le (camera : nat -> completed) (n : nat) :
  forall k, (accepted camera k n <= n)%nat.
Proof.
  induction n as [|n IH]; intros k; cbn; [lia|].
  destruct (camera k); try lia. specialize (IH (S k)). lia.
Qed.

(** The count of subprocesses that return, from what they do. *)
Lemma accepted_spec (camera : nat -> completed) (n : nat) :
  forall k j,
    (j <= n)%nat ->
    (forall i, (i < j)%nat -> exists out, camera (k + i)%nat = Returned out) ->
    (j = n \/ forall out, camera (k + j)%nat <> Returned out) ->
    accepted camera k n = j.
Proof.
  induction n as [|n IH]; intros k j Hj Hok Hend; cbn.
  - lia.
  - destruct j as [|j].
    + destruct Hend as [Hend|Hend]; [lia|].
      rewrite Nat.add_0_r in Hend.
      destruct (camera k) as [out| |]; auto. exfalso. eapply Hend; eauto.
    + destruct (Hok 0%nat) as [out H0]; [lia|].
      rewrite Nat.add_0_r in H0. rewrite H0. f_equal.
      apply IH; [lia | |].
      * intros i Hi. replace (S k + i)%nat with (k + S i)%nat by lia.
        apply Hok. lia.
      * replace (S k + j)%nat with (k + S j)%nat by lia.
        destruct Hend as [Hend|Hend]; [left; lia | right; exact Hend].
Qed.

Lemma accepted_stops (camera : nat -> completed) (n : nat) :
  forall k,
    (accepted camera k n < n)%nat ->
    forall out, camera (k + accepted camera k n)%nat <> Returned out.
Proof.
  induction n as [|n IH]; intros k Hlt out; cbn in *; [lia|].
  destruct (camera k) as [o| |] eqn:H0.
  - replace (k + S (accepted camera (S k) n))%nat
      with (S k + accepted camera (S k) n)%nat by lia.
    apply IH. lia.
  - rewrite Nat.add_0_r, H0. discriminate.
  - rewrite Nat.add_0_r, H0. discriminate.
Qed.

Lemma get_config_free (key : string) (s : Session) :
  cam_lock s = false ->
  _gp_get_config_safe key s
  = match camera s (started s) with
    | Returned out =>
        (Value (Some (Parse._parse_get_config out)), queried key s)
    | CalledProcessError _ => (Value None, queried key s)
    | Raised msg => (Exception msg, queried key s)
    end.
Proof.
  intros H. unfold _gp_get_config_safe, andthen, with_cam_lock, check_output.
  rewrite H. cbn [camera started set_lock record].
  destruct (camera s (started s)); reflexivity.
Qed.

Lemma polled_fields (keys : list string) (s : Session) :
  cam_lock s = false ->
  camera (polled keys s) = camera s
  /\ started (polled keys s) = (started s + List.length keys)%nat
  /\ cam_lock (polled keys s) = false
  /\ QUICK_ACTIVE_KEY (polled keys s) = QUICK_ACTIVE_KEY s
  /\ _last_status_cache (polled keys s) = _last_status_cache s
  /\ journal (polled keys s) = (rev (queries keys) ++ journal s)%list.
Proof.
  revert s. induction keys as [|k keys IH]; intros s Hfree; cbn [polled].
  - cbn. rewrite Nat.add_0_r. auto 10.
  - destruct (IH (queried k s)) as (H1 & H2 & H3 & H4 & H5 & H6);
      [reflexivity|].
    rewrite H1, H2, H3, H4, H5, H6. cbn.
    repeat split; try lia.
    unfold queries. rewrite <- !app_assoc. reflexivity.
Qed.

Lemma lookup_assign (V : Type) (k : string) (v : V) (d : dict V) :
  lookup k (assign k v d) = Some v.
Proof.
  induction d as [|[k' v'] d IH]; cbn.
  - rewrite String.eqb_refl. reflexivity.
  - destruct (String.eqb k' k) eqn:E; cbn; rewrite E; auto.
Qed.

Section FirstValueLoop.
Variable cache_key : string.

Lemma first_value_answers (j : nat) :
  forall keys s v,
    cam_lock s = false ->
    (j < List.length keys)%nat ->
    (forall i msg, (i <= j)%nat -> camera s (started s + i) <> Raised msg) ->
    (forall i, (i < j)%nat ->
       usable (reading (camera s (started s + i))) = false) ->
    reading (camera s (started s + j)) = v ->
    usable v = true ->
    first_value_loop keys cache_key s
    = (Value v, remembered cache_key v (polled (firstn (S j) keys) s)).
Proof.
  induction j as [|j IH]; intros keys s v Hfree Hj Hraise Hbad Hv Hu;
    (destruct keys as [|k keys]; [cbn in Hj; lia|]);
    cbn [first_value_loop]; unfold andthen at 1;
    rewrite get_config_free by exact Hfree.
  - rewrite Nat.add_0_r in Hv.
    pose proof (Hraise 0%nat) as Hr. rewrite Nat.add_0_r in Hr.
    unfold reading in Hv.
    destruct (camera s (started s)) as [out|o|msg].
    + rewrite Hv, Hu. unfold remembered. cbn [firstn polled].
      destruct (Text.truthy cache_key); reflexivity.
    + subst v. discriminate.
    + exfalso. eapply Hr; eauto.
  - pose proof (Hraise 0%nat) as Hr. rewrite Nat.add_0_r in Hr.
    pose proof (Hbad 0%nat) as Hb. rewrite Nat.add_0_r in Hb.
    unfold reading in Hb.
    assert (Hnext : first_value_loop keys cache_key (queried k s)
                    = (Value v,
                       remembered cache_key v (polled (firstn (S j) keys)
                                       (queried k s)))).
    { apply IH; auto.
      - cbn in Hj. lia.
      - intros i msg Hi. cbn [camera queried set_lock record set_started started].
        replace (S (started s) + i)%nat with (started s + S i)%nat by lia.
        apply Hraise. lia.
      - intros i Hi. cbn [camera queried set_lock record set_started started].
        replace (S (started s) + i)%nat with (started s + S i)%nat by lia.
        apply Hbad. lia.
      - cbn [camera queried set_lock record set_started started].
        replace (S (started s) + j)%nat with (started s + S j)%nat by lia.
        exact Hv. }
    destruct (camera s (started s)) as [out|o|msg].
    + rewrite Hb by lia. exact Hnext.
    + cbn [usable]. exact Hnext.
    + exfalso. eapply Hr; eauto. lia.
Qed.

Lemma first_value_silent :
  forall keys s,
    cam_lock s = false ->
    (forall i msg, (i < List.length keys)%nat ->
                   camera s (started s + i) <> Raised msg) ->
    (forall i, (i < List.length keys)%nat ->
       usable (reading (camera s (started s + i))) = false) ->
    first_value_loop keys cache_key s = (Value None, polled keys s).
Proof.
  induction keys as [|k keys IH]; intros s Hfree Hraise Hbad;
    cbn [first_value_loop polled]; [reflexivity|].
  unfold andthen at 1. rewrite get_config_free by exact Hfree.
  pose proof (Hraise 0%nat) as Hr. rewrite Nat.add_0_r in Hr.
  pose proof (Hbad 0%nat) as Hb. rewrite Nat.add_0_r in Hb.
  unfold reading in Hb.
  assert (Hnext : first_value_loop keys cache_key (queried k s)
                  = (Value None, polled keys (queried k s))).
  { apply IH; auto.
    - intros i msg Hi. cbn [camera queried set_lock record set_started started].
      replace (S (started s) + i)%nat with (started s + S i)%nat by lia.
      apply Hraise. cbn. lia.
    - intros i Hi. cbn [camera queried set_lock record set_started started].
      replace (S (started s) + i)%nat with (started s + S i)%nat by lia.
      apply Hbad. cbn. lia. }
  destruct (camera s (started s)) as [out|o|msg].
  - rewrite Hb by (cbn; lia). exact Hnext.
  - cbn [usable]. exact Hnext.
  - exfalso. eapply Hr; eauto. cbn. lia.
Qed.

End FirstValueLoop.

Lemma by_index_set_items (items : dict string) :
  filter by_index (map Run (map set_item items)) = [].
Proof.
  induction items as [|[k v] items IH]; [reflexivity | exact IH].
Qed.

End SettingsFacts.

Section CfgSet.
Import Settings.
Variables (s : Session) (key_raw val_raw : string).

Let key := target_key (Str.strip key_raw) (QUICK_ACTIVE_KEY s).
Let val := Str.strip val_raw.
Let request := cfg_set key_raw val_raw.

(** X12.  [cfg_set] with a key and a value, served while [cam_lock] is
    free.  When gphoto2 accepts the value, the handler sets it under the
    lock, reads the key back under the lock and answers with the value
    read (with the value requested when the read fails).  When gphoto2
    rejects the value, the handler never answers: the fallback that sets
    the value by its index first reads the choices, which takes
    [cam_lock], and the handler holds it already; the lock stays held, so
    every later request that takes it waits as well.  An exception other
    than [CalledProcessError] ends the request and releases the lock. *)
Theorem cfg_set_outcomes :
  cam_lock s = false ->
  Text.truthy (Str.strip key_raw) = true ->
  Str.strip val_raw <> ""%string ->
  match camera s (started s) with
  | Returned _ =>
      steps request s
      = [Acquire; Run (set_config key val); Release;
         Acquire; Run (get_config key); Release]
      /\ cam_lock (after request s) = false
      /\ answer request s
         = match camera s (S (started s)) with
           | Returned out =>
               Value (set_OK key
                        (Parse.value (Parse._parse_get_config out)))
           | CalledProcessError _ => Value (set_OK key (Some val))
           | Raised msg => Exception msg
           end
  | CalledProcessError _ =>
      steps request s = [Acquire; Run (set_config key val); Wait]
      /\ cam_lock (after request s) = true
      /\ answer request s = Blocked
      /\ forall (A : Type) (body : R A),
           answer (with_cam_lock body) (after request s) = Blocked
  | Raised msg =>
      steps request s = [Acquire; Run (set_config key val); Release]
      /\ cam_lock (after request s) = false
      /\ answer request s = Exception msg
  end.
Proof.
  intros Hfree Hkey Hval.
  apply String.eqb_neq in Hval.
  set (s1 := set_started (S (started s))
               (record (Run (set_config key val))
                  (set_lock true (record Acquire s)))).
  assert (E : request s
              = match camera s (started s) with
                | Returned _ =>
                    andthen (_gp_get_config_safe key)
                      (fun info =>
                         pure (set_OK key
                                 (match info with
                                  | Some i => Parse.value i
                                  | None => Some val
                                  end)))
                      (set_lock false (record Release s1))
                | CalledProcessError _ => (Blocked, record Wait s1)
                | Raised msg =>
                    (Exception msg, set_lock false (record Release s1))
                end).
  { unfold request, cfg_set.
    rewrite Hkey, Hval. cbn [negb orb].
    unfold andthen at 1, read. fold key val.
    unfold andthen at 1, with_cam_lock at 1. rewrite Hfree.
    rewrite SettingsFacts.set_value_under_lock by reflexivity.
    cbn [camera started record set_lock]. fold s1.
    destruct (camera s (started s)) as [out|o|msg]; reflexivity. }
  unfold steps, answer, after. rewrite E.
  destruct (camera s (started s)) as [out|o|msg] eqn:H0.
  - subst s1. SettingsFacts.rrun.
    destruct (camera s (S (started s))) as [out1|o1|msg1];
      SettingsFacts.rrun;
      (rewrite !added_cons by (cbn [List.length]; lia));
      rewrite added_same; auto.
  - subst s1. cbn.
    (rewrite !added_cons by (cbn [List.length]; lia));
      rewrite added_same.
    repeat split.
  - subst s1. cbn.
    (rewrite !added_cons by (cbn [List.length]; lia));
      rewrite added_same.
    repeat split.
Qed.

End CfgSet.

Lemma cfg_set_outcomes_witness :
  let s := Settings.session [bad_usage] in
  let request := Settings.cfg_set " iso" "6400 " in
  Settings.steps request s
  = [Settings.Acquire;
     Settings.Run (Settings.set_config "/main/imgsettings/iso" "6400");
     Settings.Wait]
  /\ Settings.cam_lock (Settings.after request s) = true
  /\ Settings.answer request s = Settings.Blocked
  /\ forall (A : Type) (body : Settings.R A),
       Settings.answer (Settings.with_cam_lock body)
         (Settings.after request s)
       = Settings.Blocked.
Proof.
  exact (@cfg_set_outcomes (Settings.session [bad_usage]) " iso" "6400 "
           eq_refl eq_refl ltac:(discriminate)).
Defined.

Section Presets.
Import Settings.
Variables (s : Session) (name_raw : string) (preset : dict string).

Let request := api_presets_apply name_raw.
Let n := List.length preset.

Lemma preset_run :
  cam_lock s = false ->
  lookup (Str.strip name_raw) PRESETS = Some preset ->
  preset <> [] ->
  let j := accepted (camera s) (started s) n in
  let s0 := set_lock true (record Acquire s) in
  request s
  = if (j =? n)%nat
    then (Value (preset_OK (Str.strip name_raw) preset []),
          set_lock false (record Release (ran (map set_item preset) s0)))
    else
      let s' := ran (map set_item (firstn (S j) preset)) s0 in
      match camera s (started s + j) with
      | Raised msg => (Exception msg, set_lock false (record Release s'))
      | _ => (Blocked, record Wait s')
      end.
Proof.
  intros Hfree Hp Hne. unfold request, api_presets_apply. rewrite Hp.
  assert (Hm : forall (X : Type) (a b : X),
             match preset with [] => a | _ :: _ => b end = b)
    by (intros X a b; destruct preset; [congruence | reflexivity]).
  rewrite Hm.
  unfold andthen, with_cam_lock. rewrite Hfree.
  rewrite SettingsFacts.apply_items_under_lock by reflexivity.
  cbn [camera started set_lock record]. fold n.
  destruct (accepted (camera s) (started s) n =? n)%nat; [reflexivity|].
  cbn zeta.
  destruct (camera s (started s + accepted (camera s) (started s) n));
    reflexivity.
Qed.

(** X13.  [api_presets_apply] with the name of a preset, served while
    [cam_lock] is free.  It takes the lock once and sets the items of the
    preset in order.  When gphoto2 accepts every value it answers with
    all of them applied and none failed.  When gphoto2 rejects the value
    of item [j], the handler never answers and keeps the lock: the
    fallback by index must take [cam_lock] to read the choices.  So
    whenever the handler answers, the list of failed items is empty; and
    it never sets a value by its index. *)
Theorem preset_outcomes :
  cam_lock s = false ->
  lookup (Str.strip name_raw) PRESETS = Some preset ->
  preset <> [] ->
  ((forall i, (i < n)%nat ->
      exists out, camera s (started s + i) = Returned out) ->
   answer request s = Value (preset_OK (Str.strip name_raw) preset [])
   /\ steps request s
      = ([Acquire] ++ map Run (map set_item preset) ++ [Release])%list
   /\ cam_lock (after request s) = false)
  /\ (forall j o,
        (j < n)%nat ->
        (forall i, (i < j)%nat ->
           exists out, camera s (started s + i) = Returned out) ->
        camera s (started s + j) = CalledProcessError o ->
        answer request s = Blocked
        /\ steps request s
           = ([Acquire] ++ map Run (map set_item (firstn (S j) preset))
              ++ [Wait])%list
        /\ cam_lock (after request s) = true)
  /\ (forall name applied failed,
        answer request s = Value (preset_OK name applied failed) ->
        applied = preset /\ failed = [])
  /\ filter by_index (steps request s) = [].
Proof.
  intros Hfree Hp Hne.
  pose proof (preset_run Hfree Hp Hne) as E. cbn zeta in E.
  set (s0 := set_lock true (record Acquire s)) in *.
  assert (Hran : forall cmds e,
            journal (record e (ran cmds s0))
            = ((e :: rev (map Run cmds) ++ [Acquire]) ++ journal s)%list).
  { intros cmds e.
    destruct (SettingsFacts.ran_fields cmds s0) as (_ & _ & _ & _ & _ & H6).
    cbn [journal record]. rewrite H6. subst s0. cbn [journal set_lock record].
    cbn [app]. rewrite <- app_assoc. reflexivity. }
  assert (Hrev : forall cmds e,
            rev (e :: rev (map Run cmds) ++ [Acquire])
            = ([Acquire] ++ map Run cmds ++ [e])%list).
  { intros cmds e. cbn [rev]. rewrite rev_app_distr, rev_involutive.
    reflexivity. }
  assert (Hlock : forall cmds, cam_lock (ran cmds s0) = true).
  { intros cmds.
    destruct (SettingsFacts.ran_fields cmds s0) as (_ & _ & H3 & _).
    rewrite H3. reflexivity. }
  split; [|split; [|split]].
  - intros Hok.
    assert (Hj : accepted (camera s) (started s) n = n)
      by (apply SettingsFacts.accepted_spec; auto).
    rewrite Hj, Nat.eqb_refl in E.
    unfold answer, after. rewrite E. cbn [fst snd].
    split; [reflexivity|]. split; [|reflexivity].
    rewrite <- Hrev. apply SettingsFacts.steps_of_journal.
    rewrite E. cbn [snd]. apply (Hran (map set_item preset) Release).
  - intros j o Hj Hok Hfail.
    assert (Hacc : accepted (camera s) (started s) n = j).
    { apply SettingsFacts.accepted_spec; [lia | exact Hok |].
      right. intros out. rewrite Hfail. discriminate. }
    rewrite Hacc in E.
    replace (j =? n)%nat with false in E
      by (symmetry; apply Nat.eqb_neq; lia).
    rewrite Hfail in E.
    unfold answer, after. rewrite E. cbn [fst snd].
    split; [reflexivity|]. split; [|cbn; apply Hlock].
    rewrite <- Hrev. apply SettingsFacts.steps_of_journal.
    rewrite E. cbn [snd]. apply Hran.
  - intros name applied failed Hans. unfold answer in Hans. rewrite E in Hans.
    destruct (accepted (camera s) (started s) n =? n)%nat.
    + cbn in Hans. injection Hans as _ <- <-. auto.
    + destruct (camera s (started s + accepted (camera s) (started s) n));
        discriminate.
  - assert (Hsteps : exists cmds e,
              steps request s
              = ([Acquire] ++ map Run (map set_item cmds) ++ [e])%list
              /\ by_index e = false).
    { set (j := accepted (camera s) (started s) n) in *.
      destruct (j =? n)%nat.
      - exists preset, Release. split; [|reflexivity].
        rewrite <- Hrev. apply SettingsFacts.steps_of_journal.
        rewrite E. cbn [snd]. apply Hran.
      - destruct (camera s (started s + j));
          [ exists (firstn (S j) preset), Wait
          | exists (firstn (S j) preset), Wait
          | exists (firstn (S j) preset), Release ];
          (split; [|reflexivity]);
          rewrite <- Hrev; apply SettingsFacts.steps_of_journal;
          rewrite E; cbn [snd]; apply Hran. }
    destruct Hsteps as (cmds & e & -> & He).
    rewrite !filter_app, SettingsFacts.by_index_set_items. cbn.
    rewrite He. reflexivity.
Qed.

End Presets.

Lemma preset_outcomes_witness :
  let s := Settings.session [Returned ""; bad_usage] in
  let request := Settings.api_presets_apply "Studio" in
  Settings.answer request s = Settings.Blocked
  /\ Settings.steps request s
     = [Settings.Acquire;
        Settings.Run (Settings.set_config "/main/imgsettings/iso" "100");
        Settings.Run
          (Settings.set_config "/main/capturesettings/drivemode" "Single");
        Settings.Wait]
  /\ Settings.cam_lock (Settings.after request s) = true.
Proof.
  destruct (@preset_outcomes (Settings.session [Returned ""; bad_usage])
              "Studio"
              [ ("/main/imgsettings/iso", "100");
                ("/main/capturesettings/drivemode", "Single");
                ("/main/capturesettings/focusmode", "One Shot") ]%string
              eq_refl eq_refl ltac:(discriminate))
    as (_ & H & _).
  apply (H 1%nat "gphoto2: unrecognized option"%string).
  - cbn. lia.
  - intros i Hi. assert (i = 0)%nat as -> by lia. exists ""%string.
    reflexivity.
  - reflexivity.
Defined.

Section StatusValue.
Import Settings.
Variables (s : Session) (keys : list string) (cache_key : string).

Let request := _gp_first_value keys cache_key.

Lemma remembered_fields (v : option string) (s0 : Session) :
  camera (remembered cache_key v s0) = camera s0
  /\ started (remembered cache_key v s0) = started s0
  /\ cam_lock (remembered cache_key v s0) = cam_lock s0
  /\ journal (remembered cache_key v s0) = journal s0
  /\ cached cache_key (remembered cache_key v s0)
     = if Text.truthy cache_key then v else cached cache_key s0.
Proof.
  unfold remembered, cached.
  destruct (Text.truthy cache_key); cbn; auto 10.
  rewrite SettingsFacts.lookup_assign. auto 10.
Qed.

(** X14.  [_gp_first_value] on a list of keys, served while [cam_lock]
    is free, on a camera that raises nothing but [CalledProcessError].
    It reads the keys in order, each under the lock, and stops at the
    first whose value is usable (neither missing, nor empty, nor "N/A"):
    that value is the answer, the keys after it are not read, and with a
    cache key the value is remembered.  When no key has a usable value
    every key is read once and the answer is the value remembered under
    the cache key (nothing without a cache key), so after a good reading
    a reading that fails answers the same value. *)
Theorem status_value_outcomes :
  cam_lock s = false ->
  (forall i msg, camera s i <> Raised msg) ->
  (forall j v,
     (j < List.length keys)%nat ->
     (forall i, (i < j)%nat ->
        usable (reading (camera s (started s + i))) = false) ->
     reading (camera s (started s + j)) = Some v ->
     usable (Some v) = true ->
     answer request s = Value (Some v)
     /\ steps request s = queries (firstn (S j) keys)
     /\ cached cache_key (after request s)
        = (if Text.truthy cache_key then Some v else cached cache_key s)
     /\ (Text.truthy cache_key = true ->
         (forall i, (i < List.length keys)%nat ->
            usable (reading (camera s (started s + S j + i))) = false) ->
         answer request (after request s) = Value (Some v)))
  /\ ((forall i, (i < List.length keys)%nat ->
         usable (reading (camera s (started s + i))) = false) ->
      answer request s
      = Value (if Text.truthy cache_key then cached cache_key s else None)
      /\ steps request s = queries keys
      /\ _last_status_cache (after request s) = _last_status_cache s).
Proof.
  intros Hfree Hraise.
  assert (Hsilent : forall s0,
            cam_lock s0 = false ->
            camera s0 = camera s ->
            (forall i, (i < List.length keys)%nat ->
               usable (reading (camera s (started s0 + i))) = false) ->
            request s0
            = (Value (if Text.truthy cache_key then cached cache_key s0
                      else None),
               polled keys s0)).
  { intros s0 Hf0 Hc0 Hbad. unfold request, _gp_first_value, andthen.
    rewrite SettingsFacts.first_value_silent; auto.
    - destruct (Text.truthy cache_key); [|reflexivity].
      unfold read. unfold cached.
      destruct (SettingsFacts.polled_fields keys s0 Hf0)
        as (_ & _ & _ & _ & H5 & _).
      rewrite H5. reflexivity.
    - intros i msg _. rewrite Hc0. apply Hraise.
    - intros i Hi. rewrite Hc0. apply Hbad. exact Hi. }
  split.
  - intros j v Hj Hbad Hv Hu.
    assert (E : request s
                = (Value (Some v),
                   remembered cache_key (Some v)
                     (polled (firstn (S j) keys) s))).
    { unfold request, _gp_first_value, andthen.
      rewrite (@SettingsFacts.first_value_answers cache_key j keys s (Some v));
        auto. }
    destruct (SettingsFacts.polled_fields (firstn (S j) keys) s Hfree)
      as (P1 & P2 & P3 & P4 & P5 & P6).
    destruct (remembered_fields (Some v) (polled (firstn (S j) keys) s))
      as (R1 & R2 & R3 & R4 & R5).
    assert (Hlen : List.length (firstn (S j) keys) = S j)
      by (rewrite length_firstn; lia).
    unfold answer, after. rewrite E. cbn [fst snd].
    split; [reflexivity|]. split; [|split].
    + rewrite <- (rev_involutive (queries (firstn (S j) keys))).
      apply SettingsFacts.steps_of_journal. rewrite E. cbn [snd].
      rewrite R4, P6. reflexivity.
    + rewrite R5. unfold cached. rewrite P5. reflexivity.
    + intros Hck Hlater. rewrite Hsilent.
      * cbn [fst]. rewrite Hck, R5, Hck. reflexivity.
      * rewrite R3. exact P3.
      * rewrite R1. exact P1.
      * intros i Hi. rewrite R2, P2, Hlen.
        apply Hlater. exact Hi.
  - intros Hbad. unfold answer, steps, after.
    rewrite (Hsilent s Hfree eq_refl Hbad). cbn [fst snd].
    destruct (SettingsFacts.polled_fields keys s Hfree)
      as (P1 & P2 & P3 & P4 & P5 & P6).
    repeat split; auto.
    rewrite P6, added_app. apply rev_involutive.
Qed.

End StatusValue.

Lemma status_value_outcomes_witness :
  let s := Settings.session [bad_usage; Returned battery_report] in
  let request :=
    Settings._gp_first_value
      ["/main/status/batterylevel"; "/main/status/battery";
       "/main/status/batterystatus"]%string "battery" in
  Settings.answer request s = Settings.Value (Some "87%"%string)
  /\ Settings.steps request s
     = [Settings.Acquire;
        Settings.Run (Settings.get_config "/main/status/batterylevel");
        Settings.Release;
        Settings.Acquire;
        Settings.Run (Settings.get_config "/main/status/battery");
        Settings.Release]
  /\ Settings.answer request (Settings.after request s)
     = Settings.Value (Some "87%"%string).
Proof.
  destruct (@status_value_outcomes
              (Settings.session [bad_usage; Returned battery_report])
              ["/main/status/batterylevel"; "/main/status/battery";
               "/main/status/batterystatus"]%string "battery"
              eq_refl) as (H & _).
  - intros i msg. cbn.
    destruct i as [|[|[|i]]]; discriminate.
  - destruct (H 1%nat "87%"%string) as (H1 & H2 & _ & H4).
    + cbn. lia.
    + intros i Hi. assert (i = 0)%nat as -> by lia. reflexivity.
    + reflexivity.
    + reflexivity.
    + split; [exact H1|]. split; [exact H2|].
      apply H4; [reflexivity|].
      intros i Hi. cbn.
      destruct i as [|[|[|i]]]; reflexivity.
Defined.

(** ** The quick settings *)

Module QuickFacts.
Import Settings.

Local Open Scope request_scope.

Lemma queried_fields (k : string) (s : Session) :
  camera (queried k s) = camera s
  /\ started (queried k s) = S (started s)
  /\ cam_lock (queried k s) = false
  /\ QUICK_ACTIVE_KEY (queried k s) = QUICK_ACTIVE_KEY s.
Proof. repeat split. Qed.

Lemma probe_cons (k : string) (keys : list string) (s : Session) :
  cam_lock s = false ->
  probe (k :: keys) s
  = match camera s (started s) with
    | Returned out =>
        if informative (Some (Parse._parse_get_config out))
        then (Value (Some (k, Parse._parse_get_config out)), queried k s)
        else probe keys (queried k s)
    | CalledProcessError _ => probe keys (queried k s)
    | Raised msg => (Exception msg, queried k s)
    end.
Proof.
  intros Hfree. cbn [probe]. unfold andthen.
  rewrite SettingsFacts.get_config_free by exact Hfree.
  destruct (camera s (started s)) as [out|o|msg]; try reflexivity.
  destruct (informative (Some (Parse._parse_get_config out))); reflexivity.
Qed.

(** The loop of [cfg_quick] over the keys of a field stops at the first
    key whose answer is informative. *)
Lemma probe_run (keys : list string) :
  forall s,
    cam_lock s = false ->
    quiet s ->
    (exists j k out,
        nth_error keys j = Some k
        /\ camera s (started s + j) = Returned out
        /\ informative (Some (Parse._parse_get_config out)) = true
        /\ probe keys s
           = (Value (Some (k, Parse._parse_get_config out)),
              polled (firstn (S j) keys) s))
    \/ probe keys s = (Value None, polled keys s).
Proof.
  induction keys as [|k keys IH]; intros s Hfree Hq.
  - right. reflexivity.
  - rewrite probe_cons by exact Hfree. cbn [polled].
    assert (Hnext :
      (exists j k0 out,
          nth_error (k :: keys) j = Some k0
          /\ camera s (started s + j) = Returned out
          /\ informative (Some (Parse._parse_get_config out)) = true
          /\ probe keys (queried k s)
             = (Value (Some (k0, Parse._parse_get_config out)),
                polled (firstn (S j) (k :: keys)) s))
      \/ probe keys (queried k s) = (Value None, polled keys (queried k s))).
    { destruct (IH (queried k s)) as [(j & k0 & out & H1 & H2 & H3 & H4)|H];
        [reflexivity | exact Hq | left | right; exact H].
      exists (S j), k0, out. cbn [nth_error]. split; [exact H1|].
      split; [|split; [exact H3 | exact H4]].
      replace (started s + S j)%nat with (S (started s) + j)%nat by lia.
      exact H2. }
    destruct (camera s (started s)) as [out|o|msg] eqn:H0.
    + destruct (informative (Some (Parse._parse_get_config out))) eqn:Hi.
      * left. exists 0%nat, k, out. rewrite Nat.add_0_r.
        repeat split; auto.
      * exact Hnext.
    + exact Hnext.
    + exfalso. exact (Hq _ _ H0).
Qed.

Lemma quick_keys_shape (f : string) (kl : list string) :
  lookup f QUICK_KEYS = Some kl ->
  kl <> [] /\ NoDup kl /\ forall k, In k kl -> Text.truthy k = true.
Proof.
  unfold QUICK_KEYS. cbn [lookup]. intros H.
  repeat match type of H with
         | (if ?b then _ else _) = _ =>
             destruct b;
             [ injection H as <-;
               split; [discriminate|];
               split;
               [ repeat constructor; cbn; intuition discriminate
               | intros k Hk; cbn in Hk;
                 repeat (destruct Hk as [<-|Hk]; [reflexivity|]);
                 contradiction ]
             | ]
         end.
  discriminate.
Qed.

Lemma filter_others (k0 : string) (kl : list string) :
  NoDup kl ->
  In k0 kl ->
  S (List.length
       (filter (fun k => negb (existsb (String.eqb k) [k0])) kl))
  = List.length kl.
Proof.
  induction 1 as [|k kl Hk Hnd IH]; intros Hin; [contradiction|].
  cbn [filter existsb List.length]. rewrite orb_false_r.
  destruct (String.eqb_spec k k0) as [->|Hne]; cbn [negb].
  - f_equal. clear IH Hin. induction kl as [|k kl IH]; [reflexivity|].
    cbn [filter existsb List.length]. rewrite orb_false_r.
    destruct (String.eqb_spec k k0) as [->|Hne].
    + exfalso. apply Hk. left. reflexivity.
    + cbn [negb List.length]. f_equal. apply IH.
      * intros H. apply Hk. right. exact H.
      * inversion Hnd. assumption.
  - cbn [List.length]. f_equal. apply IH.
    destruct Hin as [->|Hin]; [contradiction | exact Hin].
Qed.

Lemma tried_keys (f : string) (kl : list string) (active : dict string) :
  NoDup kl ->
  match lookup f active with Some k => In k kl | None => True end ->
  List.length (first_try_keys f kl active) = List.length kl
  /\ forall k, In k (first_try_keys f kl active) -> In k kl.
Proof.
  intros Hnd Hact. unfold first_try_keys.
  destruct (lookup f active) as [k0|].
  - split.
    + cbn [app List.length]. apply filter_others; assumption.
    + intros k [<-|Hk]; [exact Hact|].
      apply filter_In in Hk. tauto.
  - cbn [app existsb negb]. split.
    + f_equal. clear. induction kl; cbn; congruence.
    + intros k Hk. apply filter_In in Hk. tauto.
Qed.

Lemma lookup_assign_other (V : Type) (k k' : string) (v : V) (d : dict V) :
  k' <> k -> lookup k' (assign k v d) = lookup k' d.
Proof.
  intros Hne. induction d as [|[k0 v0] d IH]; cbn.
  - destruct (String.eqb_spec k k'); congruence.
  - destruct (String.eqb_spec k0 k) as [->|H0]; cbn.
    + destruct (String.eqb_spec k k'); congruence.
    + destruct (String.eqb_spec k0 k'); auto.
Qed.

Lemma assign_fresh (V : Type) (k : string) (v : V) (d : dict V) :
  lookup k d = None -> assign k v d = (d ++ [(k, v)])%list.
Proof.
  induction d as [|[k0 v0] d IH]; cbn; [reflexivity|].
  destruct (String.eqb k0 k); [discriminate|].
  intros H. rewrite IH by exact H. reflexivity.
Qed.

Lemma well_kept_assign (f k : string) (kl : list string)
    (active : dict string) :
  lookup f QUICK_KEYS = Some kl ->
  In k kl ->
  well_kept active ->
  well_kept (assign f k active).
Proof.
  intros Hf Hk Hw f' k' H.
  destruct (String.eqb_spec f' f) as [->|Hne].
  - rewrite SettingsFacts.lookup_assign in H. injection H as <-.
    exists kl. auto.
  - rewrite lookup_assign_other in H by exact Hne. apply Hw. exact H.
Qed.

(** The body of the loop of [cfg_quick] for one field. *)
Lemma quick_field_run (f : string) (kl : list string) (s : Session) :
  cam_lock s = false ->
  quiet s ->
  lookup f QUICK_KEYS = Some kl ->
  well_kept (QUICK_ACTIVE_KEY s) ->
  exists entry keys s',
    quick_field f kl s = (Value entry, s')
    /\ camera s' = camera s
    /\ cam_lock s' = false
    /\ started s' = (started s + List.length keys)%nat
    /\ journal s' = (rev (queries keys) ++ journal s)%list
    /\ (1 <= List.length keys <= List.length kl)%nat
    /\ ((entry = default_of f
         /\ QUICK_ACTIVE_KEY s' = QUICK_ACTIVE_KEY s)
        \/ exists j k out,
             In k kl
             /\ nth_error keys j = Some k
             /\ camera s (started s + j) = Returned out
             /\ entry = Parse._parse_get_config out
             /\ informative (Some entry) = true
             /\ QUICK_ACTIVE_KEY s' = assign f k (QUICK_ACTIVE_KEY s)).
Proof.
  intros Hfree Hq Hf Hw.
  destruct (quick_keys_shape _ Hf) as (Hne & Hnd & Htruthy).
  assert (Hact : match lookup f (QUICK_ACTIVE_KEY s) with
                 | Some k => In k kl
                 | None => True
                 end).
  { destruct (lookup f (QUICK_ACTIVE_KEY s)) as [k|] eqn:E; [|exact I].
    destruct (Hw _ _ E) as (kl' & H1 & H2). congruence. }
  destruct (@tried_keys f kl (QUICK_ACTIVE_KEY s) Hnd Hact) as (Hlen & Hin).
  set (tried := first_try_keys f kl (QUICK_ACTIVE_KEY s)) in *.
  assert (Hpos : (1 <= List.length kl)%nat)
    by (destruct kl; [congruence | cbn; lia]).
  unfold quick_field, andthen at 1, read. fold tried.
  unfold andthen at 1.
  destruct (probe_run tried Hfree Hq)
    as [(j & k & out & H1 & H2 & H3 & H4)|H4]; rewrite H4.
  - assert (Hk : In k kl) by (apply Hin; eapply nth_error_In; eauto).
    rewrite (Htruthy k Hk).
    assert (Hj : (j < List.length tried)%nat)
      by (apply nth_error_Some; congruence).
    destruct (SettingsFacts.polled_fields (firstn (S j) tried) s Hfree)
      as (P1 & P2 & P3 & P4 & P5 & P6).
    assert (Hl : List.length (firstn (S j) tried) = S j)
      by (rewrite length_firstn; lia).
    exists (Parse._parse_get_config out), (firstn (S j) tried).
    eexists. split; [reflexivity|].
    cbn [camera cam_lock started journal QUICK_ACTIVE_KEY set_active].
    rewrite P1, P2, P3, P4, P6, Hl.
    repeat split; try lia.
    right. exists j, k, out. repeat split; auto.
    rewrite nth_error_firstn.
    replace (j <? S j)%nat with true by (symmetry; apply Nat.ltb_lt; lia).
    exact H1.
  - destruct (SettingsFacts.polled_fields tried s Hfree)
      as (P1 & P2 & P3 & P4 & P5 & P6).
    exists (default_of f), tried, (polled tried s).
    split; [reflexivity|].
    rewrite P1, P2, P3, P4, P6.
    repeat split; try lia. left. auto.
Qed.

Lemma lookup_app_fresh (V : Type) (k k' : string) (v : V) (d : dict V) :
  lookup k' d = None -> k' <> k -> lookup k' (d ++ [(k, v)]) = None.
Proof.
  intros H Hne. induction d as [|[k0 v0] d IH]; cbn in *.
  - destruct (String.eqb_spec k k'); congruence.
  - destruct (String.eqb k0 k'); [discriminate | auto].
Qed.

Lemma lookup_In (V : Type) (k : string) (v : V) (d : dict V) :
  lookup k d = Some v -> In (k, v) d.
Proof.
  induction d as [|[k0 v0] d IH]; cbn; [discriminate|].
  destruct (String.eqb_spec k0 k) as [->|Hne].
  - intros H. injection H as <-. left. reflexivity.
  - intros H. right. auto.
Qed.

Lemma queries_app (a b : list string) :
  queries (a ++ b) = (queries a ++ queries b)%list.
Proof. unfold queries. rewrite map_app, concat_app. reflexivity. Qed.

(** The loop of [cfg_quick] over the fields. *)
Lemma quick_fields_run (fields : dict (list string)) :
  forall result s,
    cam_lock s = false ->
    quiet s ->
    (forall f kl, In (f, kl) fields -> lookup f QUICK_KEYS = Some kl) ->
    NoDup (map fst fields) ->
    (forall f, In f (map fst fields) -> lookup f result = None) ->
    well_kept (QUICK_ACTIVE_KEY s) ->
    exists entries keys s',
      quick_fields fields result s = (Value (result ++ entries)%list, s')
      /\ map fst entries = map fst fields
      /\ camera s' = camera s
      /\ cam_lock s' = false
      /\ started s' = (started s + List.length keys)%nat
      /\ journal s' = (rev (queries keys) ++ journal s)%list
      /\ (List.length fields <= List.length keys
          <= List.length (List.concat (map snd fields)))%nat
      /\ well_kept (QUICK_ACTIVE_KEY s')
      /\ (forall f, ~ In f (map fst fields) ->
            lookup f (QUICK_ACTIVE_KEY s') = lookup f (QUICK_ACTIVE_KEY s))
      /\ forall f entry,
           In (f, entry) entries ->
           entry = default_of f
           \/ exists j k out,
                nth_error keys j = Some k
                /\ camera s (started s + j) = Returned out
                /\ entry = Parse._parse_get_config out
                /\ informative (Some entry) = true
                /\ lookup f (QUICK_ACTIVE_KEY s') = Some k.
Proof.
  induction fields as [|[f kl] fields IH];
    intros result s Hfree Hq Hkeys Hnd Hfresh Hw.
  - exists [], [], s. cbn. rewrite app_nil_r, Nat.add_0_r.
    repeat split; auto. intros f entry [].
  - cbn [quick_fields]. unfold andthen at 1.
    assert (Hf : lookup f QUICK_KEYS = Some kl) by (apply Hkeys; left; auto).
    destruct (@quick_field_run f kl s Hfree Hq Hf Hw)
      as (entry & keys1 & s1 & E1 & C1 & L1 & S1 & J1 & B1 & A1).
    rewrite E1.
    inversion Hnd as [|? ? Hnotin Hnd']; subst.
    assert (Hw1 : well_kept (QUICK_ACTIVE_KEY s1)).
    { destruct A1 as [(_ & ->)|(j & k & out & Hk & _ & _ & _ & _ & ->)];
        [exact Hw|].
      eapply well_kept_assign; eauto. }
    assert (Hres : assign f entry result = (result ++ [(f, entry)])%list).
    { apply assign_fresh. apply Hfresh. left. reflexivity. }
    rewrite Hres.
    destruct (IH (result ++ [(f, entry)])%list s1) as
        (entries & keys2 & s' & E2 & M2 & C2 & L2 & S2 & J2 & B2 & W2 & K2 & A2);
      auto.
    { intros i msg. rewrite C1. apply Hq. }
    { intros f' kl' H. apply Hkeys. right. exact H. }
    { intros f' H. apply lookup_app_fresh.
      - apply Hfresh. right. exact H.
      - intros ->. contradiction. }
    exists ((f, entry) :: entries), (keys1 ++ keys2)%list, s'.
    split. { rewrite E2, <- app_assoc. reflexivity. }
    split. { cbn [map fst]. f_equal. exact M2. }
    split. { congruence. }
    split. { exact L2. }
    split. { rewrite S2, S1, length_app. lia. }
    split. { rewrite J2, J1, queries_app, rev_app_distr, <- app_assoc.
             reflexivity. }
    split. { cbn [map snd List.concat List.length].
             rewrite !length_app. lia. }
    split. { exact W2. }
    split.
    { intros f' Hf'. rewrite K2.
      - destruct A1 as [(_ & ->)|(j & k & out & _ & _ & _ & _ & _ & ->)];
          [reflexivity|].
        apply lookup_assign_other. intros ->. apply Hf'. left. reflexivity.
      - intros H. apply Hf'. right. exact H. }
    intros f' entry' [H|H].
    + injection H as <- <-.
      destruct A1 as [(-> & _)|(j & k & out & Hk & N1 & R1 & P1 & I1 & Q1)];
        [left; reflexivity|].
      right. exists j, k, out.
      split. { rewrite nth_error_app1; [exact N1|].
               apply nth_error_Some. congruence. }
      repeat split; auto.
      rewrite K2 by exact Hnotin. rewrite Q1.
      apply SettingsFacts.lookup_assign.
    + destruct (A2 _ _ H) as [->|(j & k & out & N2 & R2 & P2 & I2 & Q2)];
        [left; reflexivity|].
      right. exists (List.length keys1 + j)%nat, k, out.
      split. { rewrite nth_error_app2 by lia.
               replace (List.length keys1 + j - List.length keys1)%nat
                 with j by lia.
               exact N2. }
      split. { rewrite C1, S1 in R2. rewrite Nat.add_assoc. exact R2. }
      auto.
Qed.

End QuickFacts.

Section Quick.
Import Settings.
Variables (s : Session) (force : bool).

Let request := if force then cfg_quick_force else cfg_quick.

(** X15.  [cfg_quick] and [cfg_quick_force], served while [cam_lock] is
    free on a camera that raises nothing but [CalledProcessError]; for
    [cfg_quick] the keys remembered in [QUICK_ACTIVE_KEY] are keys of
    their fields, which is what the two handlers leave behind.  The
    answer has the six fields in the order of [QUICK_KEYS].  The request
    runs between 6 and 10 [--get-config] subprocesses, each under the
    lock, and nothing else.  The entry of a field is the default of the
    field or what a key of the field answered, choices or a usable
    value; that key is remembered, so a later [cfg_set] on the field
    writes to it. *)
Theorem cfg_quick_outcomes :
  cam_lock s = false ->
  quiet s ->
  (force = false -> well_kept (QUICK_ACTIVE_KEY s)) ->
  exists entries keys,
    answer request s = Value entries
    /\ map fst entries = ["iso"; "ss"; "ap"; "dm"; "fm"; "afm"]%string
    /\ steps request s = queries keys
    /\ (6 <= List.length keys <= 10)%nat
    /\ cam_lock (after request s) = false
    /\ well_kept (QUICK_ACTIVE_KEY (after request s))
    /\ forall field_id entry,
         lookup field_id entries = Some entry ->
         entry = default_of field_id
         \/ exists j k out,
              nth_error keys j = Some k
              /\ camera s (started s + j) = Returned out
              /\ entry = Parse._parse_get_config out
              /\ informative (Some entry) = true
              /\ target_key field_id (QUICK_ACTIVE_KEY (after request s))
                 = k.
Proof.
  intros Hfree Hq Hw.
  set (s0 := if force then set_active [] s else s).
  assert (E0 : request s = quick_fields QUICK_KEYS [] s0)
    by (unfold request, s0; destruct force; reflexivity).
  assert (F0 : camera s0 = camera s /\ started s0 = started s
               /\ cam_lock s0 = cam_lock s /\ journal s0 = journal s)
    by (unfold s0; destruct force; repeat split).
  destruct F0 as (F1 & F2 & F3 & F4).
  destruct (@QuickFacts.quick_fields_run QUICK_KEYS [] s0)
    as (entries & keys & s' & E & M & C & L & S' & J & B & W & _ & A).
  { congruence. }
  { intros i msg. rewrite F1. apply Hq. }
  { intros f kl H. cbn in H.
    repeat (destruct H as [H|H]; [injection H as <- <-; reflexivity|]).
    contradiction. }
  { cbn. repeat constructor; cbn; intuition discriminate. }
  { reflexivity. }
  { unfold s0. destruct force; [|auto]. intros f k H. discriminate. }
  exists entries, keys.
  unfold answer, steps, after. rewrite E0, E. cbn [fst snd app].
  split; [reflexivity|]. split; [exact M|].
  split. { rewrite J, F4, added_app. apply rev_involutive. }
  split. { cbn in B. exact B. }
  split; [exact L|]. split; [exact W|].
  intros f entry Hl. apply QuickFacts.lookup_In in Hl.
  destruct (A _ _ Hl) as [->|(j & k & out & N & R0 & P & I0 & Q)];
    [left; reflexivity|].
  right. exists j, k, out. rewrite F1, F2 in R0.
  repeat split; auto.
  destruct (W _ _ Q) as (kl & Hkl & Hin).
  destruct (QuickFacts.quick_keys_shape _ Hkl) as (_ & _ & Ht).
  unfold target_key. rewrite Hkl, Q. cbn [or_else].
  rewrite (Ht _ Hin). reflexivity.
Qed.

End Quick.

Lemma cfg_quick_outcomes_witness :
  let s := Settings.session [bad_usage; Returned battery_report] in
  exists entries,
    Settings.answer Settings.cfg_quick s = Settings.Value entries
    /\ map fst entries = ["iso"; "ss"; "ap"; "dm"; "fm"; "afm"]%string
    /\ Settings.cam_lock (Settings.after Settings.cfg_quick s) = false.
Proof.
  destruct (@cfg_quick_outcomes
              (Settings.session [bad_usage; Returned battery_report]) false
              eq_refl)
    as (entries & keys & H1 & H2 & _ & _ & H5 & _).
  - intros i msg. cbn. destruct i as [|[|[|i]]]; discriminate.
  - intros _ f k H. discriminate.
  - exists entries. auto.
Defined.

(** ** The parsers of gphoto2 output *)

Module StrFacts.
Import Str Output.

Local Open Scope string_scope.

Lemma append_assoc (a b c : string) : (a ++ b) ++ c = a ++ b ++ c.
Proof. induction a as [|x a IH]; cbn; [reflexivity | now rewrite IH]. Qed.

Lemma append_nil_r (a : string) : a ++ "" = a.
Proof. induction a as [|x a IH]; cbn; [reflexivity | now rewrite IH]. Qed.

Lemma append_nonempty (a b : string) : b <> "" -> a ++ b <> "".
Proof. destruct a; cbn; [auto | discriminate]. Qed.

Lemma forallb_string_app (p : ascii -> bool) (a b : string) :
  forallb_string p (a ++ b) = forallb_string p a && forallb_string p b.
Proof.
  induction a as [|x a IH]; cbn; [reflexivity|].
  rewrite IH, andb_assoc. reflexivity.
Qed.

Lemma forallb_string_impl (p q : ascii -> bool) (s : string) :
  (forall c, p c = true -> q c = true) ->
  forallb_string p s = true -> forallb_string q s = true.
Proof.
  intros H. induction s as [|x s IH]; cbn; [auto|].
  intros Hs. apply andb_true_iff in Hs as [H1 H2].
  rewrite (H _ H1), IH by exact H2. reflexivity.
Qed.

Lemma linebreak_isspace (c : ascii) :
  is_linebreak c = true -> isspace c = true.
Proof.
  destruct c as [[] [] [] [] [] [] [] []]; cbv; congruence.
Qed.

Lemma unspaced_no_break (s : string) :
  unspaced s = true -> no_break s = true.
Proof.
  apply forallb_string_impl. intros c Hc.
  destruct (is_linebreak c) eqn:E; [|reflexivity].
  rewrite (linebreak_isspace _ E) in Hc. discriminate.
Qed.

(** *** [splitlines] *)

Lemma splitlines_line (a rest : string) :
  no_break a = true ->
  splitlines (a ++ NL ++ rest) = a :: splitlines rest.
Proof.
  induction a as [|c a IH]; intros Ha.
  - cbn. destruct rest; reflexivity.
  - cbn in Ha. apply andb_true_iff in Ha as [Hc Ha].
    apply negb_true_iff in Hc.
    cbn [append splitlines]. rewrite Hc.
    cbn [append] in IH. rewrite IH by exact Ha. reflexivity.
Qed.

Lemma splitlines_unlines (lines : list string) :
  forallb no_break lines = true ->
  splitlines (unlines lines) = lines.
Proof.
  induction lines as [|l lines IH]; cbn [forallb unlines]; [reflexivity|].
  intros H. apply andb_true_iff in H as [H1 H2].
  rewrite splitlines_line by exact H1. rewrite IH by exact H2. reflexivity.
Qed.

(** *** [strip] *)

Lemma rstrip_nonspace (c : ascii) (s : string) :
  isspace c = false -> rstrip (String c s) = String c (rstrip s).
Proof. intros H. cbn [rstrip]. rewrite H. destruct (rstrip s); reflexivity. Qed.

Lemma rstrip_app_keep (a b : string) :
  rstrip b <> "" -> rstrip (a ++ b) = a ++ rstrip b.
Proof.
  intros Hb. induction a as [|c a IH]; [reflexivity|].
  cbn [append rstrip]. rewrite IH.
  destruct (a ++ rstrip b) eqn:E; [|reflexivity].
  exfalso. exact (append_nonempty a Hb E).
Qed.

Lemma rstrip_app_drop (a b : string) :
  rstrip b = "" -> rstrip (a ++ b) = rstrip a.
Proof.
  intros Hb. induction a as [|c a IH]; [exact Hb|].
  cbn [append rstrip]. rewrite IH. reflexivity.
Qed.

Lemma rstrip_idem (s : string) : rstrip (rstrip s) = rstrip s.
Proof.
  induction s as [|c s IH]; [reflexivity|].
  cbn [rstrip]. destruct (rstrip s) as [|c' r] eqn:E.
  - destruct (isspace c) eqn:Hc; [reflexivity|].
    cbn. rewrite Hc. reflexivity.
  - cbn [rstrip] in IH |- *. 
    change (rstrip (String c (String c' r)))
      with (match rstrip (String c' r) with
            | "" => if isspace c then "" else String c ""
            | String x r' => String c (String x r')
            end).
    rewrite IH. reflexivity.
Qed.

Lemma lstrip_rstrip (s : string) : lstrip (rstrip s) = rstrip (lstrip s).
Proof.
  induction s as [|c s IH]; [reflexivity|].
  destruct (isspace c) eqn:Hc.
  - cbn [lstrip rstrip]. rewrite Hc.
    destruct (rstrip s) as [|c' r] eqn:E.
    + rewrite <- IH. reflexivity.
    + cbn [lstrip]. rewrite Hc. exact IH.
  - rewrite rstrip_nonspace by exact Hc. cbn [lstrip]. rewrite Hc.
    rewrite rstrip_nonspace by exact Hc. reflexivity.
Qed.

Lemma strip_rstrip (s : string) : strip (rstrip s) = strip s.
Proof.
  unfold strip. rewrite lstrip_rstrip, rstrip_idem. reflexivity.
Qed.

Lemma rstrip_blank (s : string) : rstrip s = "" <-> blank s = true.
Proof.
  unfold blank. induction s as [|c s IH]; cbn [rstrip forallb_string].
  - tauto.
  - destruct (rstrip s) as [|c' r].
    + destruct (isspace c); cbn [andb].
      * tauto.
      * split; discriminate.
    + split; [discriminate|].
      intros H. apply andb_true_iff in H as [_ H].
      apply IH in H. discriminate.
Qed.

Lemma lstrip_blank (s : string) : lstrip s = "" <-> blank s = true.
Proof.
  unfold blank. induction s as [|c s IH]; cbn [lstrip forallb_string].
  - tauto.
  - destruct (isspace c); cbn [andb]; [exact IH|].
    split; discriminate.
Qed.

Lemma blank_lstrip (s : string) : blank (lstrip s) = blank s.
Proof.
  unfold blank. induction s as [|c s IH]; [reflexivity|].
  cbn [lstrip]. destruct (isspace c) eqn:Hc.
  - cbn [forallb_string]. rewrite Hc. exact IH.
  - reflexivity.
Qed.

Lemma strip_blank (s : string) : strip s = "" <-> rstrip s = "".
Proof.
  unfold strip. rewrite !rstrip_blank, blank_lstrip. tauto.
Qed.

Lemma unspaced_rstrip (s : string) : unspaced s = true -> rstrip s = s.
Proof.
  induction s as [|c s IH]; [reflexivity|].
  cbn. intros H. apply andb_true_iff in H as [Hc Hs].
  apply negb_true_iff in Hc.
  change (rstrip (String c s) = String c s).
  rewrite rstrip_nonspace by exact Hc. rewrite IH by exact Hs. reflexivity.
Qed.

Lemma unspaced_rstrip_app (a b : string) :
  unspaced a = true -> rstrip (a ++ b) = a ++ rstrip b.
Proof.
  induction a as [|c a IH]; [reflexivity|].
  cbn. intros H. apply andb_true_iff in H as [Hc Hs].
  apply negb_true_iff in Hc.
  change (rstrip (String c (a ++ b)) = String c (a ++ rstrip b)).
  rewrite rstrip_nonspace by exact Hc. rewrite IH by exact Hs. reflexivity.
Qed.

(** *** [split] *)

Lemma split_char_whole (sep : ascii) (s : string) (m : nat) :
  nosep sep s = true -> split_char sep m s = [s].
Proof.
  destruct m as [|m]; [destruct s; reflexivity|].
  induction s as [|c s IH]; [reflexivity|].
  cbn. intros H. apply andb_true_iff in H as [Hc Hs].
  apply negb_true_iff in Hc. rewrite Hc.
  cbn in IH. rewrite IH by exact Hs. reflexivity.
Qed.

Lemma split_char_0 (sep : ascii) (s : string) : split_char sep 0 s = [s].
Proof. destruct s; reflexivity. Qed.

Lemma split_char_first (sep : ascii) (a b : string) (m : nat) :
  nosep sep a = true ->
  split_char sep (S m) (a ++ String sep b) = a :: split_char sep m b.
Proof.
  induction a as [|c a IH].
  - intros _. cbn. rewrite Ascii.eqb_refl. reflexivity.
  - cbn. intros H. apply andb_true_iff in H as [Hc Hs].
    apply negb_true_iff in Hc. rewrite Hc.
    cbn in IH. rewrite IH by exact Hs. reflexivity.
Qed.

Lemma unspaced_nosep (s : string) :
  unspaced s = true -> nosep " " s = true.
Proof.
  apply forallb_string_impl. intros c Hc.
  destruct (Ascii.eqb_spec c " ") as [->|]; [discriminate | reflexivity].
Qed.

End StrFacts.

Module ParseFacts.
Import Str Output Parse.

Local Open Scope string_scope.

Lemma prefix_nil (x : string) : prefix "" x = true.
Proof. destruct x; reflexivity. Qed.

Lemma strip_current (v : string) :
  strip ("Current: " ++ v) = "Current:" ++ rstrip (" " ++ v).
Proof.
  unfold strip. cbn [append lstrip].
  change (isspace "C") with false. cbv iota.
  rewrite !StrFacts.rstrip_nonspace by reflexivity. reflexivity.
Qed.

Lemma config_line_current (info : ConfigInfo) (v : string) :
  config_line info ("Current: " ++ v)
  = {| value := Some (strip v); choices := choices info |}.
Proof.
  unfold config_line. rewrite strip_current.
  remember (rstrip (" " ++ v)) as x eqn:Ex.
  cbn. rewrite !prefix_nil. subst x.
  rewrite StrFacts.strip_rstrip. reflexivity.
Qed.

Lemma strip_label (label : string) :
  strip (" " ++ label) = strip label.
Proof. reflexivity. Qed.

Lemma config_line_choice (info : ConfigInfo) (idx label : string) :
  unspaced idx = true ->
  config_line info ("Choice: " ++ idx ++ " " ++ label)
  = if Text.truthy (strip label)
    then {| value := value info;
            choices := (choices info ++ [strip label])%list |}
    else info.
Proof.
  intros Hidx. unfold config_line.
  assert (E : strip ("Choice: " ++ idx ++ " " ++ label)
              = "Choice:" ++ rstrip (" " ++ idx ++ " " ++ label)).
  { unfold strip. cbn [append lstrip].
    change (isspace "C") with false. cbv iota.
    rewrite !StrFacts.rstrip_nonspace by reflexivity. reflexivity. }
  rewrite E. clear E.
  destruct (rstrip label) as [|c r] eqn:Hl.
  - assert (Hs : strip label = "") by (apply StrFacts.strip_blank; exact Hl).
    rewrite Hs. cbn [Text.truthy].
    assert (E : rstrip (" " ++ idx ++ " " ++ label) = rstrip (" " ++ idx)).
    { rewrite <- !StrFacts.append_assoc.
      rewrite StrFacts.rstrip_app_drop by exact Hl.
      rewrite StrFacts.rstrip_app_drop by reflexivity. reflexivity. }
    rewrite E. clear E.
    destruct idx as [|i idx].
    + reflexivity.
    + assert (E : rstrip (" " ++ String i idx) = " " ++ String i idx).
      { rewrite StrFacts.rstrip_app_keep;
          rewrite StrFacts.unspaced_rstrip by exact Hidx;
          [reflexivity | discriminate]. }
      rewrite E. clear E.
      remember (String i idx) as x eqn:Ex.
      change (" " ++ x) with (String " " x).
      rewrite StrFacts.split_char_first by reflexivity.
      rewrite StrFacts.split_char_whole
        by (apply StrFacts.unspaced_nosep; exact Hidx).
      cbn. reflexivity.
  - assert (Hs : strip label <> "").
    { intros H. apply (proj1 (StrFacts.strip_blank label)) in H.
      congruence. }
    assert (Ht : Text.truthy (strip label) = true)
      by (destruct (strip label); [contradiction | reflexivity]).
    rewrite Ht.
    assert (E : rstrip (" " ++ idx ++ " " ++ label)
                = " " ++ idx ++ " " ++ rstrip label).
    { rewrite <- !StrFacts.append_assoc. 
      rewrite StrFacts.rstrip_app_keep by congruence. reflexivity. }
    rewrite E. clear E.
    remember (rstrip label) as rl eqn:Erl.
    change (" " ++ idx ++ " " ++ rl) with (String " " (idx ++ String " " rl)).
    rewrite StrFacts.split_char_first by reflexivity.
    rewrite StrFacts.split_char_first
      by (apply StrFacts.unspaced_nosep; exact Hidx).
    remember (idx ++ String " " rl) as y eqn:Ey.
    cbn. rewrite StrFacts.split_char_0. rewrite Erl, StrFacts.strip_rstrip.
    reflexivity.
Qed.

Lemma config_line_other (info : ConfigInfo) (text : string) :
  startswith "Current:" (strip text) = false ->
  startswith "Choice:" (strip text) = false ->
  config_line info text = info.
Proof. intros H1 H2. unfold config_line. rewrite H1, H2. reflexivity. Qed.

Lemma widget_text_no_break (l : widget_line) :
  widget_ok l = true -> no_break (widget_text l) = true.
Proof.
  destruct l as [v|idx label|text]; cbn [widget_ok widget_text]; intros H.
  - unfold no_break. rewrite StrFacts.forallb_string_app. exact H.
  - apply andb_true_iff in H as [H1 H2].
    apply StrFacts.unspaced_no_break in H1.
    unfold no_break in *.
    rewrite !StrFacts.forallb_string_app, H1, H2. reflexivity.
  - apply andb_true_iff in H as [H _].
    apply andb_true_iff in H as [H _]. exact H.
Qed.

(** What the loop of [_parse_get_config] does with the lines of a
    widget. *)
Lemma config_lines (ls : list widget_line) :
  forallb widget_ok ls = true ->
  forall info,
    fold_left config_line (map widget_text ls) info
    = {| value :=
           fold_left
             (fun acc l =>
                match l with
                | Current v => Some (strip v)
                | _ => acc
                end)
             ls (value info);
         choices := (choices info ++ labels_of ls)%list |}.
Proof.
  induction ls as [|l ls IH]; cbn [forallb map fold_left]; intros H info.
  - cbn. rewrite app_nil_r. destruct info; reflexivity.
  - apply andb_true_iff in H as [Hl Hls].
    rewrite IH by exact Hls. clear IH.
    destruct l as [v|idx label|text]; cbn [widget_ok widget_text] in *.
    + rewrite config_line_current. reflexivity.
    + apply andb_true_iff in Hl as [H1 H2].
      rewrite config_line_choice by exact H1.
      unfold labels_of. cbn [flat_map].
      destruct (Text.truthy (strip label)); cbn [value choices].
      * rewrite <- app_assoc. reflexivity.
      * reflexivity.
    + apply andb_true_iff in Hl as [Hl H2].
      apply andb_true_iff in Hl as [_ H1].
      apply negb_true_iff in H1, H2.
      rewrite config_line_other by assumption. reflexivity.
Qed.

End ParseFacts.

Section Widget.
Import Str Output Parse.
Variable ls : list widget_line.

(** X16.  [_parse_get_config] on the text that [--get-config] prints for
    a widget, line by line: the value is that of the last [Current:]
    line, stripped, and [None] when there is none; the choices are the
    labels of the [Choice:] lines in their order, stripped and with the
    white space inside them kept, but a choice whose label is empty or
    white space only is left out. *)
Theorem parse_get_config_reads_widget :
  forallb widget_ok ls = true ->
  _parse_get_config (unlines (map widget_text ls))
  = {| value := current_of ls; choices := labels_of ls |}.
Proof.
  intros H. unfold _parse_get_config.
  rewrite StrFacts.splitlines_unlines.
  - rewrite ParseFacts.config_lines by exact H. reflexivity.
  - clear -H. induction ls as [|l ls' IH]; [reflexivity|].
    cbn [forallb map] in *. apply andb_true_iff in H as [H1 H2].
    rewrite ParseFacts.widget_text_no_break, IH by assumption. reflexivity.
Qed.

End Widget.

Lemma parse_get_config_reads_widget_witness :
  Parse._parse_get_config
    (Output.unlines (map Output.widget_text focus_widget))
  = {| Parse.value := Some "One Shot"%string;
       Parse.choices := ["One Shot"; "AI Focus"]%string |}.
Proof.
  exact (@parse_get_config_reads_widget focus_widget eq_refl).
Defined.

Module ListingFacts.
Import Str Output Parse.

Local Open Scope string_scope.

(** *** [split] on the cells of a row *)

Lemma split_token (tok : string) :
  unspaced tok = true ->
  tok <> "" ->
  forall s,
    match s with "" => true | String c _ => isspace c end = true ->
    split (tok ++ s) = tok :: split s.
Proof.
  induction tok as [|c tok IH]; intros Hu Hne s Hs; [congruence|].
  cbn in Hu. apply andb_true_iff in Hu as [Hc Hu].
  apply negb_true_iff in Hc.
  destruct tok as [|c2 tok].
  - cbn [append split]. rewrite Hc.
    destruct s as [|c' s']; [reflexivity|]. rewrite Hs. reflexivity.
  - assert (Hc2 : isspace c2 = false).
    { cbn in Hu. apply andb_true_iff in Hu as [H _].
      apply negb_true_iff in H. exact H. }
    specialize (IH Hu ltac:(discriminate) s Hs).
    cbn [append] in IH |- *.
    change (split (String c (String c2 (tok ++ s))))
      with (if isspace c then split (String c2 (tok ++ s))
            else if isspace c2
                 then String c "" :: split (String c2 (tok ++ s))
                 else match split (String c2 (tok ++ s)) with
                      | [] => [String c ""]
                      | word :: words => String c word :: words
                      end).
    rewrite Hc, Hc2, IH. reflexivity.
Qed.

Lemma split_blank (pad s : string) :
  blank pad = true -> split (pad ++ s) = split s.
Proof.
  induction pad as [|c pad IH]; [reflexivity|].
  cbn. intros H. apply andb_true_iff in H as [Hc Hp].
  rewrite Hc. auto.
Qed.

Lemma padding_blank (pad : string) :
  padding pad = true -> blank pad = true.
Proof.
  unfold padding. intros H. apply andb_true_iff in H as [_ H].
  revert H. apply StrFacts.forallb_string_impl.
  intros c Hc. apply andb_true_iff in Hc. tauto.
Qed.

Lemma padding_no_break (pad : string) :
  padding pad = true -> no_break pad = true.
Proof.
  unfold padding. intros H. apply andb_true_iff in H as [_ H].
  revert H. apply StrFacts.forallb_string_impl.
  intros c Hc. apply andb_true_iff in Hc. tauto.
Qed.

Lemma padding_head (pad s : string) :
  padding pad = true ->
  match pad ++ s with "" => true | String c _ => isspace c end = true.
Proof.
  unfold padding. destruct pad as [|c pad]; [discriminate|].
  cbn. intros H. apply andb_true_iff in H as [H _].
  apply andb_true_iff in H. tauto.
Qed.

Lemma spaced_cons (pad c : string) (cells : list string) :
  spaced pad (c :: cells)
  = c ++ match cells with
         | [] => ""
         | _ => pad ++ spaced pad cells
         end.
Proof.
  destruct cells; cbn [spaced]; [|reflexivity].
  rewrite StrFacts.append_nil_r. reflexivity.
Qed.

Lemma split_spaced (pad : string) (cells : list string) :
  padding pad = true ->
  forallb token cells = true ->
  split (spaced pad cells) = cells.
Proof.
  intros Hp. induction cells as [|c cells IH]; [reflexivity|].
  cbn [forallb]. intros H. apply andb_true_iff in H as [Hc Hcs].
  unfold token in Hc. apply andb_true_iff in Hc as [Hne Hu].
  rewrite spaced_cons. rewrite split_token.
  - f_equal. destruct cells as [|c2 cells]; [reflexivity|].
    rewrite split_blank by (apply padding_blank; exact Hp).
    apply IH. exact Hcs.
  - exact Hu.
  - destruct c; [discriminate | discriminate].
  - destruct cells; [reflexivity|]. apply padding_head. exact Hp.
Qed.

Lemma token_nonempty (c : string) : token c = true -> c <> "".
Proof. destruct c; [discriminate | discriminate]. Qed.

Lemma token_unspaced (c : string) : token c = true -> unspaced c = true.
Proof. unfold token. intros H. apply andb_true_iff in H. tauto. Qed.

Lemma spaced_nonempty (pad c : string) (cells : list string) :
  token c = true -> spaced pad (c :: cells) <> "".
Proof.
  intros H. rewrite spaced_cons.
  pose proof (@token_nonempty c H). destruct c; [congruence | discriminate].
Qed.

Lemma rstrip_spaced (pad : string) (cells : list string) :
  forallb token cells = true ->
  rstrip (spaced pad cells) = spaced pad cells.
Proof.
  induction cells as [|c cells IH]; [reflexivity|].
  cbn [forallb]. intros H. apply andb_true_iff in H as [Hc Hcs].
  destruct cells as [|c2 cells].
  - cbn [spaced]. apply StrFacts.unspaced_rstrip, token_unspaced, Hc.
  - change (spaced pad (c :: c2 :: cells))
      with (c ++ pad ++ spaced pad (c2 :: cells)).
    assert (Hn : spaced pad (c2 :: cells) <> "").
    { apply spaced_nonempty. cbn [forallb] in Hcs.
      apply andb_true_iff in Hcs. tauto. }
    rewrite <- StrFacts.append_assoc.
    rewrite StrFacts.rstrip_app_keep; rewrite IH by exact Hcs;
      [reflexivity | exact Hn].
Qed.

Lemma lstrip_token (c s : string) :
  token c = true -> lstrip (c ++ s) = c ++ s.
Proof.
  destruct c as [|x c]; [discriminate|].
  unfold token. cbn. intros H. apply andb_true_iff in H as [H _].
  apply negb_true_iff in H. rewrite H. reflexivity.
Qed.

Lemma strip_spaced (pad : string) (cells : list string) :
  forallb token cells = true ->
  strip (spaced pad cells) = spaced pad cells.
Proof.
  intros H. unfold strip.
  destruct cells as [|c cells]; [reflexivity|].
  rewrite spaced_cons, lstrip_token; [|cbn in H; apply andb_true_iff in H; tauto].
  rewrite <- spaced_cons. apply rstrip_spaced. exact H.
Qed.

Lemma no_break_spaced (pad : string) (cells : list string) :
  padding pad = true ->
  forallb token cells = true ->
  no_break (spaced pad cells) = true.
Proof.
  intros Hp. induction cells as [|c cells IH]; [reflexivity|].
  cbn [forallb]. intros H. apply andb_true_iff in H as [Hc Hcs].
  rewrite spaced_cons. unfold no_break in *.
  rewrite StrFacts.forallb_string_app.
  fold (no_break c).
  rewrite (@StrFacts.unspaced_no_break c (@token_unspaced c Hc)).
  destruct cells as [|c2 cells]; [reflexivity|].
  rewrite StrFacts.forallb_string_app.
  fold (no_break pad). rewrite padding_no_break by exact Hp.
  apply IH. exact Hcs.
Qed.

(** *** Numbers *)

Lemma decimal_char (c : ascii) :
  is_decimal c = true ->
  isspace c = false /\ int_space c = false /\ isdigit_char c = true
  /\ Ascii.eqb c "#" = false /\ Ascii.eqb c underscore = false
  /\ Ascii.eqb c "+" = false /\ Ascii.eqb c "-" = false.
Proof.
  destruct c as [[] [] [] [] [] [] [] []]; cbv; intros H;
    try discriminate; auto 10.
Qed.

Lemma dec_digits (n : N) : digits (dec n) = true /\ dec n <> "".
Proof.
  unfold dec. split.
  - induction (N.to_uint n) as [|d IH|d IH|d IH|d IH|d IH|d IH|d IH|d IH|d IH|d IH];
      cbn; auto.
  - intros H.
    pose proof (NilEmpty.usu (N.to_uint n)) as U. rewrite H in U.
    cbn in U. injection U as U.
    pose proof (DecimalN.Unsigned.of_to n) as V. rewrite <- U in V.
    cbn in V. subst n. discriminate.
Qed.

Lemma int_lstrip_digits (s : string) : digits s = true -> int_lstrip s = s.
Proof.
  destruct s as [|c s]; [reflexivity|].
  cbn. intros H. apply andb_true_iff in H as [H _].
  destruct (decimal_char _ H) as (_ & -> & _). reflexivity.
Qed.

Lemma int_rstrip_digits (s : string) : digits s = true -> int_rstrip s = s.
Proof.
  induction s as [|c s IH]; [reflexivity|].
  cbn. intros H. apply andb_true_iff in H as [Hc Hs].
  destruct (decimal_char _ Hc) as (_ & -> & _).
  unfold digits in IH. rewrite IH by exact Hs. destruct s; reflexivity.
Qed.

Lemma grouped_digits_digits (s : string) :
  digits s = true ->
  forall b, s <> "" \/ b = true -> grouped_digits b s = Some s.
Proof.
  induction s as [|c s IH]; intros H b Hb.
  - destruct Hb as [Hb| ->]; [congruence | reflexivity].
  - cbn in H. apply andb_true_iff in H as [Hc Hs].
    cbn [grouped_digits]. rewrite Hc.
    rewrite IH; [reflexivity | exact Hs | right; reflexivity].
Qed.

Lemma signed_value_digits (s : string) :
  digits s = true ->
  s <> "" ->
  signed_value s = decimal_value s.
Proof.
  intros H Hne.
  assert (E : signed_value s
              = match grouped_digits false s with
                | Some d => decimal_value d
                | None => None
                end).
  { destruct s as [|c s]; [congruence|].
    cbn in H. apply andb_true_iff in H as [Hc _].
    destruct c as [[] [] [] [] [] [] [] []];
      try (cbv in Hc; discriminate); reflexivity. }
  rewrite E, grouped_digits_digits; auto.
Qed.

Lemma int_dec (n : N) :
  (String.length (dec n) <=? MAX_STR_DIGITS)%nat = true ->
  int (dec n) = Some (Z.of_N n).
Proof.
  intros Hlen. destruct (dec_digits n) as [Hd Hne].
  unfold int. rewrite int_lstrip_digits, int_rstrip_digits by exact Hd.
  rewrite signed_value_digits by assumption.
  unfold decimal_value. rewrite Hlen.
  destruct (dec n) eqn:E; [congruence|]. rewrite <- E.
  unfold dec. rewrite NilEmpty.usu. cbn [option_map].
  rewrite DecimalN.Unsigned.of_to. reflexivity.
Qed.

Lemma isdigit_dec (n : N) : isdigit (dec n) = true.
Proof.
  destruct (dec_digits n) as [Hd Hne]. unfold isdigit.
  destruct (dec n) eqn:E; [congruence|].
  revert Hd. apply StrFacts.forallb_string_impl.
  intros c Hc. apply decimal_char in Hc. tauto.
Qed.

Lemma token_number (n : N) : token ("#" ++ dec n) = true.
Proof.
  destruct (dec_digits n) as [Hd _]. cbn.
  revert Hd. apply StrFacts.forallb_string_impl.
  intros c Hc. apply decimal_char in Hc as (-> & _). reflexivity.
Qed.

Lemma token_dec (n : N) : token (dec n) = true.
Proof.
  destruct (dec_digits n) as [Hd Hne]. unfold token.
  apply andb_true_iff. split.
  - destruct (dec n); [congruence | reflexivity].
  - revert Hd. apply StrFacts.forallb_string_impl.
    intros c Hc. apply decimal_char in Hc as (-> & _). reflexivity.
Qed.

Lemma lstrip_char_number (n : N) : lstrip_char "#" ("#" ++ dec n) = dec n.
Proof.
  destruct (dec_digits n) as [Hd Hne]. cbn.
  destruct (dec n) as [|c s]; [congruence|].
  cbn in Hd. apply andb_true_iff in Hd as [Hc _].
  cbn. apply decimal_char in Hc as (_ & _ & _ & -> & _). reflexivity.
Qed.

Lemma cells_tokens (n : N) (name : string) (details : list string)
    (stamp : option N) :
  token name = true ->
  forallb token details = true ->
  forallb token (cells_of n name details stamp) = true.
Proof.
  intros Hn Hd. unfold cells_of. rewrite forallb_app.
  cbn [forallb]. rewrite token_number, Hn, Hd.
  destruct stamp as [t|]; cbn [forallb]; [rewrite token_dec|]; reflexivity.
Qed.

Lemma startswith_number (pad : string) (n : N) (cells : list string) :
  startswith "#" (spaced pad (("#" ++ dec n) :: cells)) = true.
Proof.
  rewrite spaced_cons. cbn. apply ParseFacts.prefix_nil.
Qed.

Lemma last_details (a b d : string) (details : list string) :
  List.last (a :: b :: d :: details) "" = List.last (d :: details) "".
Proof. reflexivity. Qed.

(** The body of the loop of [_list_camera_files] on the row of a file. *)
Lemma listing_line_file (pad : string) (n : N) (name : string)
    (details : list string) (stamp : option N) :
  padding pad = true ->
  row_ok (File n name details stamp) = true ->
  match listing_line (row_text pad (File n name details stamp)) with
  | Some f => [f]
  | None => []
  end
  = files_of (File n name details stamp).
Proof.
  intros Hp Hok. cbn [row_ok] in Hok.
  apply andb_true_iff in Hok as [Hok Hstamp].
  apply andb_true_iff in Hok as [Hok Hlen].
  apply andb_true_iff in Hok as [Hname Hdetails].
  pose proof (cells_tokens n name details stamp Hname Hdetails) as Htok.
  unfold listing_line. cbn [row_text].
  rewrite strip_spaced by exact Htok.
  rewrite split_spaced by assumption.
  unfold cells_of at 1. cbn [app].
  rewrite startswith_number. cbn [negb].
  unfold cells_of. cbn [app List.length nth].
  rewrite lstrip_char_number, int_dec by exact Hlen.
  destruct stamp as [t|].
  - rewrite length_app. cbn [List.length].
    replace (S (S (List.length details + 1)) <? 3)%nat with false
      by (symmetry; apply Nat.ltb_ge; lia).
    rewrite (app_comm_cons details [dec t] name).
    rewrite (app_comm_cons (name :: details) [dec t] ("#" ++ dec n)).
    rewrite last_last, isdigit_dec, int_dec by exact Hstamp.
    destruct details; reflexivity.
  - rewrite app_nil_r. destruct details as [|d details]; [reflexivity|].
    cbn [List.length Nat.ltb Nat.leb].
    rewrite last_details. apply negb_true_iff in Hstamp.
    rewrite Hstamp. reflexivity.
Qed.

Lemma listing_line_heading (text : string) :
  startswith "#" (strip text) = false -> listing_line text = None.
Proof. intros H. unfold listing_line. rewrite H. reflexivity. Qed.

Lemma row_text_no_break (pad : string) (r : listing_row) :
  padding pad = true ->
  row_ok r = true ->
  no_break (row_text pad r) = true.
Proof.
  intros Hp Hok.
  destruct r as [text|n name details stamp]; cbn [row_ok row_text] in *.
  - apply andb_true_iff in Hok. tauto.
  - apply andb_true_iff in Hok as [Hok _].
    apply andb_true_iff in Hok as [Hok _].
    apply andb_true_iff in Hok as [Hname Hdetails].
    apply no_break_spaced; [exact Hp|].
    apply cells_tokens; assumption.
Qed.

Lemma list_files_rows (pad : string) (rows : list listing_row) :
  padding pad = true ->
  forallb row_ok rows = true ->
  list_files_of (map (row_text pad) rows) = flat_map files_of rows.
Proof.
  intros Hp. induction rows as [|r rows IH]; [reflexivity|].
  cbn [forallb map flat_map list_files_of].
  intros H. apply andb_true_iff in H as [Hr Hrows].
  rewrite <- IH by exact Hrows. clear IH.
  destruct r as [text|n name details stamp].
  - cbn [row_ok] in Hr. apply andb_true_iff in Hr as [_ Hr].
    apply negb_true_iff in Hr.
    cbn [row_text files_of app]. rewrite listing_line_heading by exact Hr.
    reflexivity.
  - rewrite <- (@listing_line_file pad n name details stamp Hp Hr).
    destruct (listing_line (row_text pad (File n name details stamp)));
      reflexivity.
Qed.

End ListingFacts.

Section Listing.
Import Str Output Parse.
Variables (pad : string) (rows : list listing_row).

(** X17.  The parser of [_list_camera_files] on the text that
    [--list-files] prints, the cells of a row separated by white space:
    a row [#n name ... t] is read back as the file with index [n], name
    [name] and time [t], whatever cells lie between; a row whose last
    cell is not a number has no time; a row of two cells only and the
    headings are passed over.  The numbers are those with at most 4300
    digits, the most that [int] accepts. *)
Theorem list_files_reads_listing :
  padding pad = true ->
  forallb row_ok rows = true ->
  parse_list_files (unlines (map (row_text pad) rows))
  = flat_map files_of rows.
Proof.
  intros Hp Hok. unfold parse_list_files.
  rewrite StrFacts.splitlines_unlines.
  - apply ListingFacts.list_files_rows; assumption.
  - clear -Hp Hok. induction rows as [|r rows' IH]; [reflexivity|].
    cbn [forallb map] in *. apply andb_true_iff in Hok as [H1 H2].
    rewrite ListingFacts.row_text_no_break, IH by assumption. reflexivity.
Qed.

End Listing.

Lemma list_files_reads_listing_witness :
  Parse.parse_list_files
    (Output.unlines (map (Output.row_text "   ") card_listing))
  = [ {| index := 1; name := "IMG_0001.JPG"; ts := Some 1634567890%Z |};
      {| index := 2; name := "MVI_0002.MOV"; ts := None |} ]%string.
Proof.
  exact (@list_files_reads_listing "   " card_listing eq_refl eq_refl).
Defined.

(** ** The photos on disk *)

Module FilesFacts.
Import Files.

Lemma Qltb_true (x y : Q) : Qltb x y = true <-> x < y.
Proof.
  unfold Qltb. rewrite negb_true_iff. split.
  - intros H. apply Qnot_le_lt. intros Hle.
    apply Qle_bool_iff in Hle. congruence.
  - intros H. destruct (Qle_bool y x) eqn:E; [|reflexivity].
    apply Qle_bool_iff in E. exfalso. exact (Qlt_not_le _ _ H E).
Qed.

Lemma Qltb_false (x y : Q) : Qltb x y = false <-> y <= x.
Proof.
  unfold Qltb. rewrite negb_false_iff. apply Qle_bool_iff.
Qed.

(** The loops of [_latest_image_path], from any point on. *)
Lemma latest_loop_spec (exts : list string) (walk : list Entry) :
  forall newest_path newest_mtime,
    (latest_loop exts walk newest_path newest_mtime = newest_path
     /\ forall e t, In e walk -> counts exts e t -> t <= newest_mtime)
    \/ exists e t,
         In e walk
         /\ latest_loop exts walk newest_path newest_mtime = Some (path e)
         /\ member (splitext_ext (fname e)) exts = true
         /\ mtime e = Some t
         /\ newest_mtime < t
         /\ forall e' t', In e' walk -> counts exts e' t' -> t' <= t.
Proof.
  induction walk as [|e walk IH]; intros np nm.
  - left. split; [reflexivity|]. intros e t [].
  - assert (Hskip :
      (forall t, counts exts e t -> t <= nm) ->
      (latest_loop exts walk np nm = np
       /\ forall e0 t, In e0 (e :: walk) -> counts exts e0 t -> t <= nm)
      \/ exists e0 t,
           In e0 (e :: walk)
           /\ latest_loop exts walk np nm = Some (path e0)
           /\ member (splitext_ext (fname e0)) exts = true
           /\ mtime e0 = Some t
           /\ nm < t
           /\ forall e' t',
                In e' (e :: walk) -> counts exts e' t' -> t' <= t).
    { intros He.
      destruct (IH np nm)
        as [(E & Hall)|(e2 & t2 & Hin & E & M2 & T2 & L2 & Hall)].
      - left. split; [exact E|].
        intros e' t' [<-|Hin'] C; [auto | eapply Hall; eauto].
      - right. exists e2, t2.
        split; [right; exact Hin|]. split; [exact E|].
        split; [exact M2|]. split; [exact T2|]. split; [exact L2|].
        intros e' t' [<-|Hin'] C; [|eapply Hall; eauto].
        apply Qlt_le_weak. eapply Qle_lt_trans; [apply He; exact C | exact L2]. }
    cbn [latest_loop].
    destruct (member (splitext_ext (fname e)) exts) eqn:Hm; cbn [negb].
    + destruct (mtime e) as [t|] eqn:Ht.
      * destruct (Qltb nm t) eqn:Hlt.
        -- apply Qltb_true in Hlt.
           assert (He : forall t', counts exts e t' -> t' = t).
           { intros t' (_ & Ht' & _). congruence. }
           destruct (IH (Some (path e)) t)
             as [(E & Hall)|(e2 & t2 & Hin & E & M2 & T2 & L2 & Hall)].
           ++ right. exists e, t.
              split; [left; reflexivity|]. split; [exact E|].
              split; [exact Hm|]. split; [exact Ht|]. split; [exact Hlt|].
              intros e' t' [<-|Hin'] C; [|eapply Hall; eauto].
              rewrite (He _ C). apply Qle_refl.
           ++ right. exists e2, t2.
              split; [right; exact Hin|]. split; [exact E|].
              split; [exact M2|]. split; [exact T2|].
              split; [eapply Qlt_trans; eauto|].
              intros e' t' [<-|Hin'] C; [|eapply Hall; eauto].
              rewrite (He _ C). apply Qlt_le_weak. exact L2.
        -- apply Qltb_false in Hlt. apply Hskip.
           intros t' (_ & Ht' & _).
           rewrite Ht in Ht'. injection Ht' as <-. exact Hlt.
      * apply Hskip. intros t' (_ & Ht' & _). congruence.
    + apply Hskip. intros t' (Hm' & _). congruence.
Qed.

End FilesFacts.

Section Latest.
Import Files.
Variables (exts : list string) (walk : list Entry).

(** X18.  [_latest_image_path]: the path returned is that of a file
    whose extension is one of [exts], written as in [exts], whose
    modification time can be read and lies after the epoch, and no such
    file under the root is newer.  It returns [None] exactly when no
    file under the root is of this kind; a file with another extension
    (say [.Jpg]), an unreadable time or a time not after the epoch is
    never the latest image. *)
Theorem latest_image_is_newest :
  match _latest_image_path exts walk with
  | Some p =>
      exists e t,
        In e walk
        /\ p = path e
        /\ counts exts e t
        /\ forall e' t', In e' walk -> counts exts e' t' -> t' <= t
  | None => forall e t, In e walk -> ~ counts exts e t
  end.
Proof.
  unfold _latest_image_path.
  destruct (FilesFacts.latest_loop_spec exts walk None 0)
    as [(E & Hall)|(e & t & Hin & E & M & T & L & Hall)]; rewrite E.
  - intros e t Hin C. pose proof (Hall e t Hin C) as Hle.
    destruct C as (_ & _ & Hpos).
    exact (Qlt_not_le _ _ Hpos Hle).
  - exists e, t. repeat split; auto.
Qed.

End Latest.

Module NavigationFacts.
Import Files.

Lemma index_of_nth (x : string) (l : list string) :
  forall i, Str.index_of x l = Some i -> nth_error l i = Some x.
Proof.
  induction l as [|y l IH]; intros i; cbn [Str.index_of]; [discriminate|].
  destruct (String.eqb_spec y x) as [->|Hne].
  - intros H. injection H as <-. reflexivity.
  - destruct (Str.index_of x l) as [j|]; [|discriminate].
    intros H. injection H as <-. cbn. apply IH. reflexivity.
Qed.

Lemma nth_index_of (x : string) (l : list string) :
  NoDup l ->
  forall i, nth_error l i = Some x -> Str.index_of x l = Some i.
Proof.
  induction 1 as [|y l Hy Hnd IH]; intros i Hi.
  - destruct i; discriminate.
  - cbn [Str.index_of]. destruct i as [|i]; cbn in Hi.
    + injection Hi as ->. rewrite String.eqb_refl. reflexivity.
    + destruct (String.eqb_spec y x) as [->|Hne].
      * exfalso. apply Hy. eapply nth_error_In; eauto.
      * rewrite (IH _ Hi). reflexivity.
Qed.

End NavigationFacts.

Section Navigation.
Import Files.
Variable names : list string.

(** X19.  The navigation of [photo_view] over photos with distinct
    names: a photo that is listed at position [i] links to the photo at
    position [i + 1] as previous and to the photo at position [i - 1] as
    next, and to nothing where the list ends.  So following Previous
    and then Next, or Next and then Previous, comes back to the same
    photo; and a photo that is not listed links to nothing. *)
Theorem photo_navigation :
  NoDup names ->
  (forall i name,
     nth_error names i = Some name ->
     neighbours names name
     = (nth_error names (S i),
        match i with O => None | S j => nth_error names j end))
  /\ (forall name p,
        fst (neighbours names name) = Some p ->
        snd (neighbours names p) = Some name)
  /\ (forall name q,
        snd (neighbours names name) = Some q ->
        fst (neighbours names q) = Some name)
  /\ (forall name,
        ~ In name names -> neighbours names name = (None, None)).
Proof.
  intros Hnd.
  assert (Hat : forall i name,
            nth_error names i = Some name ->
            neighbours names name
            = (nth_error names (S i),
               match i with O => None | S j => nth_error names j end)).
  { intros i name Hi. unfold neighbours.
    rewrite (NavigationFacts.nth_index_of Hnd _ Hi).
    assert (Hlt : (i < List.length names)%nat)
      by (apply nth_error_Some; congruence).
    replace (i + 1)%nat with (S i) by lia.
    f_equal.
    - destruct (S i <? List.length names)%nat eqn:E; [reflexivity|].
      apply Nat.ltb_ge in E. symmetry. apply nth_error_None. exact E.
    - destruct i as [|j]; [reflexivity|].
      cbn [Nat.ltb Nat.leb]. replace (S j - 1)%nat with j by lia.
      reflexivity. }
  assert (Hin : forall name,
            Str.index_of name names = None \/
            exists i, nth_error names i = Some name).
  { intros name. destruct (Str.index_of name names) as [i|] eqn:E; [|auto].
    right. exists i. apply NavigationFacts.index_of_nth. exact E. }
  split; [exact Hat|]. split; [|split].
  - intros name p H.
    destruct (Hin name) as [E|(i & Hi)].
    + unfold neighbours in H. rewrite E in H. discriminate.
    + rewrite (Hat _ _ Hi) in H. cbn [fst] in H.
      rewrite (Hat _ _ H). exact Hi.
  - intros name q H.
    destruct (Hin name) as [E|(i & Hi)].
    + unfold neighbours in H. rewrite E in H. discriminate.
    + rewrite (Hat _ _ Hi) in H. cbn [snd] in H.
      destruct i as [|j]; [discriminate|].
      rewrite (Hat _ _ H). exact Hi.
  - intros name Hnot. unfold neighbours.
    destruct (Str.index_of name names) as [i|] eqn:E; [|reflexivity].
    exfalso. apply Hnot.
    eapply nth_error_In. apply NavigationFacts.index_of_nth. exact E.
Qed.

End Navigation.

Lemma photo_navigation_witness :
  Files.neighbours ["c.JPG"; "b.CR2"; "a.jpg"]%string "b.CR2"
  = (Some "a.jpg"%string, Some "c.JPG"%string).
Proof.
  apply (proj1 (@photo_navigation ["c.JPG"; "b.CR2"; "a.jpg"]%string
                  ltac:(repeat constructor; cbn; intuition discriminate))
           1%nat "b.CR2"%string).
  reflexivity.
Defined.

Section FolderSwitch.
Import Folders.
Variables (BASE_DIR : string) (st : State) (key_raw : string).

Lemma choices_truthy (key path : string) :
  Settings.lookup key (PHOTO_CHOICES BASE_DIR) = Some path ->
  Text.truthy path = true.
Proof.
  unfold PHOTO_CHOICES. cbn [Settings.lookup].
  destruct (String.eqb "canon" key).
  - intros H. injection H as <-. unfold DEFAULT_photos_dir, Files.join.
    destruct (negb (Text.truthy BASE_DIR) || Str.endswith "/" BASE_DIR);
      destruct BASE_DIR; reflexivity.
  - destruct (String.eqb "auraface" key); [|discriminate].
    intros H. injection H as <-. reflexivity.
Qed.


End FolderSwitch.
